(** * XSLT generator: the mapping-to-stylesheet compiler

    A shallow embedding of [xsltGenerator.js] (the compiler behind the
    XSLT-Generator web application) together with the properties its
    specification states about it, followed by the reader of the source
    document ([xmlParser.js]), the places of the mapping editor and of the
    application that feed the compiler, and further properties of all of
    these.

    Conventions of the embedding.

    - A JavaScript string is a [string]: a sequence of code units, here
      restricted to the 8-bit range.  Template literals are written as
      concatenations; [dq] is the double quote and [nl] the line feed.
    - The objects of the data model are records.  The properties the code
      reads only under a truthiness test ([targetPath], [forEachPath],
      [hardcodedValue], a variable's [value] and [xpath], ...) are the empty
      string when absent, since an absent property and an empty one take the
      same branch; [occurs] is an integer, [0] standing for an absent count;
      [required] keeps the three cases apart.
    - The hierarchy is built in a plain JavaScript object whose keys are
      the segments of the target paths.  Its own properties are kept in
      enumeration order; what the builders can reach and change beyond it,
      through the prototype of the object, is the [Realm], which is passed
      from call to call.
    - [console.log] and [console.warn] have no influence on any returned
      value; the console is kept only for [normalizeXPath], whose warning
      the specification talks about.
    - Regular expressions are embedded as the scanning functions they
      denote; each one carries the expression it comes from.
    - A parsed document is the tree of its nodes, as far as the reader
      looks at them: names, attributes, child nodes and text. *)

From Stdlib Require Import String Ascii List ZArith Bool Arith Lia.
From Stdlib Require Import Decimal DecimalString.
From Stdlib Require Import Permutation.
Import ListNotations.
Open Scope list_scope.
Open Scope string_scope.

(* ================================================================== *)
(** ** JavaScript string primitives *)
(* ================================================================== *)

Definition dq : string := String (ascii_of_nat 34) EmptyString.
Definition nl : string := String (ascii_of_nat 10) EmptyString.

(** [q s] is [s] between double quotes, as in [select="${s}"]. *)
Definition q (s : string) : string := dq ++ s ++ dq.

Definition truthy (s : string) : bool := negb (s =? EmptyString).

(** [a || b] on strings. *)
Definition orElse (a b : string) : string := if truthy a then a else b.

Definition charIn (lo hi : nat) (c : ascii) : bool :=
  (lo <=? nat_of_ascii c)%nat && (nat_of_ascii c <=? hi)%nat.

Definition isUpper (c : ascii) : bool := charIn 65 90 c.
Definition isLower (c : ascii) : bool := charIn 97 122 c.
Definition isDigit (c : ascii) : bool := charIn 48 57 c.
Definition isLetter (c : ascii) : bool := isUpper c || isLower c.

(** [String.prototype.toLowerCase] on 8-bit code units: A-Z and the
    Latin-1 capitals (all of 0xC0-0xDE but the multiplication sign). *)
Definition lowerChar (c : ascii) : ascii :=
  let n := nat_of_ascii c in
  if isUpper c || (charIn 192 222 c && negb (n =? 215)%nat)
  then ascii_of_nat (n + 32) else c.

Fixpoint mapChars (f : ascii -> ascii) (s : string) : string :=
  match s with
  | EmptyString => EmptyString
  | String c r => String (f c) (mapChars f r)
  end.

Definition toLowerCase (s : string) : string := mapChars lowerChar s.

(** White space and line terminators removed by [String.prototype.trim]
    (TAB, LF, VT, FF, CR, SP, NBSP in the 8-bit range). *)
Definition isWhiteSpace (c : ascii) : bool :=
  charIn 9 13 c || (nat_of_ascii c =? 32)%nat || (nat_of_ascii c =? 160)%nat.

Fixpoint trimStart (s : string) : string :=
  match s with
  | EmptyString => EmptyString
  | String c r => if isWhiteSpace c then trimStart r else s
  end.

Fixpoint trimEnd (s : string) : string :=
  match s with
  | EmptyString => EmptyString
  | String c r =>
      match trimEnd r with
      | EmptyString => if isWhiteSpace c then EmptyString else String c EmptyString
      | r' => String c r'
      end
  end.

Definition trim (s : string) : string := trimEnd (trimStart s).

Definition startsWith (p s : string) : bool := prefix p s.

(** [s.includes(sub)]. *)
Fixpoint includes (sub s : string) : bool :=
  prefix sub s ||
  match s with
  | EmptyString => false
  | String _ r => includes sub r
  end.

(** The number of positions of [s] at which [sub] starts. *)
Fixpoint countOccurrences (sub s : string) : nat :=
  (if prefix sub s then 1 else 0) +
  match s with
  | EmptyString => 0
  | String _ r => countOccurrences sub r
  end.

(** [s.split(sep)] for a one-character separator: never the empty list. *)
Fixpoint split (sep : ascii) (s : string) : list string :=
  match s with
  | EmptyString => [EmptyString]
  | String c r =>
      if Ascii.eqb c sep then EmptyString :: split sep r
      else match split sep r with
           | h :: t => String c h :: t
           | [] => [String c EmptyString]
           end
  end.

(** [parts.join(sep)]. *)
Definition join (sep : string) (parts : list string) : string :=
  String.concat sep parts.

(** [s.replace(/c/g, d)] for single characters [c] and [d]. *)
Definition replaceChar (c d : ascii) (s : string) : string :=
  mapChars (fun x => if Ascii.eqb x c then d else x) s.

Fixpoint dropChars (n : nat) (s : string) : string :=
  match n, s with
  | O, _ => s
  | S n', String _ r => dropChars n' r
  | S _, EmptyString => EmptyString
  end.

Fixpoint takeWhile (p : ascii -> bool) (s : string) : string :=
  match s with
  | EmptyString => EmptyString
  | String c r => if p c then String c (takeWhile p r) else EmptyString
  end.

Fixpoint existsChar (p : ascii -> bool) (s : string) : bool :=
  match s with
  | EmptyString => false
  | String c r => p c || existsChar p r
  end.

Fixpoint countChar (c : ascii) (s : string) : nat :=
  match s with
  | EmptyString => O
  | String x r => (if Ascii.eqb x c then 1 else 0) + countChar c r
  end.

(** Decimal rendering of a number interpolated into a template. *)
Definition natToString (n : nat) : string :=
  NilEmpty.string_of_uint (Nat.to_uint n).

Definition numToString (z : Z) : string :=
  NilEmpty.string_of_int (Z.to_int z).

(** [Contains s t]: the text [t] occurs in [s]. *)
Definition Contains (s t : string) : Prop :=
  exists pre post, s = pre ++ t ++ post.

(* ================================================================== *)
(** ** XPath normalizer *)
(* ================================================================== *)

(** [/^[^/]*\.xml\//i]: the greedy run [[^/]*] is given back one character
    at a time until [.xml/] (any case) follows; [stripAt n s] tries the
    run lengths [n], [n-1], ..., [0]. *)
Definition matchesXmlSlash (s : string) : bool :=
  match s with
  | String d (String x (String m (String l (String sl _)))) =>
      Ascii.eqb d "."%char &&
      Ascii.eqb (lowerChar x) "x"%char &&
      Ascii.eqb (lowerChar m) "m"%char &&
      Ascii.eqb (lowerChar l) "l"%char &&
      Ascii.eqb sl "/"%char
  | _ => false
  end.

Fixpoint stripAt (n : nat) (s : string) : option string :=
  if matchesXmlSlash (dropChars n s) then Some (dropChars (n + 5) s)
  else match n with
       | O => None
       | S n' => stripAt n' s
       end.

Definition notSlash (c : ascii) : bool := negb (Ascii.eqb c "/"%char).

(** [normalized.replace(/^[^/]*\.xml\//i, '')]. *)
Definition stripFileName (s : string) : string :=
  match stripAt (String.length (takeWhile notSlash s)) s with
  | Some rest => rest
  | None => s
  end.

(** The negative lookahead [(?![^\[]*\])]: it fails to match exactly when
    a [']'] can be reached through characters other than ['[']. *)
Definition closesPredicate (rest : string) : bool :=
  existsChar (fun c => Ascii.eqb c "]"%char)
             (takeWhile (fun c => negb (Ascii.eqb c "["%char)) rest).

(** [normalized.replace(/\.(?![^\[]*\])/g, '/')]. *)
Fixpoint replaceDots (s : string) : string :=
  match s with
  | EmptyString => EmptyString
  | String c r =>
      if Ascii.eqb c "."%char && negb (closesPredicate r)
      then String "/"%char (replaceDots r)
      else String c (replaceDots r)
  end.

(** [isValidXPath]: balanced bracket counts and an admissible first
    character ([/^[^a-zA-Z/*@]/] must not match). *)
Definition isValidXPath (xpath : string) : bool :=
  if negb (truthy xpath) then false
  else if negb (countChar "["%char xpath =? countChar "]"%char xpath)%nat then false
  else match xpath with
       | String c _ =>
           if negb (isLetter c || Ascii.eqb c "/"%char ||
                    Ascii.eqb c "*"%char || Ascii.eqb c "@"%char)
           then false else true
       | EmptyString => true
       end.

Definition addDescendantPrefix (s : string) : string :=
  if negb (startsWith "/" s) && negb (startsWith "*" s) then "//" ++ s else s.

(** [normalizeXPath] with the console made explicit: the returned path and
    the warnings written by [console.warn]. *)
Definition normalizeXPath_io (xpath : string) : string * list string :=
  if negb (truthy xpath) then (EmptyString, [])
  else
    let normalized := trim xpath in
    let normalized := stripFileName normalized in
    let normalized := replaceDots normalized in
    let normalized := addDescendantPrefix normalized in
    (normalized,
     if negb (isValidXPath normalized)
     then ["Invalid XPath detected: " ++ xpath ++ ", normalized to: " ++ normalized]
     else []).

Definition normalizeXPath (xpath : string) : string :=
  fst (normalizeXPath_io xpath).

(* ================================================================== *)
(** ** Data model *)
(* ================================================================== *)

(** One attribute of an emitted element ([AttributeSpec]). *)
Record AttributeSpec : Type := mkAttr {
  attr_name : string;
  attr_value : string;
  attr_isHardcoded : bool;
  attr_isVariable : bool;
  attr_xpath : string
}.

(** A stylesheet-level variable (a [Variable] of the data model; the name
    is a reserved word here). *)
Record XsltVariable : Type := mkVar {
  var_name : string;
  var_value : string;
  var_xpath : string
}.

(** One row of the user's configuration, and also the objects the
    normalizer and the hierarchy completer produce ([isAttribute] and
    [isPlaceholder] are the properties they add).  [required] is [None]
    while the property is absent. *)
Record Mapping : Type := mkMapping {
  sourcePath : string;
  sourceType : string;
  targetName : string;
  targetPath : string;
  fieldType : string;
  occurs : Z;
  required : option bool;
  attributes : list AttributeSpec;
  valueType : string;
  hardcodedValue : string;
  forEachPath : string;
  isAttribute : bool;
  isPlaceholder : bool
}.

(** [!mapping.required]. *)
Definition notRequired (m : Mapping) : bool :=
  match required m with
  | Some true => false
  | _ => true
  end.

(** What [{name, attributes}] objects carry into
    [generateElementWithAttributes]. *)
Record Element : Type := mkElement {
  el_name : string;
  el_attributes : list AttributeSpec
}.

(** The top-level compiler input.  [variables] is [None] unless the
    property holds an array; [rootElement] is [None] when absent. *)
Record MappingSet : Type := mkMappingSet {
  fields : list Mapping;
  rootPath : string;
  recordPath : string;
  rootElement : option Element;
  variables : option (list XsltVariable);
  xsltVersion : string
}.

(** The namespace table, as [Object.entries] lists it. *)
Definition Namespaces : Type := list (string * string).

Definition nsLookup (key : string) (ns : Namespaces) : string :=
  match find (fun kv => fst kv =? key) ns with
  | Some kv => snd kv
  | None => EmptyString
  end.

(** The result of [parseSourcePath]. *)
Inductive Parsed : Type :=
| PAttribute (parentPath attributeName xpath : string)
| PElement (parentPath elementName xpath : string).

Definition parsed_xpath (p : Parsed) : string :=
  match p with
  | PAttribute _ _ x => x
  | PElement _ _ x => x
  end.

Definition parsed_isAttribute (p : Parsed) : bool :=
  match p with
  | PAttribute _ _ _ => true
  | PElement _ _ _ => false
  end.

(** [mapping.targetPath || mapping.targetName]. *)
Definition effectivePath (m : Mapping) : string :=
  orElse (targetPath m) (targetName m).

(** [!mapping.sourcePath || !mapping.targetName]. *)
Definition incomplete (m : Mapping) : bool :=
  negb (truthy (sourcePath m)) || negb (truthy (targetName m)).

(* ================================================================== *)
(** ** Path parser *)
(* ================================================================== *)

Definition isLineTerminator (c : ascii) : bool :=
  (nat_of_ascii c =? 10)%nat || (nat_of_ascii c =? 13)%nat.

(** The lines of a string, cut at the characters [.] does not match. *)
Fixpoint linesOf (s : string) : list string :=
  match s with
  | EmptyString => [EmptyString]
  | String c r =>
      if isLineTerminator c then EmptyString :: linesOf r
      else match linesOf r with
           | h :: t => String c h :: t
           | [] => [String c EmptyString]
           end
  end.

(** The last [/@] of a line that has a character after it: the text
    before it and the text after it. *)
Fixpoint lastAttrMark (s : string) : option (string * string) :=
  match s with
  | EmptyString => None
  | String c r =>
      match lastAttrMark r with
      | Some (a, b) => Some (String c a, b)
      | None =>
          match s with
          | String "/" (String "@" (String d r')) => Some (EmptyString, String d r')
          | _ => None
          end
      end
  end.

(** [sourcePath.match(/(.+)\/@(.+)/)]: the first line on which both
    groups are non-empty; the first group is greedy. *)
Fixpoint matchAttr (ls : list string) : option (string * string) :=
  match ls with
  | [] => None
  | l :: rest =>
      match lastAttrMark l with
      | Some (String c a, b) => Some (String c a, b)
      | _ => matchAttr rest
      end
  end.

Fixpoint removeLast (l : list string) : list string :=
  match l with
  | [] => []
  | [_] => []
  | x :: r => x :: removeLast r
  end.

Definition stripLeadingSlashes (s : string) : string :=
  let s1 := if startsWith "//" s then dropChars 2 s else s in
  if startsWith "/" s1 then dropChars 1 s1 else s1.

Definition parseSourcePath (sp : string) : Parsed :=
  let elementCase :=
    let parts := split "/"%char (stripLeadingSlashes sp) in
    PElement (join "/" (removeLast parts)) (last parts EmptyString) sp in
  if includes "/@" sp then
    match matchAttr (linesOf sp) with
    | Some (parent, attr) => PAttribute parent attr sp
    | None => elementCase
    end
  else elementCase.

(* ================================================================== *)
(** ** Normalizing the mapping list *)
(* ================================================================== *)

Definition normalizeMapping (m : Mapping) : Mapping :=
  if incomplete m then m
  else {|
    sourcePath := normalizeXPath (sourcePath m);
    sourceType := sourceType m;
    targetName := targetName m;
    targetPath := targetPath m;
    fieldType := orElse (fieldType m) "string";
    occurs := if (occurs m =? 0)%Z then 1%Z else occurs m;
    required := Some (match required m with Some false => false | _ => true end);
    attributes := attributes m;
    valueType := valueType m;
    hardcodedValue := hardcodedValue m;
    forEachPath := forEachPath m;
    isAttribute := (sourceType m =? "attribute") || includes "/@" (sourcePath m);
    isPlaceholder := isPlaceholder m
  |}.

(** [normalizeAllMappings]: an incomplete mapping is warned about and
    returned as it came. *)
Definition normalizeAllMappings (fs : list Mapping) : list Mapping :=
  map normalizeMapping fs.

(* ================================================================== *)
(** ** Hierarchy completer *)
(* ================================================================== *)

(** [parts.slice(0, i).join('/')] for [i = 1 .. parts.length]. *)
Definition pathPrefixes (path : string) : list string :=
  let parts := split "/"%char path in
  map (fun i => join "/" (firstn i parts)) (seq 1 (List.length parts)).

(** [Set.prototype.add]: insertion order, no duplicates. *)
Definition setAdd (x : string) (s : list string) : list string :=
  if existsb (String.eqb x) s then s else s ++ [x].

Definition setHas (x : string) (s : list string) : bool :=
  existsb (String.eqb x) s.

Definition collectPaths (ms : list Mapping) : list string :=
  fold_left (fun acc m => fold_left (fun a p => setAdd p a) (pathPrefixes (effectivePath m)) acc)
            ms [].

Definition placeholderFor (path : string) : Mapping := {|
  sourcePath := "//" ++ replaceChar "/" "_" path;
  sourceType := EmptyString;
  targetName := last (split "/"%char path) EmptyString;
  targetPath := path;
  fieldType := "component";
  occurs := 0;
  required := Some false;
  attributes := [];
  valueType := EmptyString;
  hardcodedValue := EmptyString;
  forEachPath := EmptyString;
  isAttribute := false;
  isPlaceholder := true
|}.

Definition missingPaths (ms : list Mapping) : list string :=
  let existingTargets := map effectivePath ms in
  filter (fun path => negb (setHas path existingTargets) && includes "/" path)
         (collectPaths ms).

Definition ensureCompleteHierarchy (ms : list Mapping) : list Mapping :=
  ms ++ map placeholderFor (missingPaths ms).

(* ================================================================== *)
(** ** Elements with attributes *)
(* ================================================================== *)

Definition renderAttribute (attr : AttributeSpec) : string :=
  if attr_isVariable attr then
    " " ++ attr_name attr ++ "=" ++ q ("{$" ++ attr_value attr ++ "}")
  else if attr_isHardcoded attr then
    " " ++ attr_name attr ++ "=" ++ q (attr_value attr)
  else if truthy (attr_xpath attr) then
    " " ++ attr_name attr ++ "=" ++ q ("{" ++ attr_xpath attr ++ "}")
  else EmptyString.

(** [generateElementWithAttributes]: the opening tag of an element. *)
Definition generateElementWithAttributes (element : Element) (indent : string) : string :=
  fold_left (fun output attr => output ++ renderAttribute attr)
            (el_attributes element)
            (indent ++ "<" ++ el_name element)
  ++ ">" ++ nl.

(* ================================================================== *)
(** ** The hierarchy and the object it is built in *)
(* ================================================================== *)

(** What a call yields: a value, an exception, or [Unmodelled] for the
    inputs whose behaviour depends on parts of the JavaScript object model
    that this development does not describe (see [reservedKeys]). *)
Inductive Outcome (A : Type) : Type :=
| Returned (a : A)
| Thrown (message : string)
| Unmodelled.
Arguments Returned {A} a.
Arguments Thrown {A} message.
Arguments Unmodelled {A}.

(** The hierarchy is a plain object literal, so every property read on it
    also sees [Object.prototype].  The one property of [Object.prototype]
    that the builders can create and later read back is [_fields]; the
    realm records whether it is there.  It outlives the call. *)
Record Realm : Type := mkRealm {
  proto_fields : bool
}.

Definition pristine : Realm := {| proto_fields := false |}.

(** A leaf stored in a [_fields] array: the mapping, the terminal segment
    of its target path and its parsed source. *)
Record Field : Type := mkField {
  f_mapping : Mapping;
  leafName : string;
  parsed : Parsed
}.

(** The own properties of a hierarchy object, in the order
    [Object.entries] enumerates them. *)
#[warnings="-register-all"]
Inductive Entry : Type :=
| EFields (fs : list Field)
| EMeta (level : nat) (name : string)
| EChild (key : string) (node : list Entry).

Definition Hierarchy : Type := list Entry.

(** Segments that, used as a non-terminal segment of a target path, are
    looked up as [current[part]] and resolve to something other than a
    hierarchy object: the two bookkeeping keys and the members every
    object inherits.  ([__proto__] is treated separately.) *)
Definition reservedKeys : list string :=
  [ "_fields"; "_metadata"; "constructor"; "hasOwnProperty"; "isPrototypeOf";
    "propertyIsEnumerable"; "toLocaleString"; "toString"; "valueOf";
    "__defineGetter__"; "__defineSetter__"; "__lookupGetter__"; "__lookupSetter__" ].

Definition isReserved (key : string) : bool := existsb (String.eqb key) reservedKeys.

(** Array-index keys (canonical decimal numerals below 2^32 - 1) are
    enumerated first, in ascending order; the other keys follow in
    creation order. *)
Fixpoint digitsValue (acc : N) (s : string) : option N :=
  match s with
  | EmptyString => Some acc
  | String c r =>
      if isDigit c
      then digitsValue (acc * 10 + N.of_nat (nat_of_ascii c - 48)) r
      else None
  end.

Definition arrayIndex (key : string) : option N :=
  match key with
  | EmptyString => None
  | String c r =>
      if Ascii.eqb c "0"%char && truthy r then None
      else if (10 <? String.length key)%nat then None
      else match digitsValue 0 key with
           | Some n => if (n <? 4294967295)%N then Some n else None
           | None => None
           end
  end.

Definition entryIndex (e : Entry) : option N :=
  match e with
  | EChild key _ => arrayIndex key
  | _ => None
  end.

Fixpoint insertIndexed (n : N) (e : Entry) (es : list Entry) : list Entry :=
  match es with
  | [] => [e]
  | e' :: rest =>
      match entryIndex e' with
      | Some n' => if (n <? n')%N then e :: es else e' :: insertIndexed n e rest
      | None => e :: es
      end
  end.

(** Creating an own property. *)
Definition addEntry (e : Entry) (es : list Entry) : list Entry :=
  match entryIndex e with
  | Some n => insertIndexed n e es
  | None => es ++ [e]
  end.

Fixpoint findChild (key : string) (es : list Entry) : option (list Entry) :=
  match es with
  | [] => None
  | EChild k node :: rest => if k =? key then Some node else findChild key rest
  | _ :: rest => findChild key rest
  end.

Fixpoint setChild (key : string) (node : list Entry) (es : list Entry) : list Entry :=
  match es with
  | [] => []
  | EChild k old :: rest =>
      if k =? key then EChild k node :: rest else EChild k old :: setChild key node rest
  | e :: rest => e :: setChild key node rest
  end.

Fixpoint hasFields (es : list Entry) : bool :=
  match es with
  | [] => false
  | EFields _ :: _ => true
  | _ :: rest => hasFields rest
  end.

Fixpoint pushField (fld : Field) (es : list Entry) : list Entry :=
  match es with
  | [] => []
  | EFields fs :: rest => EFields (fs ++ [fld]) :: rest
  | e :: rest => e :: pushField fld rest
  end.

(** The [parts.forEach] walk of one mapping, from the object whose own
    properties are [es]; [index] is the position of the first segment of
    [parts].

    The terminal segment runs [if (!current._fields) current._fields = []]
    and pushes the field: onto the object's own array, or onto the array
    the object inherits from [Object.prototype] (the hierarchy is then left
    as it is), or onto a new own array.

    A non-terminal segment runs [if (!current[part]) current[part] = {...}]
    and moves to [current[part]].  For [__proto__] the read yields
    [Object.prototype] itself, so that a terminal segment that follows
    creates and fills [Object.prototype._fields] and adds nothing to the
    hierarchy.  Longer paths through [__proto__], and paths through a
    reserved key, are not modelled. *)
Fixpoint placeField (fld : Field) (index : nat) (parts : list string)
    (es : list Entry) (r : Realm) : Outcome (list Entry) * Realm :=
  match parts with
  | [] => (Returned es, r)
  | [_] =>
      if hasFields es then (Returned (pushField fld es), r)
      else if proto_fields r then (Returned es, r)
      else (Returned (addEntry (EFields [fld]) es), r)
  | part :: rest =>
      if isReserved part then (Unmodelled, r)
      else if part =? "__proto__" then
        match rest with
        | [_] => (Returned es, {| proto_fields := true |})
        | _ => (Unmodelled, r)
        end
      else
        match findChild part es with
        | Some node =>
            match placeField fld (S index) rest node r with
            | (Returned node', r') => (Returned (setChild part node' es), r')
            | other => other
            end
        | None =>
            match placeField fld (S index) rest [EMeta index part] r with
            | (Returned node', r') => (Returned (addEntry (EChild part node') es), r')
            | other => other
            end
        end
  end.

(** The [mappings.forEach] loop shared by the hierarchy builders. *)
Fixpoint buildFrom (mkField : Mapping -> string -> Field) (ms : list Mapping)
    (h : Hierarchy) (r : Realm) : Outcome Hierarchy * Realm :=
  match ms with
  | [] => (Returned h, r)
  | m :: rest =>
      if incomplete m then buildFrom mkField rest h r
      else
        let parts := split "/"%char (effectivePath m) in
        match placeField (mkField m (last parts EmptyString)) 0 parts h r with
        | (Returned h', r') => buildFrom mkField rest h' r'
        | other => other
        end
  end.

Definition leafField (m : Mapping) (leaf : string) : Field :=
  {| f_mapping := m; leafName := leaf; parsed := parseSourcePath (sourcePath m) |}.

(** [buildHierarchyForInlineGeneration]. *)
Definition buildHierarchyForInlineGeneration (ms : list Mapping) (r : Realm)
  : Outcome Hierarchy * Realm :=
  buildFrom leafField ms [] r.

(** [buildJSONHierarchyEnhanced]: the same walk. *)
Definition buildJSONHierarchyEnhanced (ms : list Mapping) (r : Realm)
  : Outcome Hierarchy * Realm :=
  buildFrom leafField ms [] r.

(* ================================================================== *)
(** ** XML emitter *)
(* ================================================================== *)

(** [escapeXMLName]: [name.replace(/[^a-zA-Z0-9_.-]/g, '_')]. *)
Definition isNameChar (c : ascii) : bool :=
  isLetter c || isDigit c || Ascii.eqb c "_"%char || Ascii.eqb c "."%char ||
  Ascii.eqb c "-"%char.

Definition escapeXMLName (name : string) : string :=
  mapChars (fun c => if isNameChar c then c else "_"%char) name.

(** [generateXMLValueSelectInline]: a plain [xsl:value-of] on the full
    path, whatever the field type. *)
Definition generateXMLValueSelectInline (m : Mapping) (p : Parsed) (indent : string) : string :=
  let selectPath := orElse (parsed_xpath p) (sourcePath m) in
  indent ++ "<xsl:value-of select=" ++ q selectPath ++ "/>" ++ nl.

(** [generateXMLFieldInline]. *)
Definition generateXMLFieldInline (f : Field) (indent : string) : string :=
  let m := f_mapping f in
  let p := parsed f in
  let leaf := escapeXMLName (leafName f) in
  let hasForEach := truthy (forEachPath m) in
  let hasMultipleOccurs := (1 <? occurs m)%Z in
  let elementConfig := {| el_name := leaf; el_attributes := attributes m |} in
  if hasForEach || hasMultipleOccurs then
    let forEach := orElse (forEachPath m) (orElse (parsed_xpath p) (sourcePath m)) in
    indent ++ "<xsl:for-each select=" ++ q forEach ++ ">" ++ nl
    ++ generateElementWithAttributes elementConfig (indent ++ "  ")
    ++ (if valueType m =? "hardcoded" then
          indent ++ "    " ++ hardcodedValue m ++ nl
        else if valueType m =? "empty" then EmptyString
        else generateXMLValueSelectInline m p (indent ++ "    "))
    ++ indent ++ "  </" ++ leaf ++ ">" ++ nl
    ++ indent ++ "</xsl:for-each>" ++ nl
  else
    generateElementWithAttributes elementConfig indent
    ++ (if valueType m =? "hardcoded" then
          indent ++ "  " ++ hardcodedValue m ++ nl
        else if valueType m =? "empty" then EmptyString
        else match p with
             | PAttribute _ attributeName _ =>
                 indent ++ "  <xsl:value-of select=" ++ q ("@" ++ attributeName) ++ "/>" ++ nl
             | PElement _ _ _ =>
                 generateXMLValueSelectInline m p (indent ++ "  ")
             end)
    ++ indent ++ "</" ++ leaf ++ ">" ++ nl.

(** [mappings.find(m => (m.targetPath || m.targetName).split('/').includes(key))]. *)
Definition findComponentMapping (key : string) (ms : list Mapping) : option Mapping :=
  find (fun m => existsb (String.eqb key) (split "/"%char (effectivePath m))) ms.

(** One component of [generateInlineXMLStructure], given the text [inner]
    that the recursive call produces at the indentation it is handed. *)
Definition generateXMLComponent (key : string) (ms : list Mapping) (indent : string)
    (inner : string -> string) : string :=
  let escapedKey := escapeXMLName key in
  let componentMapping := findComponentMapping key ms in
  match componentMapping with
  | Some cm =>
      if truthy (forEachPath cm) || (1 <? occurs cm)%Z then
        let p := parseSourcePath (sourcePath cm) in
        let forEach := orElse (forEachPath cm) (orElse (parsed_xpath p) (sourcePath cm)) in
        indent ++ "<xsl:for-each select=" ++ q forEach ++ ">" ++ nl
        ++ generateElementWithAttributes
             {| el_name := escapedKey; el_attributes := attributes cm |} (indent ++ "  ")
        ++ inner (indent ++ "    ")
        ++ indent ++ "  </" ++ escapedKey ++ ">" ++ nl
        ++ indent ++ "</xsl:for-each>" ++ nl
      else
        generateElementWithAttributes
          {| el_name := escapedKey; el_attributes := attributes cm |} indent
        ++ inner (indent ++ "  ")
        ++ indent ++ "</" ++ escapedKey ++ ">" ++ nl
  | None =>
      generateElementWithAttributes {| el_name := escapedKey; el_attributes := [] |} indent
      ++ inner (indent ++ "  ")
      ++ indent ++ "</" ++ escapedKey ++ ">" ++ nl
  end.

Definition concatMap {A : Type} (f : A -> string) (l : list A) : string :=
  fold_right (fun a acc => f a ++ acc) EmptyString l.

(** [generateInlineXMLStructure]: the walk over [Object.entries(hierarchy)]. *)
Fixpoint generateXMLEntry (ms : list Mapping) (e : Entry) (indent : string) : string :=
  match e with
  | EFields fs => concatMap (fun f => generateXMLFieldInline f indent) fs
  | EMeta _ _ => EmptyString
  | EChild key node =>
      generateXMLComponent key ms indent
        (fun indent' =>
           (fix walk (es : list Entry) : string :=
              match es with
              | [] => EmptyString
              | e' :: rest => generateXMLEntry ms e' indent' ++ walk rest
              end) node)
  end.

Definition generateInlineXMLStructure (h : Hierarchy) (ms : list Mapping) (indent : string) : string :=
  concatMap (fun e => generateXMLEntry ms e indent) h.

(** The [xmlns:] declarations and the [exclude-result-prefixes] list. *)
Definition prefixedNamespaces (ns : Namespaces) : Namespaces :=
  filter (fun kv => negb (fst kv =? "default")) ns.

Definition nsDeclarations (sep : string) (ns : Namespaces) : string :=
  join sep (map (fun kv => "xmlns:" ++ fst kv ++ "=" ++ q (snd kv)) (prefixedNamespaces ns)).

Definition excludeResultPrefixes (ns : Namespaces) : string :=
  let nsPrefixes := join " " (map fst (prefixedNamespaces ns)) in
  if truthy nsPrefixes then "exclude-result-prefixes=" ++ q nsPrefixes else EmptyString.

Definition defaultNS (ns : Namespaces) : string :=
  if truthy (nsLookup "default" ns) then "xmlns=" ++ q (nsLookup "default" ns) else EmptyString.

Definition renderVariable (v : XsltVariable) : string :=
  if truthy (var_xpath v) then
    "  <xsl:variable name=" ++ q (var_name v) ++ " select=" ++ q (var_xpath v) ++ "/>" ++ nl
  else if truthy (var_value v) then
    "  <xsl:variable name=" ++ q (var_name v) ++ " select=" ++ q ("'" ++ var_value v ++ "'") ++ "/>" ++ nl
  else EmptyString.

Definition renderVariables (vs : option (list XsltVariable)) : string :=
  match vs with
  | Some l => nl ++ "  <!-- Define top-level variables for constants -->" ++ nl
              ++ concatMap renderVariable l
  | None => EmptyString
  end.

Definition defaultRootElement : Element := {| el_name := "root"; el_attributes := [] |}.

Definition xmlHeader (version : string) (ns : Namespaces) : string :=
  "<?xml version=" ++ q "1.0" ++ " encoding=" ++ q "UTF-8" ++ "?>" ++ nl
  ++ "<xsl:stylesheet version=" ++ q version ++ " " ++ nl
  ++ "  xmlns:xsl=" ++ q "http://www.w3.org/1999/XSL/Transform" ++ nl
  ++ "  " ++ nsDeclarations " " ns ++ nl
  ++ "  " ++ defaultNS ns ++ nl
  ++ "  " ++ excludeResultPrefixes ns ++ ">" ++ nl
  ++ nl
  ++ "  <xsl:output method=" ++ q "xml" ++ " encoding=" ++ q "UTF-8" ++ " indent=" ++ q "yes" ++ "/>" ++ nl.

(** The stylesheet text around the hierarchy walk. *)
Definition xmlStylesheet (mappings : MappingSet) (ns : Namespaces) (body : string) : string :=
  let root := match rootElement mappings with Some e => e | None => defaultRootElement end in
  xmlHeader (orElse (xsltVersion mappings) "1.0") ns
  ++ renderVariables (variables mappings)
  ++ nl ++ "  <xsl:template match=" ++ q "/" ++ ">" ++ nl
  ++ generateElementWithAttributes root "    "
  ++ body
  ++ "    </" ++ el_name root ++ ">" ++ nl
  ++ "  </xsl:template>" ++ nl
  ++ nl ++ "</xsl:stylesheet>".

Definition notPlaceholder (m : Mapping) : bool := negb (isPlaceholder m).

(** [generateXMLTransform]. *)
Definition generateXMLTransform (mappings : MappingSet) (ns : Namespaces) (r : Realm)
  : Outcome string * Realm :=
  let normalizedMappings := ensureCompleteHierarchy (normalizeAllMappings (fields mappings)) in
  let actualFields := filter notPlaceholder normalizedMappings in
  match buildHierarchyForInlineGeneration actualFields r with
  | (Returned hierarchy, r') =>
      (Returned (xmlStylesheet mappings ns
                   (generateInlineXMLStructure hierarchy actualFields "      ")), r')
  | (Thrown e, r') => (Thrown e, r')
  | (Unmodelled, r') => (Unmodelled, r')
  end.

(* ================================================================== *)
(** ** The legacy value formatter *)
(* ================================================================== *)

(** [generateValueSelect], kept in the source for backward compatibility;
    no emitter calls it.  It is the one place where the type switch of
    the XML side lives. *)
Definition generateValueSelect (m : Mapping) (p : Parsed) : string :=
  let selectPath :=
    match p with
    | PElement _ elementName xpath => orElse elementName xpath
    | PAttribute _ _ xpath => xpath
    end in
  let i8 := "        " in
  let chooseOpen :=
    nl ++ i8 ++ "<xsl:choose>" ++ nl
    ++ i8 ++ "  <xsl:when test=" ++ q selectPath ++ ">" ++ nl
    ++ i8 ++ "    <xsl:value-of select=" ++ q selectPath ++ "/>" ++ nl
    ++ i8 ++ "  </xsl:when>" ++ nl
    ++ i8 ++ "  <xsl:otherwise>" ++ nl in
  let chooseClose :=
    i8 ++ "  </xsl:otherwise>" ++ nl
    ++ i8 ++ "</xsl:choose>" in
  if (fieldType m =? "date") || (fieldType m =? "dateTime") then
    chooseOpen
    ++ i8 ++ "    <!-- Using current date-time as fallback -->" ++ nl
    ++ i8 ++ "    <xsl:value-of select=" ++ q "substring(string(current-dateTime()), 1, 19)"
    ++ "/>" ++ nl
    ++ chooseClose
  else if fieldType m =? "currency" then
    nl ++ i8 ++ "<xsl:attribute name=" ++ q "currencyID" ++ ">USD</xsl:attribute>" ++ nl
    ++ i8 ++ "<xsl:value-of select=" ++ q ("format-number(" ++ selectPath ++ ", '0.00')") ++ "/>"
  else if (fieldType m =? "decimal") || (fieldType m =? "numeric") then
    nl ++ i8 ++ "<xsl:value-of select=" ++ q ("format-number(" ++ selectPath ++ ", '0.00')") ++ "/>"
  else if fieldType m =? "time" then
    nl ++ i8 ++ "<xsl:value-of select=" ++ q selectPath ++ "/>"
  else
    chooseOpen
    ++ i8 ++ "    <!-- Field " ++ targetName m ++ " is missing or has invalid XPath -->" ++ nl
    ++ chooseClose.

(* ================================================================== *)
(** ** JSON emitter *)
(* ================================================================== *)

(** [validateAndFixXPath]. *)
Definition validateAndFixXPath (sp : string) (p : Parsed) : string :=
  if negb (truthy sp) then EmptyString
  else if includes ":" sp && negb (startsWith "//" sp) then sp
  else
    let xpath := normalizeXPath (orElse (parsed_xpath p) sp) in
    match p with
    | PAttribute parentPath attributeName _ =>
        if negb (includes "/@" xpath) && negb (includes "@" xpath)
        then if truthy parentPath && truthy attributeName
             then parentPath ++ "/@" ++ attributeName
             else xpath
        else xpath
    | PElement _ _ _ => xpath
    end.

(** [generateJSONValueSelectEnhanced]. *)
Definition generateJSONValueSelectEnhanced (m : Mapping) (p : Parsed) (xpath indent : string) : string :=
  indent ++ "<xsl:value-of select=" ++ q xpath ++ "/>" ++ nl.

Definition mapEntryOpen (indent key : string) : string :=
  indent ++ "<xsl:map-entry key=" ++ q ("'" ++ key ++ "'") ++ ">" ++ nl.

(** One leaf of a [_fields] array in [generateJSONMapEntriesEnhanced]. *)
Definition generateJSONField (f : Field) (indent : string) : string :=
  let m := f_mapping f in
  let p := parsed f in
  let leaf := escapeXMLName (leafName f) in
  if isPlaceholder m then
    indent ++ "<!-- " ++ leaf ++ " - Placeholder component -->" ++ nl
  else
    (if notRequired m then indent ++ "<!-- " ++ leaf ++ " - Optional field -->" ++ nl
     else EmptyString)
    ++
    let xpath := validateAndFixXPath (sourcePath m) p in
    if (1 <? occurs m)%Z then
      indent ++ "<!-- " ++ leaf ++ " - Multiple occurrences (Occurs: "
             ++ numToString (occurs m) ++ ") -->" ++ nl
      ++ mapEntryOpen indent leaf
      ++ indent ++ "  <xsl:array>" ++ nl
      ++ indent ++ "    <xsl:for-each select=" ++ q xpath ++ ">" ++ nl
      ++ generateJSONValueSelectEnhanced m p xpath (indent ++ "      ")
      ++ indent ++ "    </xsl:for-each>" ++ nl
      ++ indent ++ "  </xsl:array>" ++ nl
      ++ indent ++ "</xsl:map-entry>" ++ nl
    else
      mapEntryOpen indent leaf
      ++ (if parsed_isAttribute p
          then indent ++ "  <xsl:value-of select=" ++ q xpath ++ "/>" ++ nl
          else generateJSONValueSelectEnhanced m p xpath (indent ++ "  "))
      ++ indent ++ "</xsl:map-entry>" ++ nl.

(** [mappings.find(m => (m.targetPath || m.targetName).split('/').pop() === key
    && m.occurs > 1)]. *)
Definition findRepeatedComponent (key : string) (ms : list Mapping) : option Mapping :=
  find (fun m => (last (split "/"%char (effectivePath m)) EmptyString =? key)
                 && (1 <? occurs m)%Z) ms.

(** One nested object of [generateJSONMapEntriesEnhanced]. *)
Definition generateJSONComponent (key : string) (ms : list Mapping) (indent : string)
    (inner : string -> string) : string :=
  let escapedKey := escapeXMLName key in
  match findRepeatedComponent key ms with
  | Some cm =>
      let p := parseSourcePath (sourcePath cm) in
      let xpath := validateAndFixXPath (sourcePath cm) p in
      indent ++ "<!-- " ++ escapedKey ++ " - Multiple occurrences (Occurs: "
             ++ numToString (occurs cm) ++ ") -->" ++ nl
      ++ mapEntryOpen indent escapedKey
      ++ indent ++ "  <xsl:array>" ++ nl
      ++ indent ++ "    <xsl:for-each select=" ++ q xpath ++ ">" ++ nl
      ++ indent ++ "      <xsl:map>" ++ nl
      ++ inner (indent ++ "        ")
      ++ indent ++ "      </xsl:map>" ++ nl
      ++ indent ++ "    </xsl:for-each>" ++ nl
      ++ indent ++ "  </xsl:array>" ++ nl
      ++ indent ++ "</xsl:map-entry>" ++ nl
  | None =>
      mapEntryOpen indent escapedKey
      ++ indent ++ "  <xsl:map>" ++ nl
      ++ inner (indent ++ "    ")
      ++ indent ++ "  </xsl:map>" ++ nl
      ++ indent ++ "</xsl:map-entry>" ++ nl
  end.

Fixpoint generateJSONEntry (ms : list Mapping) (e : Entry) (indent : string) : string :=
  match e with
  | EFields fs => concatMap (fun f => generateJSONField f indent) fs
  | EMeta _ _ => EmptyString
  | EChild key node =>
      generateJSONComponent key ms indent
        (fun indent' =>
           (fix walk (es : list Entry) : string :=
              match es with
              | [] => EmptyString
              | e' :: rest => generateJSONEntry ms e' indent' ++ walk rest
              end) node)
  end.

(** [generateJSONMapEntriesEnhanced] (its [rootPath] argument is unused). *)
Definition generateJSONMapEntriesEnhanced (h : Hierarchy) (ms : list Mapping)
    (rootPath' indent : string) : string :=
  concatMap (fun e => generateJSONEntry ms e indent) h.

Definition jsonHeader (ns : Namespaces) : string :=
  let decls := nsDeclarations (nl ++ "    ") ns in
  let excl := excludeResultPrefixes ns in
  let xpathDefaultNS :=
    if truthy (nsLookup "default" ns)
    then "xpath-default-namespace=" ++ q (nsLookup "default" ns) else EmptyString in
  "<?xml version=" ++ q "1.0" ++ " encoding=" ++ q "UTF-8" ++ "?>" ++ nl
  ++ "<xsl:stylesheet version=" ++ q "3.0" ++ nl
  ++ "    xmlns:xsl=" ++ q "http://www.w3.org/1999/XSL/Transform"
  ++ (if truthy decls then nl ++ "    " ++ decls else EmptyString)
  ++ (if truthy excl then nl ++ "    " ++ excl else EmptyString)
  ++ (if truthy xpathDefaultNS then nl ++ "    " ++ xpathDefaultNS else EmptyString)
  ++ ">" ++ nl
  ++ " " ++ nl
  ++ "    <xsl:output method=" ++ q "json" ++ " indent=" ++ q "yes" ++ "/>" ++ nl
  ++ " " ++ nl
  ++ "    <xsl:template match=" ++ q "/" ++ ">" ++ nl
  ++ "<xsl:map>" ++ nl.

Definition jsonStylesheet (mappings : MappingSet) (ns : Namespaces) (entries : string) : string :=
  jsonHeader ns
  ++ "<xsl:for-each select=" ++ q (orElse (rootPath mappings) "/*[1]") ++ ">" ++ nl
  ++ entries
  ++ "</xsl:for-each>" ++ nl
  ++ "</xsl:map>" ++ nl
  ++ "</xsl:template>" ++ nl
  ++ " " ++ nl
  ++ "</xsl:stylesheet>".

(** [generateJSONTransform]. *)
Definition generateJSONTransform (mappings : MappingSet) (ns : Namespaces) (r : Realm)
  : Outcome string * Realm :=
  let normalizedMappings := ensureCompleteHierarchy (normalizeAllMappings (fields mappings)) in
  match buildJSONHierarchyEnhanced normalizedMappings r with
  | (Returned jsonHierarchy, r') =>
      (Returned (jsonStylesheet mappings ns
                   (generateJSONMapEntriesEnhanced jsonHierarchy normalizedMappings
                      (orElse (rootPath mappings) "/*[1]") EmptyString)), r')
  | (Thrown e, r') => (Thrown e, r')
  | (Unmodelled, r') => (Unmodelled, r')
  end.

(* ================================================================== *)
(** ** Flat emitter *)
(* ================================================================== *)

(** The [occurrenceIndex] suffix of a comment: nothing for [null]. *)
Definition occurrenceSuffix (occurrenceIndex : option nat) : string :=
  match occurrenceIndex with
  | Some i => "_" ++ natToString i
  | None => EmptyString
  end.

Definition flatSelectPath (p : Parsed) (occurrenceIndex : option nat) : string :=
  match occurrenceIndex, p with
  | Some i, PAttribute parentPath attributeName _ =>
      parentPath ++ "[" ++ natToString i ++ "]/@" ++ attributeName
  | Some i, PElement _ elementName _ => elementName ++ "[" ++ natToString i ++ "]"
  | None, PAttribute _ attributeName _ => "@" ++ attributeName
  | None, PElement _ elementName _ => orElse elementName "."
  end.

(** The [xsl:choose] block shared by the branches of the type switch. *)
Definition flatChoose (indent selectPath whenValue otherwise : string) : string :=
  indent ++ "<xsl:choose>" ++ nl
  ++ indent ++ "  <xsl:when test=" ++ q selectPath ++ ">" ++ nl
  ++ indent ++ "    <xsl:value-of select=" ++ q whenValue ++ "/>" ++ nl
  ++ indent ++ "  </xsl:when>" ++ nl
  ++ indent ++ "  <xsl:otherwise>" ++ nl
  ++ indent ++ "    " ++ otherwise ++ nl
  ++ indent ++ "  </xsl:otherwise>" ++ nl
  ++ indent ++ "</xsl:choose>" ++ nl.

Definition flatComment (indent : string) (m : Mapping) (occurrenceIndex : option nat)
    (what : string) : string :=
  indent ++ "<!-- " ++ targetName m ++ occurrenceSuffix occurrenceIndex ++ " - " ++ what
  ++ " -->" ++ nl.

(** The type-dispatched part of [generateFlatFileValueExtraction]. *)
Definition flatValueBlock (m : Mapping) (p : Parsed) (occurrenceIndex : option nat) : string :=
  let indent := "    " in
  let selectPath := flatSelectPath p occurrenceIndex in
  let formatted := "format-number(" ++ selectPath ++ ", '0.00')" in
  if (fieldType m =? "date") || (fieldType m =? "dateTime") then
    flatComment indent m occurrenceIndex "Date/DateTime field"
    ++ flatChoose indent selectPath selectPath
         ("<xsl:value-of select=" ++ q "substring(string(current-dateTime()), 1, 19)" ++ "/>")
  else if fieldType m =? "currency" then
    flatComment indent m occurrenceIndex "Currency field"
    ++ flatChoose indent selectPath formatted "<xsl:text>0.00</xsl:text>"
  else if (fieldType m =? "decimal") || (fieldType m =? "numeric") then
    flatComment indent m occurrenceIndex "Numeric field"
    ++ flatChoose indent selectPath formatted "<xsl:text>0</xsl:text>"
  else if fieldType m =? "time" then
    flatComment indent m occurrenceIndex "Time field"
    ++ flatChoose indent selectPath selectPath "<xsl:text></xsl:text>"
  else
    (if notRequired m then flatComment indent m occurrenceIndex "Optional field"
     else EmptyString)
    ++ flatChoose indent selectPath selectPath "<xsl:text></xsl:text>".

(** [generateFlatFileValueExtraction]: the value block and its separator. *)
Definition generateFlatFileValueExtraction (m : Mapping) (p : Parsed) (separator : string)
    (occurrenceIndex : option nat) : string :=
  flatValueBlock m p occurrenceIndex
  ++ "    " ++ "<xsl:text>" ++ separator ++ "</xsl:text>".

(** The occurrence numbers [1 .. occurs] of the two [for] loops. *)
Definition occurrences (m : Mapping) : list nat := seq 1 (Z.to_nat (occurs m)).

(** The header columns of one field. *)
Definition headerColumns (m : Mapping) : list string :=
  let flatName := replaceChar "/" "." (effectivePath m) in
  if (1 <? occurs m)%Z
  then map (fun i => flatName ++ "_" ++ natToString i) (occurrences m)
  else [flatName].

Definition headerParts (actualFields : list Mapping) : list string :=
  flat_map headerColumns actualFields.

(** The value extractions of one field; [isLast] tells whether it is the
    last of [actualFields]. *)
Definition fieldExtractions (delimiter : string) (m : Mapping) (isLast : bool) : list string :=
  let p := parseSourcePath (sourcePath m) in
  if (1 <? occurs m)%Z then
    map (fun i =>
           let isLastOccurrence := (Z.of_nat i =? occurs m)%Z && isLast in
           generateFlatFileValueExtraction m p
             (if isLastOccurrence then "&#10;" else delimiter) (Some i))
        (occurrences m)
  else
    [generateFlatFileValueExtraction m p (if isLast then "&#10;" else delimiter) None].

Fixpoint valueExtractions (delimiter : string) (actualFields : list Mapping) : list string :=
  match actualFields with
  | [] => []
  | m :: rest =>
      fieldExtractions delimiter m (match rest with [] => true | _ => false end)
      ++ valueExtractions delimiter rest
  end.


(** The mappings the Flat emitter works on. *)
Definition flatFields (mappings : MappingSet) : list Mapping :=
  filter notPlaceholder (ensureCompleteHierarchy (normalizeAllMappings (fields mappings))).

(** [generateFlatFileTransform]. *)
Definition generateFlatFileTransform (mappings : MappingSet) (delimiter : string)
    (ns : Namespaces) : string :=
  let actualFields := flatFields mappings in
  let headers := join delimiter (headerParts actualFields) in
  "<?xml version=" ++ q "1.0" ++ " encoding=" ++ q "UTF-8" ++ "?>" ++ nl
  ++ "  <xsl:stylesheet version=" ++ q "1.0" ++ " " ++ nl
  ++ "    xmlns:xsl=" ++ q "http://www.w3.org/1999/XSL/Transform" ++ nl
  ++ "    " ++ nsDeclarations " " ns ++ nl
  ++ "    " ++ defaultNS ns ++ nl
  ++ "    " ++ excludeResultPrefixes ns ++ ">" ++ nl
  ++ "    " ++ nl
  ++ "    <xsl:output method=" ++ q "text" ++ " encoding=" ++ q "UTF-8" ++ "/>" ++ nl
  ++ "    " ++ nl
  ++ "    <!-- Root template -->" ++ nl
  ++ "    <xsl:template match=" ++ q "/" ++ ">" ++ nl
  ++ "      <!-- Header row -->" ++ nl
  ++ "      <xsl:text>" ++ headers ++ "&#10;</xsl:text>" ++ nl
  ++ "      " ++ nl
  ++ "      <!-- Data rows -->" ++ nl
  ++ "      <xsl:apply-templates select="
       ++ q (normalizeXPath (orElse (rootPath mappings) "/*")) ++ "/>" ++ nl
  ++ "    </xsl:template>" ++ nl
  ++ "    " ++ nl
  ++ "    <!-- Data template -->" ++ nl
  ++ "    <xsl:template match=" ++ q (orElse (recordPath mappings) "*") ++ ">" ++ nl
  ++ "  "
  ++ join nl (valueExtractions delimiter actualFields)
  ++ nl
  ++ "    </xsl:template>" ++ nl
  ++ "    " ++ nl
  ++ "  </xsl:stylesheet>".

(* ================================================================== *)
(** ** Compiler facade *)
(* ================================================================== *)

(** The [options] argument: [None] and the empty string stand for absent
    properties. *)
Record Options : Type := mkOptions {
  opt_namespaces : option Namespaces;
  opt_delimiter : string
}.

Definition noOptions : Options := {| opt_namespaces := None; opt_delimiter := EmptyString |}.

(** [generateXSLT]. *)
Definition generateXSLT (format : string) (mappings : MappingSet) (options : Options)
    (r : Realm) : Outcome string * Realm :=
  let namespaces := match opt_namespaces options with Some ns => ns | None => [] end in
  let delimiter := orElse (opt_delimiter options) "," in
  let f := toLowerCase format in
  if f =? "xml" then generateXMLTransform mappings namespaces r
  else if f =? "json" then generateJSONTransform mappings namespaces r
  else if (f =? "flat") || (f =? "csv") then
    (Returned (generateFlatFileTransform mappings delimiter namespaces), r)
  else (Thrown ("Unsupported output format: " ++ format), r).

(* ================================================================== *)
(** ** Notions used in the statements *)
(* ================================================================== *)

(** [p] is one of the non-empty prefixes of the slash-separated [path]. *)
Definition isPathPrefix (p path : string) : Prop :=
  exists k, (1 <= k <= List.length (split "/"%char path))%nat /\
            p = join "/" (firstn k (split "/"%char path)).

(** The extraction block of occurrence [i] of a currency field, as the
    specification describes it: the comment, the [xsl:choose] around
    [format-number(..., '0.00')] and the separator text node. *)
Definition currencyOccurrence (m : Mapping) (i : nat) (separator : string) : string :=
  let selectPath := flatSelectPath (parseSourcePath (sourcePath m)) (Some i) in
  "    <!-- " ++ targetName m ++ "_" ++ natToString i ++ " - Currency field -->" ++ nl
  ++ "    <xsl:choose>" ++ nl
  ++ "      <xsl:when test=" ++ q selectPath ++ ">" ++ nl
  ++ "        <xsl:value-of select=" ++ q ("format-number(" ++ selectPath ++ ", '0.00')") ++ "/>" ++ nl
  ++ "      </xsl:when>" ++ nl
  ++ "      <xsl:otherwise>" ++ nl
  ++ "        <xsl:text>0.00</xsl:text>" ++ nl
  ++ "      </xsl:otherwise>" ++ nl
  ++ "    </xsl:choose>" ++ nl
  ++ "    <xsl:text>" ++ separator ++ "</xsl:text>".

(** Target paths every non-terminal segment of which names an ordinary
    component: neither a reserved key nor [__proto__]. *)
Definition plainSegment (seg : string) : bool :=
  negb (isReserved seg) && negb (seg =? "__proto__").

Definition plainTarget (m : Mapping) : bool :=
  forallb plainSegment (removeLast (split "/"%char (effectivePath m))).

Definition plainTargets (ms : list Mapping) : bool := forallb plainTarget ms.

(** The text of a returned stylesheet, empty when there is none. *)
Definition textOf (o : Outcome string * Realm) : string :=
  match fst o with
  | Returned s => s
  | _ => EmptyString
  end.

Definition returns (o : Outcome string * Realm) : bool :=
  match fst o with
  | Returned _ => true
  | _ => false
  end.

(* ================================================================== *)
(** ** The XPath normalizer in the words of the specification *)
(* ================================================================== *)

(** (a) A leading [<filename>.xml/] segment: the first slash-separated
    segment ends in [.xml], in any case, and another segment follows. *)
Definition endsWithXml (segment : string) : bool :=
  (4 <=? String.length segment)%nat &&
  (toLowerCase (dropChars (String.length segment - 4) segment) =? ".xml").

Definition stripLeadingFile (s : string) : string :=
  match split "/"%char s with
  | file :: next :: more => if endsWithXml file then join "/" (next :: more) else s
  | _ => s
  end.

(** (b) A dot is a hierarchy separator unless it stands inside a
    bracketed predicate; [depth] counts the brackets open so far. *)
Fixpoint dotsAtDepth (depth : nat) (s : string) : string :=
  match s with
  | EmptyString => EmptyString
  | String c r =>
      if Ascii.eqb c "["%char then String c (dotsAtDepth (S depth) r)
      else if Ascii.eqb c "]"%char then String c (dotsAtDepth (pred depth) r)
      else if Ascii.eqb c "."%char && (depth =? 0)%nat then String "/"%char (dotsAtDepth depth r)
      else String c (dotsAtDepth depth r)
  end.

Definition dotsOutsidePredicates (s : string) : string := dotsAtDepth 0 s.

(** The three steps of the specification, in order, on a raw path. *)
Definition normalizeXPath_spec (xpath : string) : string :=
  if xpath =? EmptyString then EmptyString
  else addDescendantPrefix (dotsOutsidePredicates (stripLeadingFile xpath)).

(** Predicates that are closed and not nested: brackets alternate,
    starting with an opening one and ending closed. *)
Fixpoint bracketsFlat (inside : bool) (s : string) : bool :=
  match s with
  | EmptyString => negb inside
  | String c r =>
      if Ascii.eqb c "["%char then negb inside && bracketsFlat true r
      else if Ascii.eqb c "]"%char then inside && bracketsFlat false r
      else bracketsFlat inside r
  end.

Definition simplePredicates (s : string) : bool := bracketsFlat false s.

(** Auxiliary notions for the proofs about the normalizer. *)
Fixpoint afterSlash (s : string) : option string :=
  match s with
  | EmptyString => None
  | String c r => if Ascii.eqb c "/"%char then Some r else afterSlash r
  end.

Fixpoint allChars (p : ascii -> bool) (s : string) : bool :=
  match s with
  | EmptyString => true
  | String c r => p c && allChars p r
  end.

Definition isDotXml (g : string) : bool :=
  match g with
  | String d (String x (String m (String l EmptyString))) =>
      Ascii.eqb d "."%char &&
      Ascii.eqb (lowerChar x) "x"%char &&
      Ascii.eqb (lowerChar m) "m"%char &&
      Ascii.eqb (lowerChar l) "l"%char
  | _ => false
  end.

(* ================================================================== *)
(** ** The shape of what the hierarchy walks emit *)
(* ================================================================== *)







(** Structural induction on entries, through the lists of children. *)
Fixpoint Entry_induction (P : Entry -> Prop)
    (Hfields : forall fs, P (EFields fs))
    (Hmeta : forall level name, P (EMeta level name))
    (Hchild : forall key node, Forall P node -> P (EChild key node))
    (e : Entry) {struct e} : P e :=
  match e with
  | EFields fs => Hfields fs
  | EMeta level name => Hmeta level name
  | EChild key node =>
      Hchild key node
        ((fix all (es : list Entry) : Forall P es :=
            match es with
            | [] => Forall_nil P
            | e' :: rest =>
                Forall_cons e' (Entry_induction P Hfields Hmeta Hchild e') (all rest)
            end) node)
  end.

(* ================================================================== *)
(** ** Sample inputs *)
(* ================================================================== *)

(** A mapping as the mapping editor creates it: an element source, type
    and repetition count to be chosen, required, no attributes. *)
Definition uiMapping (source target type : string) (count : Z) : Mapping := {|
  sourcePath := source;
  sourceType := "element";
  targetName := target;
  targetPath := target;
  fieldType := type;
  occurs := count;
  required := Some true;
  attributes := [];
  valueType := EmptyString;
  hardcodedValue := EmptyString;
  forEachPath := EmptyString;
  isAttribute := false;
  isPlaceholder := false
|}.

Definition mappingSetOf (fs : list Mapping) : MappingSet := {|
  fields := fs;
  rootPath := EmptyString;
  recordPath := EmptyString;
  rootElement := None;
  variables := None;
  xsltVersion := EmptyString
|}.

(** Scenario E of the specification: targets [a/b] and [a/c], none for [a]. *)
Definition scenarioE : list Mapping :=
  [ uiMapping "//src/b" "a/b" "string" 1; uiMapping "//src/c" "a/c" "string" 1 ].

(** Scenario B: one currency field that occurs three times. *)
Definition scenarioB : MappingSet :=
  mappingSetOf [ uiMapping "Order/Amount" "Name" "currency" 3 ].

(** Scenario C: a literal variable and an attribute that refers to it. *)
Definition langAttribute : AttributeSpec := {|
  attr_name := "lang"; attr_value := "Lang";
  attr_isHardcoded := false; attr_isVariable := true; attr_xpath := EmptyString
|}.

Definition scenarioC : MappingSet := {|
  fields := [ uiMapping "Doc/Title" "Title" "string" 1 ];
  rootPath := EmptyString;
  recordPath := EmptyString;
  rootElement := Some {| el_name := "Document"; el_attributes := [langAttribute] |};
  variables := Some [ {| var_name := "Lang"; var_value := "en-US"; var_xpath := EmptyString |} ];
  xsltVersion := EmptyString
|}.

(** A currency field whose value comes from an xpath. *)
Definition currencyField : Mapping := {|
  sourcePath := "Order/Total";
  sourceType := "element";
  targetName := "Total";
  targetPath := "Total";
  fieldType := "currency";
  occurs := 1;
  required := Some true;
  attributes := [];
  valueType := "xpath";
  hardcodedValue := EmptyString;
  forEachPath := EmptyString;
  isAttribute := false;
  isPlaceholder := false
|}.

(** A mapping that has a target name and no source path, followed by a
    complete one. *)
Definition withIncomplete : MappingSet :=
  mappingSetOf [ uiMapping EmptyString "ghost" "string" 1;
                 uiMapping "Order/Id" "id" "string" 1 ].

(** A mapping without a source path that names a loop for the component
    [a], and a complete mapping below [a]. *)
Definition loopWithoutSource : Mapping := {|
  sourcePath := EmptyString;
  sourceType := "element";
  targetName := "a";
  targetPath := "a";
  fieldType := "string";
  occurs := 1;
  required := Some true;
  attributes := [];
  valueType := EmptyString;
  hardcodedValue := EmptyString;
  forEachPath := "//loop";
  isAttribute := false;
  isPlaceholder := false
|}.

Definition incompleteAbove : MappingSet :=
  mappingSetOf [ loopWithoutSource; uiMapping "Order/Id" "a/b" "string" 1 ].

(** A mapping without a source path whose target lies deeper than the
    complete mapping next to it. *)
Definition incompleteBelow : MappingSet :=
  mappingSetOf [ uiMapping EmptyString "a/b/c" "string" 1;
                 uiMapping "Order/Id" "a/x" "string" 1 ].

(** A target path that goes through [__proto__], after an ordinary one. *)
Definition throughProto : MappingSet :=
  mappingSetOf [ uiMapping "Order/Id" "id" "string" 1;
                 uiMapping "Order/Note" "__proto__/note" "string" 1 ].

(** A SOAP-style configuration: a root element and target segments whose
    names hold characters outside the ones [escapeXMLName] keeps. *)
Definition soapEnvelope : MappingSet := {|
  fields := [ uiMapping "//Order/Id" "soap:Body/order id" "string" 1 ];
  rootPath := EmptyString;
  recordPath := EmptyString;
  rootElement := Some {| el_name := "soap:Envelope";
                         el_attributes :=
                           [ {| attr_name := "xmlns:soap";
                                attr_value := "http://schemas.xmlsoap.org/soap/envelope/";
                                attr_isHardcoded := true;
                                attr_isVariable := false;
                                attr_xpath := EmptyString |} ] |};
  variables := Some [ {| var_name := "doc:id"; var_value := "42"; var_xpath := EmptyString |} ];
  xsltVersion := EmptyString
|}.


(** Scenario A: an attribute source below an [Employee] container. *)
Definition scenarioA : MappingSet :=
  mappingSetOf [ {| sourcePath := "Company/Employee/@id";
                    sourceType := "attribute";
                    targetName := "empId";
                    targetPath := "Employee/empId";
                    fieldType := "string";
                    occurs := 1;
                    required := Some true;
                    attributes := [];
                    valueType := EmptyString;
                    hardcodedValue := EmptyString;
                    forEachPath := EmptyString;
                    isAttribute := false;
                    isPlaceholder := false |} ].


(* ================================================================== *)
(** ** The XML document reader *)
(* ================================================================== *)

(** What [xmlParser.js] reads of a parsed document: element nodes with
    their name, their attributes (name and value, in document order) and
    their child nodes; text nodes with their data; and the other kinds of
    node (comments, CDATA sections, processing instructions), which the
    reader passes over. *)
#[warnings="-register-all"]
Inductive DomNode : Type :=
| DomElement (nodeName : string) (attrs : list (string * string)) (childNodes : list DomNode)
| DomText (data : string)
| DomOther.

(** A parsed document: its document element, which is an element node. *)
Record Document : Type := mkDocument {
  rootName : string;
  rootAttributes : list (string * string);
  rootChildNodes : list DomNode
}.

Definition documentElement (xmlDoc : Document) : DomNode :=
  DomElement (rootName xmlDoc) (rootAttributes xmlDoc) (rootChildNodes xmlDoc).

Fixpoint DomNode_induction (P : DomNode -> Prop)
    (Helement : forall nodeName attrs childNodes,
        Forall P childNodes -> P (DomElement nodeName attrs childNodes))
    (Htext : forall data, P (DomText data))
    (Hother : P DomOther)
    (node : DomNode) {struct node} : P node :=
  match node with
  | DomElement nodeName attrs childNodes =>
      Helement nodeName attrs childNodes
        ((fix all (cs : list DomNode) : Forall P cs :=
            match cs with
            | [] => Forall_nil P
            | c :: rest =>
                Forall_cons c (DomNode_induction P Helement Htext Hother c) (all rest)
            end) childNodes)
  | DomText data => Htext data
  | DomOther => Hother
  end.

Definition isElementNode (node : DomNode) : bool :=
  match node with
  | DomElement _ _ _ => true
  | _ => false
  end.

Definition isTextNode (node : DomNode) : bool :=
  match node with
  | DomText _ => true
  | _ => false
  end.

(** [child.textContent] of a text node. *)
Definition textData (node : DomNode) : string :=
  match node with
  | DomText data => data
  | _ => EmptyString
  end.

(** The text directly inside an element: the trimmed, non-empty data of
    its text nodes, joined by a blank. *)
Definition directText (childNodes : list DomNode) : string :=
  join " "
    (filter (fun text => (0 <? String.length text)%nat)
       (map (fun child => trim (textData child)) (filter isTextNode childNodes))).

(** An entry of [pathInfo.attributes]. *)
Record AttributeInfo : Type := mkAttributeInfo {
  ai_name : string;
  ai_value : string;
  ai_path : string
}.

(** An entry of the list [extractPaths] returns: the description of an
    element path or of an attribute path. *)
Inductive PathInfo : Type :=
| ElementPath (path name : string) (hasText hasChildren : bool)
    (attributeInfos : list AttributeInfo) (sampleValue : string)
| AttributePath (path name parentPath sampleValue : string).

Definition pi_path (info : PathInfo) : string :=
  match info with
  | ElementPath path _ _ _ _ _ => path
  | AttributePath path _ _ _ => path
  end.

Definition pi_type (info : PathInfo) : string :=
  match info with
  | ElementPath _ _ _ _ _ _ => "element"
  | AttributePath _ _ _ _ => "attribute"
  end.

Definition pi_name (info : PathInfo) : string :=
  match info with
  | ElementPath _ name _ _ _ _ => name
  | AttributePath _ name _ _ => name
  end.

(** The two accumulators of [extractPaths]: the set [paths] and the array
    [pathsWithInfo]. *)
Definition PathState : Type := (list string * list PathInfo)%type.

(** [if (!paths.has(p)) { paths.add(p); pathsWithInfo.push(info); }]. *)
Definition addPath (p : string) (info : PathInfo) (st : PathState) : PathState :=
  if setHas p (fst st) then st else (fst st ++ [p], snd st ++ [info])%list.

(** [`${currentPath}/${nodeName}`], or the node name at the top. *)
Definition childPath (currentPath nodeName : string) : string :=
  if truthy currentPath then currentPath ++ "/" ++ nodeName else nodeName.

(** [`${newPath}/@${attr.name}`]. *)
Definition attributePath (newPath name : string) : string := newPath ++ "/@" ++ name.

Definition attributeInfosOf (newPath : string) (attrs : list (string * string))
  : list AttributeInfo :=
  map (fun attr => {| ai_name := fst attr; ai_value := snd attr;
                      ai_path := attributePath newPath (fst attr) |}) attrs.

(** The inner function [traverse] of [extractPaths]. *)
Fixpoint traverse (node : DomNode) (currentPath : string) (st : PathState) : PathState :=
  match node with
  | DomElement nodeName attrs childNodes =>
      let newPath := childPath currentPath nodeName in
      let attributeInfos := attributeInfosOf newPath attrs in
      let textContent := directText childNodes in
      let pathInfo :=
        ElementPath newPath nodeName
          (truthy textContent)
          (existsb isElementNode childNodes)
          attributeInfos
          (if truthy textContent then substring 0 50 textContent else EmptyString) in
      let st := addPath newPath pathInfo st in
      let st :=
        fold_left
          (fun st attr =>
             addPath (ai_path attr)
               (AttributePath (ai_path attr) (ai_name attr) newPath
                  (substring 0 50 (ai_value attr))) st)
          attributeInfos st in
      (fix each (children : list DomNode) (st : PathState) : PathState :=
         match children with
         | [] => st
         | child :: rest =>
             each rest
               (match child with
                | DomElement _ _ _ => traverse child newPath st
                | _ => st
                end)
         end) childNodes st
  | _ => st
  end.

(** [extractPaths]. *)
Definition extractPaths (xmlDoc : Document) : list PathInfo :=
  snd (traverse (documentElement xmlDoc) EmptyString ([], [])).

(** A node of the tree [xmlToTree] builds for display. *)
#[warnings="-register-all"]
Inductive TreeNode : Type :=
| mkTreeNode (name : string) (attributeList : list (string * string))
    (children : list TreeNode) (textContent : string).

(** The inner function [buildNode] of [xmlToTree].  It is applied to
    element nodes only; there is no result for another node. *)
Fixpoint buildNode (element : DomNode) : option TreeNode :=
  match element with
  | DomElement nodeName attrs childNodes =>
      Some (mkTreeNode nodeName attrs
              ((fix each (children : list DomNode) : list TreeNode :=
                  match children with
                  | [] => []
                  | child :: rest =>
                      match child with
                      | DomElement _ _ _ =>
                          match buildNode child with
                          | Some node => node :: each rest
                          | None => each rest
                          end
                      | _ => each rest
                      end
                  end) childNodes)
              (directText childNodes))
  | _ => None
  end.

(** [xmlToTree]. *)
Definition xmlToTree (xmlDoc : Document) : option TreeNode :=
  buildNode (documentElement xmlDoc).

(** [object[key] = value] on a plain object that holds strings: an own
    property keeps its place and takes the new value; a new one is
    created, array-index keys first as for the hierarchy; and [__proto__]
    names the inherited accessor, whose setter ignores a string. *)
Fixpoint replaceValue (key value : string) (o : Namespaces) : Namespaces :=
  match o with
  | [] => []
  | (k, v) :: rest =>
      if k =? key then (k, value) :: rest else (k, v) :: replaceValue key value rest
  end.

Fixpoint insertIndexedKey (n : N) (key value : string) (o : Namespaces) : Namespaces :=
  match o with
  | [] => [(key, value)]
  | (k, v) :: rest =>
      match arrayIndex k with
      | Some n' => if (n <? n')%N then (key, value) :: o
                   else (k, v) :: insertIndexedKey n key value rest
      | None => (key, value) :: o
      end
  end.

Definition objectSet (key value : string) (o : Namespaces) : Namespaces :=
  if key =? "__proto__" then o
  else if existsb (fun kv => fst kv =? key) o then replaceValue key value o
  else match arrayIndex key with
       | Some n => insertIndexedKey n key value o
       | None => (o ++ [(key, value)])%list
       end.

(** [extractNamespaces]: the namespace declarations on the document
    element. *)
Definition extractNamespaces (xmlDoc : Document) : Namespaces :=
  fold_left
    (fun namespaces attr =>
       if startsWith "xmlns:" (fst attr)
       then objectSet (dropChars 6 (fst attr)) (snd attr) namespaces
       else if fst attr =? "xmlns" then objectSet "default" (snd attr) namespaces
       else namespaces)
    (rootAttributes xmlDoc) [].

(* ================================================================== *)
(** ** The mapping editor and the application *)
(* ================================================================== *)

(** [getHierarchyLevel] of the mapping editor: the indentation level of a
    row. *)
Definition getHierarchyLevel (targetPath : string) : nat :=
  if negb (truthy targetPath) then 0%nat
  else (List.length (split "/"%char targetPath) - 1)%nat.

(** The quick action of the mapping editor: a mapping for each of the
    first five extracted paths ([paths.slice(0, 5).map(...)]); the [id] and
    [expanded] properties it also sets are not read by the generator. *)
Definition autoMap (paths : list PathInfo) : list Mapping :=
  map (fun path => {|
         sourcePath := pi_path path;
         sourceType := pi_type path;
         targetName := pi_name path;
         targetPath := pi_name path;
         fieldType := "string";
         occurs := 1;
         required := Some true;
         attributes := [];
         valueType := EmptyString;
         hardcodedValue := EmptyString;
         forEachPath := EmptyString;
         isAttribute := false;
         isPlaceholder := false
       |}) (firstn 5 paths).

(** [handleGenerateXSLT] of the application, up to the call of the
    generator: either an error message is shown and nothing is generated,
    or [generateXSLT] is called with the namespaces of the document and
    the comma as delimiter.  (What follows the call, the check of the
    result by the browser's XML parser, is not part of this model.) *)
Inductive Generation : Type :=
| ErrorShown (message : string)
| Requested (out : Outcome string * Realm).

Definition handleGenerateXSLT (outputFormat : string) (mappings : MappingSet)
    (namespaces : Namespaces) (r : Realm) : Generation :=
  if (List.length (fields mappings) =? 0)%nat then
    ErrorShown "Please add at least one field mapping"
  else
    let incompleteMappings := filter incomplete (fields mappings) in
    if (0 <? List.length incompleteMappings)%nat then
      ErrorShown "Please complete all field mappings (source path and target name required)"
    else
      Requested (generateXSLT outputFormat mappings
                   {| opt_namespaces := Some namespaces; opt_delimiter := "," |} r).

(* ================================================================== *)
(** ** Helpers of the legacy generator *)
(* ================================================================== *)

(** [generateDateTimeCombination]. *)
Definition generateDateTimeCombination (dateField timeField : string) : string :=
  "concat(" ++ dateField ++ ", 'T', " ++ timeField ++ ", 'Z')".

(** [/pat/i.test(s)] for a pattern of lower-case letters. *)
Definition testNoCase (pat s : string) : bool := includes pat (toLowerCase s).

(** [s.replace(/pat/i, '')] for such a pattern: the first match is
    removed. *)
Fixpoint removeFirstNoCase (pat s : string) : string :=
  if prefix pat (toLowerCase s) then dropChars (String.length pat) s
  else match s with
       | EmptyString => EmptyString
       | String c r => String c (removeFirstNoCase pat r)
       end.

(** An entry of the list [detectDateTimeFields] returns. *)
Record DateTimePair : Type := mkDateTimePair {
  dateField : Mapping;
  timeField : Mapping;
  combinedName : string
}.

Definition isDateField (m : Mapping) : bool :=
  testNoCase "date" (targetName m) && negb (testNoCase "time" (targetName m)).

Definition isTimeField (m : Mapping) : bool :=
  testNoCase "time" (targetName m) && negb (testNoCase "date" (targetName m)).

(** [detectDateTimeFields]. *)
Definition detectDateTimeFields (mappings : list Mapping) : list DateTimePair :=
  let dateFields := filter isDateField mappings in
  let timeFields := filter isTimeField mappings in
  flat_map
    (fun dateField =>
       let baseName := removeFirstNoCase "date" (targetName dateField) in
       match find (fun tf => removeFirstNoCase "time" (targetName tf) =? baseName) timeFields with
       | Some matchingTime =>
           [{| dateField := dateField; timeField := matchingTime;
               combinedName := baseName ++ "DateTime" |}]
       | None => []
       end)
    dateFields.

(** The members every plain object inherits: read as [groups[key]], each
    of them yields a value that is truthy and has no [push]. *)
Definition inheritedKeys : list string :=
  [ "__proto__"; "constructor"; "hasOwnProperty"; "isPrototypeOf";
    "propertyIsEnumerable"; "toLocaleString"; "toString"; "valueOf";
    "__defineGetter__"; "__defineSetter__"; "__lookupGetter__"; "__lookupSetter__" ].

Definition isInherited (key : string) : bool := existsb (String.eqb key) inheritedKeys.

(** The groups of [groupByParentHierarchy], as [Object.entries] lists
    them. *)
Definition Groups : Type := list (string * list Mapping).

(** The key [groupByParentHierarchy] files a mapping under. *)
Definition groupKey (m : Mapping) : string :=
  let parts := split "/"%char (effectivePath m) in
  if (List.length parts =? 1)%nat then "__root__" else join "/" (removeLast parts).

Fixpoint pushToGroup (key : string) (m : Mapping) (groups : Groups) : Groups :=
  match groups with
  | [] => []
  | (k, members) :: rest =>
      if k =? key then (k, (members ++ [m])%list) :: rest
      else (k, members) :: pushToGroup key m rest
  end.

Fixpoint insertIndexedGroup (n : N) (key : string) (m : Mapping) (groups : Groups) : Groups :=
  match groups with
  | [] => [(key, [m])]
  | (k, members) :: rest =>
      match arrayIndex k with
      | Some n' => if (n <? n')%N then (key, [m]) :: groups
                   else (k, members) :: insertIndexedGroup n key m rest
      | None => (key, [m]) :: groups
      end
  end.

(** [if (!groups[key]) groups[key] = []; groups[key].push(mapping)].  An
    own group takes the mapping; an inherited member makes [push] fail
    with a [TypeError], which is not modelled; an inherited [_fields]
    array, when the realm has one, takes the mapping and the groups stay
    as they are; otherwise a new group is created. *)
Definition addToGroup (key : string) (m : Mapping) (groups : Groups) (r : Realm)
  : Outcome Groups :=
  if existsb (fun g => fst g =? key) groups then Returned (pushToGroup key m groups)
  else if isInherited key then Unmodelled
  else if (key =? "_fields") && proto_fields r then Returned groups
  else match arrayIndex key with
       | Some n => Returned (insertIndexedGroup n key m groups)
       | None => Returned (groups ++ [(key, [m])])%list
       end.

Fixpoint groupInto (ms : list Mapping) (groups : Groups) (r : Realm) : Outcome Groups :=
  match ms with
  | [] => Returned groups
  | m :: rest =>
      match addToGroup (groupKey m) m groups r with
      | Returned groups' => groupInto rest groups' r
      | other => other
      end
  end.

(** [groupByParentHierarchy] of the legacy generator. *)
Definition groupByParentHierarchy (mappings : list Mapping) (r : Realm) : Outcome Groups :=
  groupInto mappings [] r.

(* ================================================================== *)
(** ** Notions used in the further properties *)
(* ================================================================== *)

(** The value blocks of a field of the Flat output, one for each of its
    columns, without the separator that follows each of them. *)
Definition fieldBlocks (m : Mapping) : list string :=
  let p := parseSourcePath (sourcePath m) in
  if (1 <? occurs m)%Z
  then map (fun i => flatValueBlock m p (Some i)) (occurrences m)
  else [flatValueBlock m p None].

(** The text node [generateFlatFileValueExtraction] puts after a block. *)
Definition separatorText (separator : string) : string :=
  "    " ++ "<xsl:text>" ++ separator ++ "</xsl:text>".

(** A block followed by its separator. *)
Definition withSeparator (separator block : string) : string :=
  block ++ separatorText separator.

(** [!(!mapping.sourcePath || !mapping.targetName)]. *)
Definition complete (m : Mapping) : bool := negb (incomplete m).

(** The fields stored in a hierarchy, in the order a walk over
    [Object.entries] meets them. *)
Fixpoint leavesOf (e : Entry) : list Field :=
  match e with
  | EFields fs => fs
  | EMeta _ _ => []
  | EChild _ node =>
      (fix walk (es : list Entry) : list Field :=
         match es with
         | [] => []
         | e' :: rest => (leavesOf e' ++ walk rest)%list
         end) node
  end.

Definition hierarchyLeaves (h : list Entry) : list Field := flat_map leavesOf h.



(** [groups[key]], as far as own properties go. *)
Definition findGroup (key : string) (groups : Groups) : option (list Mapping) :=
  option_map snd (find (fun g => fst g =? key) groups).

(** The mappings of a list that are filed under a key, in the order of
    the list. *)
Definition filedUnder (key : string) (ms : list Mapping) : list Mapping :=
  filter (fun m => groupKey m =? key) ms.

(** The paths of a document in document order, with repetitions: each
    element's path, then the paths of its attributes, then those of its
    child elements. *)
Fixpoint documentPaths (node : DomNode) (currentPath : string) : list string :=
  match node with
  | DomElement nodeName attrs childNodes =>
      let newPath := childPath currentPath nodeName in
      (newPath :: map (fun attr => attributePath newPath (fst attr)) attrs
       ++ (fix each (children : list DomNode) : list string :=
             match children with
             | [] => []
             | child :: rest => documentPaths child newPath ++ each rest
             end) childNodes)%list
  | _ => []
  end.

(** The paths of the nodes of a display tree and of their attributes, in
    the order of the tree. *)
Fixpoint treePaths (node : TreeNode) (currentPath : string) : list string :=
  match node with
  | mkTreeNode name attributeList children _ =>
      let newPath := childPath currentPath name in
      (newPath :: map (fun attr => attributePath newPath (fst attr)) attributeList
       ++ (fix each (nodes : list TreeNode) : list string :=
             match nodes with
             | [] => []
             | child :: rest => treePaths child newPath ++ each rest
             end) children)%list
  end.


(** Names the normalizer leaves alone: not empty, and free of white
    space, [/], [@], [.] and [*]. *)
Definition plainNameChar (c : ascii) : bool :=
  negb (isWhiteSpace c) && negb (Ascii.eqb c "/"%char) && negb (Ascii.eqb c "@"%char)
  && negb (Ascii.eqb c "."%char) && negb (Ascii.eqb c "*"%char).

Definition plainName (name : string) : bool :=
  truthy name && allChars plainNameChar name.

(** Documents all of whose element and attribute names are such names. *)
Fixpoint plainNames (node : DomNode) : bool :=
  match node with
  | DomElement nodeName attrs childNodes =>
      plainName nodeName
      && forallb (fun attr => plainName (fst attr)) attrs
      && (fix all (children : list DomNode) : bool :=
            match children with
            | [] => true
            | child :: rest => plainNames child && all rest
            end) childNodes
  | _ => true
  end.

Definition plainDocument (xmlDoc : Document) : bool :=
  plainNames (documentElement xmlDoc).

(** What the traversal keeps true of every entry it records in such a
    document: the path of an element is its name after the names of its
    ancestors, the path of an attribute is its name after the path of its
    element. *)
Definition wellFormedInfo (info : PathInfo) : Prop :=
  match info with
  | ElementPath path name _ _ _ _ =>
      exists segs, Forall (fun s => plainName s = true) segs /\
                   plainName name = true /\
                   path = join "/" (segs ++ [name])
  | AttributePath path name parentPath _ =>
      exists segs, segs <> [] /\
                   Forall (fun s => plainName s = true) segs /\
                   plainName name = true /\
                   parentPath = join "/" segs /\
                   path = attributePath parentPath name
  end.

(** A small document. *)
Definition sampleDocument : Document :=
  mkDocument "Company" [("xmlns:hr", "urn:hr"); ("xmlns", "urn:company")]
    [ DomText nl;
      DomElement "Employee" [("id", "7")]
        [ DomElement "Name" [] [DomText " Ada "];
          DomOther ];
      DomElement "Employee" [("id", "8"); ("grade", "A")]
        [ DomElement "Name" [] [DomText "Grace"] ] ].

(* ================================================================== *)
(** * Properties *)
(* ================================================================== *)

(** ** Sample runs of the primitives *)

Example normalizeXPath_ex1 :
  normalizeXPath "orders.XML/Order.Item[@id='a.b'].Price" = "//Order/Item[@id='a.b']/Price".
Proof. reflexivity. Qed.

Example normalizeXPath_ex2 : normalizeXPath "  /root/a " = "/root/a".
Proof. reflexivity. Qed.

Example natToString_ex : (natToString 0, natToString 12, numToString 305) = ("0", "12", "305").
Proof. reflexivity. Qed.

Example parseSourcePath_attr :
  parseSourcePath "//Company/Employee/@id" = PAttribute "//Company/Employee" "id" "//Company/Employee/@id".
Proof. reflexivity. Qed.

Example parseSourcePath_elem :
  parseSourcePath "//Order/Total" = PElement "Order" "Total" "//Order/Total".
Proof. reflexivity. Qed.

Example parseSourcePath_bare_attr :
  parseSourcePath "/@id" = PElement EmptyString "@id" "/@id".
Proof. reflexivity. Qed.

(** ** Strings and lists of strings *)

Lemma append_nil_r (s : string) : s ++ EmptyString = s.
Proof. induction s as [|c s IH]; simpl; [reflexivity | now rewrite IH]. Qed.

Lemma append_assoc (a b c : string) : (a ++ b) ++ c = a ++ (b ++ c).
Proof. induction a as [|x a IH]; simpl; [reflexivity | now rewrite IH]. Qed.

Lemma Contains_refl (s : string) : Contains s s.
Proof. exists EmptyString, EmptyString. simpl. now rewrite append_nil_r. Qed.

Lemma Contains_app_l (s t u : string) : Contains s u -> Contains (s ++ t) u.
Proof.
  intros (pre & post & ->). exists pre, (post ++ t).
  now rewrite !append_assoc.
Qed.

Lemma Contains_app_r (s t u : string) : Contains t u -> Contains (s ++ t) u.
Proof.
  intros (pre & post & ->). exists (s ++ pre), post.
  now rewrite !append_assoc.
Qed.

Lemma Contains_trans (s t u : string) : Contains s t -> Contains t u -> Contains s u.
Proof.
  intros (p1 & q1 & ->) (p2 & q2 & ->).
  exists (p1 ++ p2), (q2 ++ q1). now rewrite !append_assoc.
Qed.

Lemma concatMap_app {A : Type} (f : A -> string) (l1 l2 : list A) :
  concatMap f (l1 ++ l2) = concatMap f l1 ++ concatMap f l2.
Proof.
  induction l1 as [|a l1 IH]; simpl; [reflexivity|].
  now rewrite IH, append_assoc.
Qed.

Lemma concatMap_In {A : Type} (f : A -> string) (l : list A) (a : A) :
  In a l -> Contains (concatMap f l) (f a).
Proof.
  intros H. apply in_split in H as (l1 & l2 & ->).
  rewrite concatMap_app. simpl.
  apply Contains_app_r, Contains_app_l, Contains_refl.
Qed.

Lemma join_cons (sep x : string) (l : list string) :
  l <> [] -> join sep (x :: l) = x ++ sep ++ join sep l.
Proof. destruct l; [congruence | reflexivity]. Qed.

Lemma join_app (sep : string) (l1 l2 : list string) :
  l1 <> [] -> l2 <> [] -> join sep (l1 ++ l2) = join sep l1 ++ sep ++ join sep l2.
Proof.
  intros H1 H2. induction l1 as [|x l1 IH]; [congruence|].
  destruct l1 as [|y l1].
  - change ([x] ++ l2)%list with (x :: l2).
    rewrite (join_cons sep x l2) by assumption. reflexivity.
  - change ((x :: y :: l1) ++ l2)%list with (x :: y :: (l1 ++ l2))%list.
    rewrite (join_cons sep x (y :: (l1 ++ l2))) by discriminate.
    change (y :: (l1 ++ l2))%list with ((y :: l1) ++ l2)%list.
    rewrite IH by discriminate.
    rewrite (join_cons sep x (y :: l1)) by discriminate.
    now rewrite !append_assoc.
Qed.

Lemma Contains_join (sep : string) (l1 l2 l3 : list string) :
  l2 <> [] -> Contains (join sep (l1 ++ l2 ++ l3)) (join sep l2).
Proof.
  intros H2.
  assert (H23 : Contains (join sep (l2 ++ l3)) (join sep l2)).
  { destruct l3 as [|z l3].
    - rewrite app_nil_r. apply Contains_refl.
    - rewrite join_app by (assumption || discriminate).
      apply Contains_app_l, Contains_refl. }
  destruct l1 as [|x l1]; [exact H23|].
  rewrite join_app; [| discriminate | destruct l2; [congruence | discriminate]].
  now apply Contains_app_r, Contains_app_r.
Qed.

(** ** The XPath normalizer *)

Lemma split_nonempty (c : ascii) (s : string) : split c s <> [].
Proof.
  destruct s as [|x r]; simpl; [discriminate|].
  destruct (Ascii.eqb x c); [discriminate|]. destruct (split c r); discriminate.
Qed.

Lemma split_afterSlash (s : string) :
  split "/"%char s =
  takeWhile notSlash s ::
  match afterSlash s with Some r => split "/"%char r | None => [] end.
Proof.
  induction s as [|c r IH]; [reflexivity|].
  simpl. unfold notSlash at 1. destruct (Ascii.eqb c "/"%char); [reflexivity|].
  simpl. now rewrite IH.
Qed.

Lemma join_String (sep : string) (c : ascii) (h : string) (t : list string) :
  join sep (String c h :: t) = String c (join sep (h :: t)).
Proof. destruct t; reflexivity. Qed.

Lemma join_split (s : string) : join "/" (split "/"%char s) = s.
Proof.
  induction s as [|c r IH]; [reflexivity|].
  simpl. destruct (Ascii.eqb c "/"%char) eqn:E.
  - apply Ascii.eqb_eq in E. subst c.
    rewrite join_cons by apply split_nonempty. now rewrite IH.
  - destruct (split "/"%char r) as [|h t] eqn:Es; [now apply split_nonempty in Es|].
    rewrite join_String. now rewrite IH.
Qed.

Lemma takeWhile_afterSlash (s : string) :
  s = takeWhile notSlash s ++
      match afterSlash s with Some r => String "/"%char r | None => EmptyString end.
Proof.
  induction s as [|c r IH]; [reflexivity|].
  simpl. unfold notSlash at 1. destruct (Ascii.eqb c "/"%char) eqn:E.
  - apply Ascii.eqb_eq in E. now subst c.
  - simpl. now rewrite <- IH.
Qed.

Lemma takeWhile_allChars (p : ascii -> bool) (s : string) : allChars p (takeWhile p s) = true.
Proof.
  induction s as [|c r IH]; [reflexivity|].
  simpl. destruct (p c) eqn:E; [|reflexivity]. simpl. now rewrite E.
Qed.

Lemma dropChars_app (j : nat) (f t : string) :
  (j <= String.length f)%nat -> dropChars j (f ++ t) = dropChars j f ++ t.
Proof.
  revert f. induction j as [|j IH]; intros f H; [reflexivity|].
  destruct f as [|c f]; simpl in *; [lia|]. apply IH. lia.
Qed.

Lemma dropChars_length (j : nat) (f : string) :
  String.length (dropChars j f) = (String.length f - j)%nat.
Proof.
  revert f. induction j as [|j IH]; intros f; simpl; [lia|].
  destruct f as [|c f]; simpl; [reflexivity | apply IH].
Qed.

Lemma dropChars_allChars (p : ascii -> bool) (j : nat) (f : string) :
  allChars p f = true -> allChars p (dropChars j f) = true.
Proof.
  revert f. induction j as [|j IH]; intros f H; [assumption|].
  destruct f as [|c f]; [reflexivity|].
  simpl in *. apply andb_true_iff in H as [_ H]. now apply IH.
Qed.

Lemma dropChars_past (f t : string) : dropChars (String.length f + 1) (f ++ String "/"%char t) = t.
Proof. induction f as [|c f IH]; [reflexivity | exact IH]. Qed.

Lemma isDotXml_length (g : string) : isDotXml g = true -> String.length g = 4%nat.
Proof.
  destruct g as [|a [|b [|c [|d [|e g]]]]]; simpl; try discriminate. reflexivity.
Qed.

Ltac crunch_bools := repeat (rewrite ?andb_false_r, ?andb_true_r; simpl).

Lemma matchesXmlSlash_run (g t : string) :
  allChars notSlash g = true ->
  (t = EmptyString \/ exists r, t = String "/"%char r) ->
  matchesXmlSlash (g ++ t) = isDotXml g && startsWith "/" t.
Proof.
  intros Hg Ht. unfold startsWith.
  destruct g as [|a [|b [|c [|d [|e g]]]]]; simpl in *.
  1-4: destruct Ht as [-> | (r & ->)]; [reflexivity|];
       destruct r as [|r1 [|r2 [|r3 [|r4 r]]]]; simpl; crunch_bools; reflexivity.
  - destruct Ht as [-> | (r & ->)]; simpl; [|destruct r]; crunch_bools; reflexivity.
  - unfold notSlash in Hg.
    destruct (Ascii.eqb e "/"%char); [|crunch_bools; reflexivity].
    simpl in Hg. now rewrite !andb_false_r in Hg.
Qed.

Lemma stripAt_none (s : string) :
  forall n, (forall j, (j <= n)%nat -> matchesXmlSlash (dropChars j s) = false) ->
            stripAt n s = None.
Proof.
  induction n as [|n IH]; intros H; cbn [stripAt].
  - now rewrite (H 0%nat) by lia.
  - rewrite (H (S n)) by lia. apply IH. intros j Hj. apply H. lia.
Qed.

Lemma stripAt_unique (s : string) (k : nat) :
  forall n, (k <= n)%nat ->
    (forall j, (j <= n)%nat -> j <> k -> matchesXmlSlash (dropChars j s) = false) ->
    stripAt n s = if matchesXmlSlash (dropChars k s) then Some (dropChars (k + 5) s) else None.
Proof.
  induction n as [|n IH]; intros Hk H.
  - assert (k = 0)%nat as -> by lia. cbn [stripAt].
    now destruct (matchesXmlSlash (dropChars 0 s)).
  - destruct (Nat.eq_dec k (S n)) as [-> | Hne].
    + cbn [stripAt]. destruct (matchesXmlSlash (dropChars (S n) s)) eqn:E; [reflexivity|].
      apply stripAt_none. intros j Hj. apply H; lia.
    + cbn [stripAt]. rewrite (H (S n)) by lia. apply IH; [lia|].
      intros j Hj Hjk. apply H; lia.
Qed.

Lemma lowerChar_dot (a : ascii) :
  Ascii.eqb (lowerChar a) "."%char = Ascii.eqb a "."%char.
Proof.
  destruct a as [b0 b1 b2 b3 b4 b5 b6 b7].
  destruct b0, b1, b2, b3, b4, b5, b6, b7; reflexivity.
Qed.

Lemma isDotXml_lower (g : string) : isDotXml g = (toLowerCase g =? ".xml").
Proof.
  destruct g as [|a [|b [|c [|d [|e g]]]]]; simpl; rewrite ?lowerChar_dot;
    repeat match goal with
           | |- context [Ascii.eqb ?x ?y] => destruct (Ascii.eqb x y)
           end; reflexivity.
Qed.

Lemma stripAt_run (f t : string) :
  allChars notSlash f = true ->
  (t = EmptyString \/ exists r, t = String "/"%char r) ->
  stripAt (String.length f) (f ++ t) =
  if endsWithXml f && startsWith "/" t then Some (dropChars 1 t) else None.
Proof.
  intros Hf Ht.
  assert (M : forall j, (j <= String.length f)%nat ->
            matchesXmlSlash (dropChars j (f ++ t)) = isDotXml (dropChars j f) && startsWith "/" t).
  { intros j Hj. rewrite dropChars_app by assumption.
    apply matchesXmlSlash_run; [now apply dropChars_allChars | assumption]. }
  unfold endsWithXml. destruct (4 <=? String.length f)%nat eqn:E4.
  - apply Nat.leb_le in E4.
    rewrite (stripAt_unique (f ++ t) (String.length f - 4)).
    + rewrite M by lia. rewrite isDotXml_lower. simpl andb.
      destruct (toLowerCase (dropChars (String.length f - 4) f) =? ".xml"); [|reflexivity].
      simpl. destruct Ht as [-> | (r & ->)]; [reflexivity|]. simpl.
      replace (String.length f - 4 + 5)%nat with (String.length f + 1)%nat by lia.
      now rewrite dropChars_past.
    + lia.
    + intros j Hj Hne. rewrite M by assumption.
      destruct (isDotXml (dropChars j f)) eqn:E; [|reflexivity].
      apply isDotXml_length in E. rewrite dropChars_length in E. lia.
  - apply Nat.leb_gt in E4. simpl.
    apply stripAt_none. intros j Hj. rewrite M by assumption.
    destruct (isDotXml (dropChars j f)) eqn:E; [|reflexivity].
    apply isDotXml_length in E. rewrite dropChars_length in E. lia.
Qed.

(** The scanning function of the regular expression and the wording of
    step (a) agree on every string. *)
Lemma stripFileName_spec (s : string) : stripFileName s = stripLeadingFile s.
Proof.
  unfold stripFileName, stripLeadingFile.
  rewrite split_afterSlash.
  pose proof (takeWhile_afterSlash s) as D.
  pose proof (takeWhile_allChars notSlash s) as A.
  set (f := takeWhile notSlash s) in *.
  destruct (afterSlash s) as [r|] eqn:Er.
  - rewrite D at 1. rewrite stripAt_run; [|assumption | right; now exists r].
    destruct (split "/"%char r) as [|next more] eqn:Es; [now apply split_nonempty in Es|].
    rewrite <- Es, join_split.
    assert (P : startsWith "/" (String "/"%char r) = true) by now destruct r.
    rewrite P, andb_true_r. now destruct (endsWithXml f).
  - rewrite D at 1. rewrite stripAt_run; [|assumption | now left].
    unfold startsWith. simpl. now rewrite andb_false_r.
Qed.

Lemma closesPredicate_cons (c : ascii) (r : string) :
  Ascii.eqb c "["%char = false ->
  closesPredicate (String c r) = Ascii.eqb c "]"%char || closesPredicate r.
Proof. intros E. unfold closesPredicate. simpl. now rewrite E. Qed.

Lemma closesPredicate_open (r : string) : closesPredicate (String "["%char r) = false.
Proof. reflexivity. Qed.

Lemma replaceDots_flat (s : string) :
  forall inside : bool,
    bracketsFlat inside s = true ->
    closesPredicate s = inside /\
    replaceDots s = dotsAtDepth (if inside then 1 else 0) s.
Proof.
  induction s as [|c r IH]; intros inside H.
  - simpl in H. destruct inside; [discriminate | now split].
  - simpl in H. cbn [replaceDots dotsAtDepth].
    destruct (Ascii.eqb c "["%char) eqn:Eo.
    + apply Ascii.eqb_eq in Eo. subst c.
      apply andb_true_iff in H as [Hi Hr]. destruct inside; [discriminate|].
      destruct (IH true Hr) as [_ IHr].
      rewrite closesPredicate_open. simpl. split; [reflexivity | now rewrite IHr].
    + rewrite (closesPredicate_cons c r Eo).
      destruct (Ascii.eqb c "]"%char) eqn:Ec.
      * apply Ascii.eqb_eq in Ec. subst c.
        apply andb_true_iff in H as [Hi Hr]. subst inside.
        destruct (IH false Hr) as [_ IHr]. simpl. split; [reflexivity | now rewrite IHr].
      * destruct (IH inside H) as [IHc IHr]. rewrite IHc, IHr.
        split; [reflexivity|].
        destruct inside; simpl; rewrite ?andb_false_r, ?andb_true_r; reflexivity.
Qed.

Lemma prefix_nil (s : string) : prefix EmptyString s = true.
Proof. now destruct s. Qed.

Lemma startsWith_char (a c : ascii) (r : string) :
  startsWith (String a EmptyString) (String c r) = Ascii.eqb a c.
Proof.
  unfold startsWith. cbn [prefix]. destruct (ascii_dec a c) as [-> | H].
  - now rewrite prefix_nil, Ascii.eqb_refl.
  - symmetry. now apply Ascii.eqb_neq.
Qed.

Lemma addDescendantPrefix_head (y : string) :
  exists c r, addDescendantPrefix y = String c r /\ (c = "/"%char \/ c = "*"%char).
Proof.
  unfold addDescendantPrefix.
  destruct y as [|c r]; [exists "/"%char, "/"; split; [reflexivity | now left]|].
  rewrite !startsWith_char.
  destruct (Ascii.eqb "/" c) eqn:E1.
  { apply Ascii.eqb_eq in E1. subst c. exists "/"%char, r. split; [reflexivity | now left]. }
  destruct (Ascii.eqb "*" c) eqn:E2.
  { apply Ascii.eqb_eq in E2. subst c. exists "*"%char, r. split; [reflexivity | now right]. }
  exists "/"%char, (String "/"%char (String c r)). split; [reflexivity | now left].
Qed.

Lemma normalizeXPath_nonempty (xpath : string) :
  xpath <> EmptyString ->
  normalizeXPath_io xpath =
  (addDescendantPrefix (replaceDots (stripFileName (trim xpath))),
   if isValidXPath (addDescendantPrefix (replaceDots (stripFileName (trim xpath))))
   then []
   else ["Invalid XPath detected: " ++ xpath ++ ", normalized to: "
         ++ addDescendantPrefix (replaceDots (stripFileName (trim xpath)))]).
Proof.
  intros H. unfold normalizeXPath_io, truthy. apply String.eqb_neq in H. rewrite H.
  simpl negb. cbv iota zeta.
  now destruct (isValidXPath _).
Qed.

(** C8, as the code has it.  [normalizeXPath] returns the empty string
    for the empty string.  For any other raw path it first trims the
    surrounding white space and then applies, in order, (a) the removal of
    a leading [<filename>.xml/] segment, in any case, (b) on paths whose
    bracketed predicates are closed and not nested, the replacement of
    every dot outside a predicate by a slash, the dots inside predicates
    being kept, and (c) the [//] prefix unless the text already starts with
    a slash or a star.  The result always starts with a slash or a star, so
    of the two validity checks only the bracket balance can fail; when it
    does, the normalized path is returned all the same, together with one
    console warning. *)
Theorem normalizeXPath_steps (xpath : string) :
  (xpath = EmptyString -> normalizeXPath xpath = EmptyString) /\
  (xpath <> EmptyString ->
     simplePredicates (stripLeadingFile (trim xpath)) = true ->
     normalizeXPath xpath =
       addDescendantPrefix (dotsOutsidePredicates (stripLeadingFile (trim xpath)))) /\
  (xpath <> EmptyString ->
     exists c r, normalizeXPath xpath = String c r /\ (c = "/"%char \/ c = "*"%char)) /\
  (xpath <> EmptyString ->
     isValidXPath (normalizeXPath xpath) =
       (countChar "["%char (normalizeXPath xpath) =? countChar "]"%char (normalizeXPath xpath))%nat) /\
  (xpath <> EmptyString ->
     isValidXPath (normalizeXPath xpath) = false ->
     normalizeXPath_io xpath =
       (normalizeXPath xpath,
        ["Invalid XPath detected: " ++ xpath ++ ", normalized to: " ++ normalizeXPath xpath])).
Proof.
  split; [intros ->; reflexivity|].
  assert (N : xpath <> EmptyString ->
              normalizeXPath xpath =
              addDescendantPrefix (replaceDots (stripLeadingFile (trim xpath)))).
  { intros H. unfold normalizeXPath. rewrite normalizeXPath_nonempty by assumption.
    simpl. now rewrite stripFileName_spec. }
  split; [|split; [|split]].
  - intros H F. rewrite N by assumption.
    unfold simplePredicates in F. apply replaceDots_flat in F as [_ ->]. reflexivity.
  - intros H. rewrite N by assumption. apply addDescendantPrefix_head.
  - intros H. rewrite N by assumption.
    destruct (addDescendantPrefix_head (replaceDots (stripLeadingFile (trim xpath))))
      as (c & r & -> & Hc).
    unfold isValidXPath, truthy.
    destruct Hc as [-> | ->]; cbn -[countChar Nat.eqb];
      destruct (countChar "[" _ =? countChar "]" _)%nat; reflexivity.
  - intros H V. unfold normalizeXPath in *.
    rewrite normalizeXPath_nonempty in * by assumption. simpl in *. now rewrite V.
Qed.

(** C8 as stated fails on a path with surrounding white space: the code
    trims it before the three steps, which on their own would keep it.
    The steps as stated also part from the code on a predicate that holds
    another predicate: there the code takes the dot for a separator. *)
Lemma normalizeXPath_departs_from_the_three_steps :
  normalizeXPath " a" = "//a" /\
  normalizeXPath_spec " a" = "// a" /\
  normalizeXPath " a" <> normalizeXPath_spec " a" /\
  normalizeXPath "a[b.c[1]]" = "//a[b/c[1]]" /\
  normalizeXPath_spec "a[b.c[1]]" = "//a[b.c[1]]".
Proof. repeat split. discriminate. Qed.

Example normalizeXPath_unbalanced :
  normalizeXPath_io "a[1" =
  ("//a[1", ["Invalid XPath detected: a[1, normalized to: //a[1"]).
Proof. reflexivity. Qed.

Example normalizeXPath_simple :
  simplePredicates (stripLeadingFile (trim "orders.XML/Order.Item[@id='a.b'].Price")) = true /\
  normalizeXPath "orders.XML/Order.Item[@id='a.b'].Price" = "//Order/Item[@id='a.b']/Price".
Proof. split; reflexivity. Qed.

(** ** The hierarchy completer *)

Lemma setHas_In (x : string) (s : list string) : setHas x s = true <-> In x s.
Proof.
  unfold setHas. rewrite existsb_exists. split.
  - intros (y & Hy & E). apply String.eqb_eq in E. now subst.
  - intros H. exists x. split; [assumption | apply String.eqb_refl].
Qed.

Lemma setAdd_In (x y : string) (s : list string) :
  In x (setAdd y s) <-> x = y \/ In x s.
Proof.
  unfold setAdd. destruct (existsb (String.eqb y) s) eqn:E.
  - split; [now right|]. intros [-> | H]; [|assumption].
    now apply setHas_In.
  - rewrite in_app_iff. simpl. intuition.
Qed.

Lemma setAdd_NoDup (y : string) (s : list string) : NoDup s -> NoDup (setAdd y s).
Proof.
  intros H. unfold setAdd. destruct (existsb (String.eqb y) s) eqn:E; [assumption|].
  apply NoDup_app; [assumption | repeat constructor; easy |].
  intros a Ha [<- | []].
  apply setHas_In in Ha. unfold setHas in Ha. congruence.
Qed.

Lemma addAll_In (x : string) (l acc : list string) :
  In x (fold_left (fun a p => setAdd p a) l acc) <-> In x l \/ In x acc.
Proof.
  revert acc. induction l as [|p l IH]; intros acc; simpl; [intuition|].
  rewrite IH, setAdd_In. intuition.
Qed.

Lemma addAll_NoDup (l acc : list string) :
  NoDup acc -> NoDup (fold_left (fun a p => setAdd p a) l acc).
Proof.
  revert acc. induction l as [|p l IH]; intros acc H; simpl; [assumption|].
  apply IH, setAdd_NoDup, H.
Qed.

Lemma collectFrom_In (x : string) (ms : list Mapping) (acc : list string) :
  In x (fold_left (fun acc m => fold_left (fun a p => setAdd p a)
                                          (pathPrefixes (effectivePath m)) acc) ms acc)
  <-> (exists m, In m ms /\ In x (pathPrefixes (effectivePath m))) \/ In x acc.
Proof.
  revert acc. induction ms as [|m ms IH]; intros acc; simpl.
  - split; [now right | intros [(m & [] & _) | H]; assumption].
  - rewrite IH, addAll_In. split.
    + intros [(m' & Hm & Hx) | [Hx | Hx]].
      * left. exists m'. split; [now right | assumption].
      * left. exists m. split; [now left | assumption].
      * now right.
    + intros [(m' & [<- | Hm] & Hx) | Hx].
      * right. now left.
      * left. now exists m'.
      * right. now right.
Qed.

Lemma collectFrom_NoDup (ms : list Mapping) (acc : list string) :
  NoDup acc ->
  NoDup (fold_left (fun acc m => fold_left (fun a p => setAdd p a)
                                           (pathPrefixes (effectivePath m)) acc) ms acc).
Proof.
  revert acc. induction ms as [|m ms IH]; intros acc H; simpl; [assumption|].
  apply IH, addAll_NoDup, H.
Qed.

Lemma pathPrefixes_spec (p path : string) :
  In p (pathPrefixes path) <-> isPathPrefix p path.
Proof.
  unfold pathPrefixes, isPathPrefix. rewrite in_map_iff. split.
  - intros (k & <- & Hk). apply in_seq in Hk. exists k. split; [lia | reflexivity].
  - intros (k & Hk & ->). exists k. split; [reflexivity | apply in_seq; lia].
Qed.

Lemma missingPaths_spec (ms : list Mapping) (p : string) :
  In p (missingPaths ms) <->
  (exists m, In m ms /\ isPathPrefix p (effectivePath m)) /\
  ~ In p (map effectivePath ms) /\
  includes "/" p = true.
Proof.
  unfold missingPaths, collectPaths. rewrite filter_In, collectFrom_In, andb_true_iff.
  rewrite negb_true_iff, <- not_true_iff_false, setHas_In.
  split.
  - intros ([(m & Hm & Hp) | []] & Hn & Hs).
    repeat split; try assumption. exists m. now rewrite <- pathPrefixes_spec.
  - intros ((m & Hm & Hp) & Hn & Hs). repeat split; try assumption.
    left. exists m. now rewrite pathPrefixes_spec.
Qed.

(** C1, as the code has it.  [ensureCompleteHierarchy] returns the
    mappings it was given followed by one placeholder for every path that
    (1) is a non-empty prefix of some mapping's target path (its
    [targetPath], or its [targetName] when that is empty), (2) is not the
    target path of any mapping, and (3) contains a slash, that is, has at
    least two segments.  Each such path gets exactly one placeholder, whose
    [targetName] is the last segment, whose [sourcePath] is [//] followed by
    the path with every slash replaced by an underscore, and which is a
    non-required [component] marked [isPlaceholder]. *)
Theorem ensureCompleteHierarchy_placeholders (ms : list Mapping) :
  exists paths : list string,
    ensureCompleteHierarchy ms = (ms ++ map placeholderFor paths)%list /\
    NoDup paths /\
    (forall p, In p paths <->
       (exists m, In m ms /\ isPathPrefix p (effectivePath m)) /\
       ~ In p (map effectivePath ms) /\
       includes "/" p = true) /\
    (forall p, In p paths ->
       let ph := placeholderFor p in
       targetName ph = last (split "/"%char p) EmptyString /\
       targetPath ph = p /\
       sourcePath ph = "//" ++ replaceChar "/" "_" p /\
       fieldType ph = "component" /\
       required ph = Some false /\
       isPlaceholder ph = true).
Proof.
  exists (missingPaths ms).
  split; [reflexivity|]. split; [|split].
  - unfold missingPaths. apply NoDup_filter.
    unfold collectPaths. apply collectFrom_NoDup. constructor.
  - intros p. apply missingPaths_spec.
  - intros p _. cbv zeta. repeat split.
Qed.

(** C1 as stated fails on scenario E: [a] is a non-empty prefix of [a/b]
    and no mapping targets it, yet the completer adds no placeholder for
    it; it returns the two mappings unchanged. *)
Lemma ensureCompleteHierarchy_no_top_level_placeholder :
  isPathPrefix "a" "a/b" /\
  ~ In "a" (map effectivePath scenarioE) /\
  ensureCompleteHierarchy scenarioE = scenarioE /\
  ~ exists ph, In ph (ensureCompleteHierarchy scenarioE) /\ targetPath ph = "a".
Proof.
  split; [|split; [|split]].
  - exists 1%nat. split; [simpl; lia | reflexivity].
  - simpl. intros [H | [H | []]]; discriminate.
  - reflexivity.
  - intros (ph & H & E). simpl in H.
    destruct H as [<- | [<- | []]]; discriminate.
Qed.

(** Scenario E in the XML emitter: with no placeholder for [a], the
    hierarchy still has one [a] component, rendered as a single container
    around [b] and [c]. *)
Example scenarioE_single_container :
  let xml := textOf (generateXMLTransform (mappingSetOf scenarioE) [] pristine) in
  countOccurrences "<a>" xml = 1%nat /\
  countOccurrences "</a>" xml = 1%nat /\
  includes ("<a>" ++ nl ++ "        <b>") xml = true /\
  includes ("</b>" ++ nl ++ "        <c>") xml = true /\
  includes ("</c>" ++ nl ++ "      </a>") xml = true.
Proof. vm_compute. repeat split. Qed.

Example ensureCompleteHierarchy_deep :
  map targetPath (ensureCompleteHierarchy
                    [uiMapping "//s" "a/b/c" "string" 1; uiMapping "//s" "a/b/d" "string" 1])
  = ["a/b/c"; "a/b/d"; "a/b"].
Proof. reflexivity. Qed.

(** ** The facade *)

(** C4.  [generateXSLT] lower-cases the format; [xml], [json], [flat] and
    [csv] select the XML, JSON and Flat emitters, which receive the
    namespace table (empty by default) and, for Flat, the delimiter (a comma
    by default).  Any other format yields no stylesheet at all: the call
    throws an error whose message ends with the format string as it was
    passed, and leaves the realm as it found it. *)
Theorem generateXSLT_dispatch (format : string) (mappings : MappingSet)
    (options : Options) (r : Realm) :
  let namespaces := match opt_namespaces options with Some ns => ns | None => [] end in
  let delimiter := if opt_delimiter options =? EmptyString then "," else opt_delimiter options in
  let f := toLowerCase format in
  (f = "xml" ->
     generateXSLT format mappings options r = generateXMLTransform mappings namespaces r) /\
  (f = "json" ->
     generateXSLT format mappings options r = generateJSONTransform mappings namespaces r) /\
  (f = "flat" \/ f = "csv" ->
     generateXSLT format mappings options r =
       (Returned (generateFlatFileTransform mappings delimiter namespaces), r)) /\
  (f <> "xml" -> f <> "json" -> f <> "flat" -> f <> "csv" ->
     generateXSLT format mappings options r =
       (Thrown ("Unsupported output format: " ++ format), r) /\
     Contains ("Unsupported output format: " ++ format) format) /\
  generateXSLT format mappings noOptions r =
    generateXSLT format mappings {| opt_namespaces := Some []; opt_delimiter := "," |} r.
Proof.
  cbv zeta. unfold generateXSLT, orElse, truthy.
  repeat split.
  - intros ->. reflexivity.
  - intros ->. reflexivity.
  - intros [-> | ->]; simpl; destruct (opt_delimiter options =? EmptyString); reflexivity.
  - apply String.eqb_neq in H, H0, H1, H2. now rewrite H, H0, H1, H2.
  - apply Contains_app_r, Contains_refl.
Qed.

Example generateXSLT_case_insensitive (mappings : MappingSet) :
  generateXSLT "Xml" mappings noOptions pristine = generateXMLTransform mappings [] pristine /\
  generateXSLT "JSON" mappings noOptions pristine = generateJSONTransform mappings [] pristine /\
  generateXSLT "CSV" mappings noOptions pristine =
    (Returned (generateFlatFileTransform mappings "," []), pristine).
Proof. repeat split. Qed.

Example generateXSLT_yaml (mappings : MappingSet) :
  generateXSLT "yaml" mappings noOptions pristine =
    (Thrown "Unsupported output format: yaml", pristine).
Proof. reflexivity. Qed.

(** ** The Flat emitter *)






(** The completer adds nothing to what the Flat emitter works on. *)
Lemma flatFields_eq (mappings : MappingSet) :
  flatFields mappings = filter notPlaceholder (normalizeAllMappings (fields mappings)).
Proof.
  unfold flatFields, ensureCompleteHierarchy. rewrite filter_app.
  set (ps := missingPaths _).
  assert (E : filter notPlaceholder (map placeholderFor ps) = []).
  { induction ps as [|p ps IH]; [reflexivity | exact IH]. }
  now rewrite E, app_nil_r.
Qed.

Lemma normalizeMapping_isPlaceholder (m : Mapping) :
  isPlaceholder (normalizeMapping m) = isPlaceholder m.
Proof. unfold normalizeMapping. now destruct (incomplete m). Qed.

Lemma normalizeMapping_effectivePath (m : Mapping) :
  effectivePath (normalizeMapping m) = effectivePath m.
Proof. unfold normalizeMapping. now destruct (incomplete m). Qed.

Lemma normalizeMapping_targetName (m : Mapping) :
  targetName (normalizeMapping m) = targetName m.
Proof. unfold normalizeMapping. now destruct (incomplete m). Qed.

Lemma normalizeMapping_occurs (m : Mapping) :
  occurs m <> 0%Z -> occurs (normalizeMapping m) = occurs m.
Proof.
  intros H. unfold normalizeMapping. destruct (incomplete m); [reflexivity|]. simpl.
  apply Z.eqb_neq in H. now rewrite H.
Qed.

Lemma normalizeMapping_fieldType (m : Mapping) :
  fieldType m <> EmptyString -> fieldType (normalizeMapping m) = fieldType m.
Proof.
  intros H. unfold normalizeMapping. destruct (incomplete m); [reflexivity|]. simpl.
  unfold orElse, truthy. apply String.eqb_neq in H. now rewrite H.
Qed.

Lemma valueExtractions_app (delimiter : string) (l1 l2 : list Mapping) (m : Mapping) :
  valueExtractions delimiter (l1 ++ m :: l2) =
  (flat_map (fun x => fieldExtractions delimiter x false) l1
   ++ fieldExtractions delimiter m (match l2 with [] => true | _ => false end)
   ++ valueExtractions delimiter l2)%list.
Proof.
  induction l1 as [|x l1 IH]; [reflexivity|].
  change (valueExtractions delimiter ((x :: l1) ++ m :: l2))
    with (fieldExtractions delimiter x
            (match (l1 ++ m :: l2)%list with [] => true | _ => false end)
          ++ valueExtractions delimiter (l1 ++ m :: l2))%list.
  rewrite IH. simpl flat_map. rewrite <- app_assoc.
  now destruct l1.
Qed.

Lemma currency_extraction (m : Mapping) (i : nat) (separator : string) :
  fieldType m = "currency" ->
  generateFlatFileValueExtraction m (parseSourcePath (sourcePath m)) separator (Some i)
  = currencyOccurrence m i separator.
Proof.
  intros E. unfold generateFlatFileValueExtraction, flatValueBlock, currencyOccurrence.
  rewrite E. cbn [String.eqb Ascii.eqb Bool.eqb orb].
  unfold flatComment, flatChoose, occurrenceSuffix.
  now rewrite !append_assoc.
Qed.

Ltac in_chain H :=
  first [ exact H
        | apply Contains_app_l; exact H
        | apply Contains_app_r; in_chain H ].

(** C5.  Take a mapping set one of whose fields has [occurs = 3] and
    [fieldType = currency] (and is not flagged as a placeholder), and the
    delimiter [,].  The Flat header then has the three consecutive columns
    [<path>_1], [<path>_2], [<path>_3], where [<path>] is the target path
    with dots for slashes; the record template has the field's three
    extraction blocks, each a [format-number(..., '0.00')] block followed
    by a text node that holds the delimiter, except that the third block
    holds [&#10;] when the field is the last one of the record.  Both
    runs of text occur in the emitted stylesheet. *)
Theorem flat_occurs_expansion (mappings : MappingSet) (ns : Namespaces)
    (before after : list Mapping) (m : Mapping) :
  fields mappings = (before ++ m :: after)%list ->
  occurs m = 3%Z ->
  fieldType m = "currency" ->
  isPlaceholder m = false ->
  let name := replaceChar "/" "." (effectivePath m) in
  let m' := normalizeMapping m in
  let before' := filter notPlaceholder (normalizeAllMappings before) in
  let after' := filter notPlaceholder (normalizeAllMappings after) in
  let lastSeparator := match after' with [] => "&#10;" | _ => "," end in
  let columns := [name ++ "_1"; name ++ "_2"; name ++ "_3"] in
  let blocks := [currencyOccurrence m' 1 ","; currencyOccurrence m' 2 ",";
                 currencyOccurrence m' 3 lastSeparator] in
  headerParts (flatFields mappings) =
    (headerParts before' ++ columns ++ headerParts after')%list /\
  valueExtractions "," (flatFields mappings) =
    (flat_map (fun x => fieldExtractions "," x false) before'
     ++ blocks ++ valueExtractions "," after')%list /\
  Contains (generateFlatFileTransform mappings "," ns)
    ("<xsl:text>" ++ join "," (headerParts before' ++ columns ++ headerParts after')
                  ++ "&#10;</xsl:text>") /\
  Contains (join "," (headerParts before' ++ columns ++ headerParts after'))
    (name ++ "_1," ++ name ++ "_2," ++ name ++ "_3") /\
  Contains (generateFlatFileTransform mappings "," ns)
    (currencyOccurrence m' 1 "," ++ nl ++ currencyOccurrence m' 2 "," ++ nl
     ++ currencyOccurrence m' 3 lastSeparator).
Proof.
  intros Hf Hocc Hty Hph name m' before' after' lastSeparator columns blocks.
  assert (Hocc' : occurs m' = 3%Z).
  { unfold m'. rewrite normalizeMapping_occurs; rewrite Hocc; [reflexivity | discriminate]. }
  assert (Hty' : fieldType m' = "currency").
  { unfold m'. rewrite normalizeMapping_fieldType; rewrite Hty; [reflexivity | discriminate]. }
  assert (Hflat : flatFields mappings = (before' ++ m' :: after')%list).
  { rewrite flatFields_eq, Hf. unfold normalizeAllMappings.
    rewrite map_app, filter_app. simpl. unfold notPlaceholder at 2.
    now rewrite normalizeMapping_isPlaceholder, Hph. }
  assert (Hcols : headerColumns m' = columns).
  { unfold headerColumns, occurrences, columns, name, m'.
    fold m'. rewrite Hocc'. unfold m'. now rewrite normalizeMapping_effectivePath. }
  assert (Hblocks : fieldExtractions "," m' (match after' with [] => true | _ => false end)
                    = blocks).
  { unfold fieldExtractions, occurrences, blocks, lastSeparator. rewrite Hocc'. simpl map.
    rewrite !currency_extraction by assumption.
    now destruct after'. }
  assert (Hhead : headerParts (flatFields mappings) =
                  (headerParts before' ++ columns ++ headerParts after')%list).
  { rewrite Hflat. unfold headerParts. rewrite flat_map_app. simpl flat_map.
    now rewrite Hcols. }
  assert (Hvals : valueExtractions "," (flatFields mappings) =
                  (flat_map (fun x => fieldExtractions "," x false) before'
                   ++ blocks ++ valueExtractions "," after')%list).
  { rewrite Hflat, valueExtractions_app. now rewrite Hblocks. }
  split; [exact Hhead|]. split; [exact Hvals|]. split; [|split].
  - unfold generateFlatFileTransform. rewrite Hhead.
    assert (H : forall x rest,
               Contains ("      <xsl:text>" ++ x ++ "&#10;</xsl:text>" ++ rest)
                        ("<xsl:text>" ++ x ++ "&#10;</xsl:text>")).
    { intros x rest. exists "      ", rest. now rewrite !append_assoc. }
    repeat first [ apply H | apply Contains_app_r ].
  - pose proof (Contains_join "," (headerParts before') columns (headerParts after')
                  ltac:(discriminate)) as H.
    replace (name ++ "_1," ++ name ++ "_2," ++ name ++ "_3") with (join "," columns);
      [exact H|].
    unfold columns, join. simpl. now rewrite !append_assoc.
  - unfold generateFlatFileTransform. rewrite Hvals.
    pose proof (Contains_join nl
                  (flat_map (fun x => fieldExtractions "," x false) before')
                  blocks (valueExtractions "," after') ltac:(discriminate)) as H.
    in_chain H.
Qed.

(** Scenario B, by the theorem: the header columns and the three blocks. *)
Lemma flat_occurs_expansion_scenarioB :
  headerParts (flatFields scenarioB) = ["Name_1"; "Name_2"; "Name_3"] /\
  valueExtractions "," (flatFields scenarioB) =
    [ currencyOccurrence (uiMapping "//Order/Amount" "Name" "currency" 3) 1 ",";
      currencyOccurrence (uiMapping "//Order/Amount" "Name" "currency" 3) 2 ",";
      currencyOccurrence (uiMapping "//Order/Amount" "Name" "currency" 3) 3 "&#10;" ] /\
  Contains (generateFlatFileTransform scenarioB "," [])
           "<xsl:text>Name_1,Name_2,Name_3&#10;</xsl:text>".
Proof.
  destruct (flat_occurs_expansion scenarioB [] [] []
              (uiMapping "Order/Amount" "Name" "currency" 3)
              eq_refl eq_refl eq_refl eq_refl) as (H1 & H2 & H3 & _).
  split; [exact H1 | split; [exact H2 | exact H3]].
Defined.

(** ** Totality of the hierarchy builders on plain target paths *)

Lemma placeField_plain (fld : Field) (parts : list string) :
  forall (index : nat) (es : list Entry) (r : Realm),
    forallb plainSegment (removeLast parts) = true ->
    exists es', placeField fld index parts es r = (Returned es', r).
Proof.
  induction parts as [|part rest IH]; intros index es r H.
  - now exists es.
  - destruct rest as [|part' rest'].
    + simpl. destruct (hasFields es); [eauto|]. destruct (proto_fields r); eauto.
    + change (removeLast (part :: part' :: rest'))
        with (part :: removeLast (part' :: rest')) in H.
      simpl forallb in H. apply andb_true_iff in H as [Hp Hrest].
      unfold plainSegment in Hp. apply andb_true_iff in Hp as [Hres Hproto].
      apply negb_true_iff in Hres, Hproto.
      change (placeField fld index (part :: part' :: rest') es r) with
        (if isReserved part then (Unmodelled, r)
         else if part =? "__proto__" then
           match part' :: rest' with
           | [_] => (Returned es, {| proto_fields := true |})
           | _ => (Unmodelled, r)
           end
         else
           match findChild part es with
           | Some node =>
               match placeField fld (S index) (part' :: rest') node r with
               | (Returned node', r') => (Returned (setChild part node' es), r')
               | other => other
               end
           | None =>
               match placeField fld (S index) (part' :: rest') [EMeta index part] r with
               | (Returned node', r') => (Returned (addEntry (EChild part node') es), r')
               | other => other
               end
           end).
      rewrite Hres, Hproto.
      destruct (findChild part es) as [node|].
      * destruct (IH (S index) node r Hrest) as (es' & ->). eauto.
      * destruct (IH (S index) [EMeta index part] r Hrest) as (es' & ->). eauto.
Qed.

Lemma buildFrom_plain (mk : Mapping -> string -> Field) (ms : list Mapping) :
  forall (h : Hierarchy) (r : Realm),
    plainTargets ms = true ->
    exists h', buildFrom mk ms h r = (Returned h', r).
Proof.
  induction ms as [|m ms IH]; intros h r H.
  - now exists h.
  - simpl in H. apply andb_true_iff in H as [Hm Hms].
    simpl. destruct (incomplete m); [now apply IH|].
    destruct (placeField_plain (mk m (last (split "/"%char (effectivePath m)) EmptyString))
                (split "/"%char (effectivePath m)) 0 h r Hm) as (h1 & ->).
    now apply IH.
Qed.

Lemma plainTarget_normalize (m : Mapping) :
  plainTarget (normalizeMapping m) = plainTarget m.
Proof. unfold plainTarget. now rewrite normalizeMapping_effectivePath. Qed.

Lemma plainTargets_actual (fs : list Mapping) :
  plainTargets fs = true ->
  plainTargets (filter notPlaceholder (normalizeAllMappings fs)) = true.
Proof.
  unfold plainTargets, normalizeAllMappings. rewrite !forallb_forall.
  intros H m Hm. apply filter_In in Hm as [Hm _].
  apply in_map_iff in Hm as (m0 & <- & Hm0).
  rewrite plainTarget_normalize. now apply H.
Qed.

(** The XML emitter and the Flat emitter work on the same field list. *)
Lemma xml_actualFields (fs : list Mapping) :
  filter notPlaceholder (ensureCompleteHierarchy (normalizeAllMappings fs))
  = filter notPlaceholder (normalizeAllMappings fs).
Proof. exact (flatFields_eq (mappingSetOf fs)). Qed.

(** On plain target paths [generateXMLTransform] returns a stylesheet and
    leaves the realm alone. *)
Lemma generateXMLTransform_plain (mappings : MappingSet) (ns : Namespaces) (r : Realm) :
  plainTargets (fields mappings) = true ->
  exists body, generateXMLTransform mappings ns r =
               (Returned (xmlStylesheet mappings ns body), r).
Proof.
  intros H. unfold generateXMLTransform, buildHierarchyForInlineGeneration.
  rewrite xml_actualFields.
  destruct (buildFrom_plain leafField _ [] r (plainTargets_actual _ H)) as (h & ->).
  eauto.
Qed.

(** ** Variables and attributes in the XML emitter *)








(** Scenario A: the attribute is read as [@id] inside [empId], which is
    nested in [Employee]. *)
Example scenarioA_attribute_source :
  includes ("<Employee>" ++ nl
            ++ "        <empId>" ++ nl
            ++ "          <xsl:value-of select=" ++ q "@id" ++ "/>" ++ nl
            ++ "        </empId>" ++ nl
            ++ "      </Employee>")
           (textOf (generateXMLTransform scenarioA [] pristine)) = true.
Proof. vm_compute. reflexivity. Qed.

(** ** Names in the hierarchy walks *)

Section HierarchyInvariant.

Variable P : string -> Prop.
Variable Q : Field -> Prop.










End HierarchyInvariant.

Lemma xml_walk_eq (ms : list Mapping) (indent : string) (node : list Entry) :
  (fix walk (es : list Entry) : string :=
     match es with
     | [] => EmptyString
     | e' :: rest => generateXMLEntry ms e' indent ++ walk rest
     end) node
  = concatMap (fun e => generateXMLEntry ms e indent) node.
Proof. induction node as [|e node IH]; simpl; [reflexivity | now rewrite IH]. Qed.

Lemma json_walk_eq (ms : list Mapping) (indent : string) (node : list Entry) :
  (fix walk (es : list Entry) : string :=
     match es with
     | [] => EmptyString
     | e' :: rest => generateJSONEntry ms e' indent ++ walk rest
     end) node
  = concatMap (fun e => generateJSONEntry ms e indent) node.
Proof. induction node as [|e node IH]; simpl; [reflexivity | now rewrite IH]. Qed.

Section XmlNames.

Variables segs lits : list string.









End XmlNames.

Section JsonNames.

Variable segs : list string.






End JsonNames.

(** ** Segments of the paths the emitters work on *)

Lemma last_In (l : list string) (d : string) : l <> [] -> In (last l d) l.
Proof.
  induction l as [|x l IH]; [congruence|]. intros _.
  destruct l as [|y l]; [now left|]. right. apply IH. discriminate.
Qed.



Lemma split_segments_noslash (s : string) :
  Forall (fun p => allChars notSlash p = true) (split "/"%char s).
Proof.
  induction s as [|c r IH]; [now repeat constructor|].
  simpl. destruct (Ascii.eqb c "/"%char) eqn:E; [now constructor|].
  destruct (split "/"%char r) as [|h t]; [now repeat constructor; simpl; unfold notSlash; rewrite E|].
  inversion IH; subst. constructor; [|assumption].
  simpl. unfold notSlash at 1. now rewrite E.
Qed.

Lemma split_noslash (h : string) :
  allChars notSlash h = true -> split "/"%char h = [h].
Proof.
  induction h as [|c h IH]; intros H; [reflexivity|].
  simpl in *. apply andb_true_iff in H as [Hc Hh]. unfold notSlash in Hc.
  apply negb_true_iff in Hc. rewrite Hc. now rewrite IH.
Qed.

Lemma split_app_slash (h rest : string) :
  allChars notSlash h = true ->
  split "/"%char (h ++ String "/"%char rest) = h :: split "/"%char rest.
Proof.
  induction h as [|c h IH]; intros H; [reflexivity|].
  simpl in *. apply andb_true_iff in H as [Hc Hh]. unfold notSlash in Hc.
  apply negb_true_iff in Hc. rewrite Hc. now rewrite IH.
Qed.

Lemma split_join (l : list string) :
  l <> [] -> Forall (fun p => allChars notSlash p = true) l ->
  split "/"%char (join "/" l) = l.
Proof.
  induction l as [|x l IH]; [congruence|]. intros _ H.
  inversion H as [|? ? Hx Hl]; subst.
  destruct l as [|y l]; [now apply split_noslash|].
  rewrite join_cons by discriminate.
  change ("/" ++ join "/" (y :: l)) with (String "/"%char (join "/" (y :: l))).
  rewrite split_app_slash by assumption. now rewrite IH.
Qed.

Lemma Forall_firstn {A : Type} (P : A -> Prop) (k : nat) (l : list A) :
  Forall P l -> Forall P (firstn k l).
Proof.
  revert k. induction l as [|x l IH]; intros k H; [now rewrite firstn_nil|].
  destruct k; [constructor|]. inversion H; subst. simpl. constructor; auto.
Qed.

(** The segments of a prefix are the first segments of the path. *)
Lemma split_prefix (p path : string) :
  isPathPrefix p path ->
  exists k, (1 <= k <= List.length (split "/"%char path))%nat /\
            split "/"%char p = firstn k (split "/"%char path).
Proof.
  intros (k & Hk & ->). exists k. split; [assumption|].
  apply split_join.
  - destruct (split "/"%char path); simpl in *; [lia|]. destruct k; [lia | discriminate].
  - apply Forall_firstn, split_segments_noslash.
Qed.

Lemma effectivePath_placeholder (p : string) : effectivePath (placeholderFor p) = p.
Proof.
  unfold effectivePath, orElse, truthy. simpl.
  destruct (p =? EmptyString) eqn:E; [|reflexivity].
  apply String.eqb_eq in E. now subst.
Qed.

Lemma removeLast_firstn (l : list string) :
  removeLast l = firstn (List.length l - 1) l.
Proof.
  induction l as [|x l IH]; [reflexivity|].
  destruct l as [|y l]; [reflexivity|].
  change (removeLast (x :: y :: l)) with (x :: removeLast (y :: l)).
  rewrite IH. simpl. now rewrite Nat.sub_0_r.
Qed.

Lemma forallb_firstn_le {A : Type} (p : A -> bool) (l : list A) :
  forall j j', (j <= j')%nat -> forallb p (firstn j' l) = true -> forallb p (firstn j l) = true.
Proof.
  induction l as [|x l IH]; intros j j' Hj H; [now rewrite firstn_nil|].
  destruct j; [reflexivity|]. destruct j'; [lia|].
  simpl in *. apply andb_true_iff in H as [Hx H]. rewrite Hx. simpl.
  apply (IH j j'); [lia | assumption].
Qed.

(** The mappings the JSON emitter works on have the target segments of
    the fields, and plain target paths whenever the fields have. *)
Lemma json_mappings (fs : list Mapping) (m' : Mapping) :
  In m' (ensureCompleteHierarchy (normalizeAllMappings fs)) ->
  exists m k, In m fs /\
              (1 <= k <= List.length (split "/"%char (effectivePath m)))%nat /\
              split "/"%char (effectivePath m') = firstn k (split "/"%char (effectivePath m)).
Proof.
  unfold ensureCompleteHierarchy, normalizeAllMappings. intros H.
  apply in_app_or in H as [H | H].
  - apply in_map_iff in H as (m & <- & Hm). exists m, (List.length (split "/"%char (effectivePath m))).
    rewrite normalizeMapping_effectivePath, firstn_all.
    pose proof (split_nonempty "/"%char (effectivePath m)).
    destruct (split "/"%char (effectivePath m)); [congruence|]. simpl. repeat split; try lia.
    assumption.
  - apply in_map_iff in H as (p & <- & Hp).
    apply missingPaths_spec in Hp as ((m1 & Hm1 & Hpre) & _).
    apply in_map_iff in Hm1 as (m & <- & Hm).
    rewrite normalizeMapping_effectivePath in Hpre.
    apply split_prefix in Hpre as (k & Hk & E).
    exists m, k. rewrite effectivePath_placeholder. auto.
Qed.

Lemma plainTargets_json (fs : list Mapping) :
  plainTargets fs = true ->
  plainTargets (ensureCompleteHierarchy (normalizeAllMappings fs)) = true.
Proof.
  unfold plainTargets. rewrite !forallb_forall. intros H m' Hm'.
  apply json_mappings in Hm' as (m & k & Hm & Hk & E).
  specialize (H m Hm). unfold plainTarget in *. rewrite E.
  rewrite removeLast_firstn in *. rewrite length_firstn, firstn_firstn.
  eapply forallb_firstn_le; [|exact H]. lia.
Qed.

(** On plain target paths [generateJSONTransform] returns a stylesheet
    and leaves the realm alone. *)
Lemma generateJSONTransform_plain (mappings : MappingSet) (ns : Namespaces) (r : Realm) :
  plainTargets (fields mappings) = true ->
  exists entries, generateJSONTransform mappings ns r =
                  (Returned (jsonStylesheet mappings ns entries), r).
Proof.
  intros H. unfold generateJSONTransform, buildJSONHierarchyEnhanced.
  destruct (buildFrom_plain leafField _ [] r (plainTargets_json _ H)) as (h & ->).
  eauto.
Qed.







Example soapEnvelope_names :
  let xml := textOf (generateXMLTransform soapEnvelope [] pristine) in
  let json := textOf (generateJSONTransform soapEnvelope [] pristine) in
  includes ("<soap:Envelope xmlns:soap=" ++ q "http://schemas.xmlsoap.org/soap/envelope/" ++ ">")
           xml = true /\
  includes ("<xsl:variable name=" ++ q "doc:id") xml = true /\
  includes "<soap_Body>" xml = true /\
  includes "<order_id>" xml = true /\
  includes "soap:Body" xml = false /\
  includes ("<xsl:map-entry key=" ++ q "'soap_Body'" ++ ">") json = true /\
  includes ("<xsl:map-entry key=" ++ q "'order_id'" ++ ">") json = true.
Proof. vm_compute. repeat split. Qed.

(** ** Where the emitters part from the specification *)

(** C2 at a currency field mapped from an xpath: the XML emitter returns
    a stylesheet in which the value is a plain [xsl:value-of] on the
    normalized path; neither [format-number] nor [currencyID] occurs in it.
    The legacy formatter and the Flat emitter do format the same field. *)
Lemma xml_currency_is_plain_value_of :
  let out := generateXMLTransform (mappingSetOf [currencyField]) [] pristine in
  returns out = true /\
  includes ("<xsl:value-of select=" ++ q "//Order/Total" ++ "/>") (textOf out) = true /\
  includes "format-number" (textOf out) = false /\
  includes "currencyID" (textOf out) = false /\
  includes "currencyID" (generateValueSelect currencyField
                           (parseSourcePath (sourcePath currencyField))) = true /\
  includes "format-number(Total, '0.00')"
    (generateFlatFileTransform (mappingSetOf [currencyField]) "," []) = true.
Proof. vm_compute. repeat split. Qed.

(** C3 at a mapping without a source path: the hierarchy builders of
    the XML and JSON emitters leave it out, but the Flat emitter gives it a
    header column and a value extraction block.  Such a mapping can reach
    the other two outputs as well: the XML emitter takes the loop of a
    component from it, and the JSON emitter emits a comment for the
    placeholder that the completer derived from its target path. *)
Lemma incomplete_mapping_reaches_the_output :
  incomplete (uiMapping EmptyString "ghost" "string" 1) = true /\
  includes "ghost" (textOf (generateXMLTransform withIncomplete [] pristine)) = false /\
  includes "ghost" (textOf (generateJSONTransform withIncomplete [] pristine)) = false /\
  headerParts (flatFields withIncomplete) = ["ghost"; "id"] /\
  List.length (valueExtractions "," (flatFields withIncomplete)) = 2%nat /\
  includes "<xsl:text>ghost,id&#10;</xsl:text>"
    (generateFlatFileTransform withIncomplete "," []) = true /\
  incomplete loopWithoutSource = true /\
  includes "//loop" (textOf (generateXMLTransform incompleteAbove [] pristine)) = true /\
  includes "<!-- b - Placeholder component -->"
    (textOf (generateJSONTransform incompleteBelow [] pristine)) = true.
Proof. vm_compute. repeat split. Qed.

(** C9 at a target path through [__proto__]: the first call leaves a
    [_fields] array on [Object.prototype], and the second call, with the
    very same arguments, returns a different stylesheet, from which the
    [id] element is gone. *)
Lemma generateXSLT_second_call_differs :
  let first := generateXSLT "xml" throughProto noOptions pristine in
  let second := generateXSLT "xml" throughProto noOptions (snd first) in
  returns first = true /\ returns second = true /\
  snd first = {| proto_fields := true |} /\
  includes "<id>" (textOf first) = true /\
  includes "<id>" (textOf second) = false /\
  fst first <> fst second.
Proof.
  vm_compute. repeat split. discriminate.
Qed.

(** ** Repeated calls *)

(** On plain target paths a call leaves the realm as it found it, so a
    second call with the same arguments returns what the first returned. *)
Theorem generateXSLT_plain_repeatable (format : string) (mappings : MappingSet)
    (options : Options) (r : Realm) :
  plainTargets (fields mappings) = true ->
  snd (generateXSLT format mappings options r) = r /\
  generateXSLT format mappings options (snd (generateXSLT format mappings options r))
  = generateXSLT format mappings options r.
Proof.
  intros H.
  assert (E : snd (generateXSLT format mappings options r) = r).
  { unfold generateXSLT.
    destruct (toLowerCase format =? "xml").
    { now destruct (generateXMLTransform_plain mappings
                      (match opt_namespaces options with Some ns => ns | None => [] end)
                      r H) as (body & ->). }
    destruct (toLowerCase format =? "json").
    { now destruct (generateJSONTransform_plain mappings
                      (match opt_namespaces options with Some ns => ns | None => [] end)
                      r H) as (entries & ->). }
    now destruct ((toLowerCase format =? "flat") || (toLowerCase format =? "csv")). }
  split; [exact E | now rewrite E].
Qed.

Lemma generateXSLT_scenarioC_repeatable :
  snd (generateXSLT "xml" scenarioC noOptions pristine) = pristine /\
  generateXSLT "xml" scenarioC noOptions (snd (generateXSLT "xml" scenarioC noOptions pristine))
  = generateXSLT "xml" scenarioC noOptions pristine.
Proof. exact (generateXSLT_plain_repeatable "xml" scenarioC noOptions pristine eq_refl). Defined.

(** ** The completed mapping list *)

Lemma isPathPrefix_trans (p p0 path : string) :
  isPathPrefix p p0 -> isPathPrefix p0 path -> isPathPrefix p path.
Proof.
  intros (k & Hk & ->) H0.
  destruct (split_prefix p0 path H0) as (k0 & Hk0 & E).
  rewrite E. rewrite E, length_firstn in Hk.
  exists (Nat.min k k0). split; [lia |].
  now rewrite firstn_firstn.
Qed.

Lemma filter_nil {A : Type} (f : A -> bool) (l : list A) :
  (forall x, In x l -> f x = false) -> filter f l = [].
Proof.
  induction l as [| a l IH]; intros H; [reflexivity |].
  simpl. rewrite (H a (or_introl eq_refl)). apply IH. intros x Hx. apply H. now right.
Qed.

Lemma completed_prefix (ms : list Mapping) (m : Mapping) (p : string) :
  In m (ensureCompleteHierarchy ms) ->
  isPathPrefix p (effectivePath m) ->
  exists m0, In m0 ms /\ isPathPrefix p (effectivePath m0).
Proof.
  unfold ensureCompleteHierarchy. intros Hm Hp.
  apply in_app_or in Hm. destruct Hm as [Hm | Hm].
  - now exists m.
  - apply in_map_iff in Hm. destruct Hm as (p0 & <- & Hp0).
    apply missingPaths_spec in Hp0. destruct Hp0 as ((m0 & Hm0 & Hpre) & _ & _).
    exists m0. split; [exact Hm0 |].
    rewrite effectivePath_placeholder in Hp.
    exact (isPathPrefix_trans _ _ _ Hp Hpre).
Qed.

Lemma completed_has_prefix (ms : list Mapping) (m : Mapping) (p : string) :
  In m (ensureCompleteHierarchy ms) ->
  isPathPrefix p (effectivePath m) ->
  includes "/" p = true ->
  In p (map effectivePath (ensureCompleteHierarchy ms)).
Proof.
  intros Hm Hp Hs.
  destruct (completed_prefix ms m p Hm Hp) as (m0 & Hm0 & Hp0).
  unfold ensureCompleteHierarchy. rewrite map_app. apply in_or_app.
  destruct (in_dec string_dec p (map effectivePath ms)) as [Hin | Hout]; [now left | right].
  rewrite map_map. apply in_map_iff. exists p. split; [apply effectivePath_placeholder |].
  apply missingPaths_spec. repeat split; try assumption. now exists m0.
Qed.

(** The completed list is closed under parent paths of two or more
    segments: every such prefix of the target path of one of its mappings
    is the target path of one of its mappings.  Completing it again adds
    nothing. *)
Theorem ensureCompleteHierarchy_closed (ms : list Mapping) :
  (forall (m : Mapping) (p : string),
      In m (ensureCompleteHierarchy ms) ->
      isPathPrefix p (effectivePath m) ->
      includes "/" p = true ->
      exists m', In m' (ensureCompleteHierarchy ms) /\ effectivePath m' = p) /\
  ensureCompleteHierarchy (ensureCompleteHierarchy ms) = ensureCompleteHierarchy ms.
Proof.
  split.
  - intros m p Hm Hp Hs.
    pose proof (completed_has_prefix ms m p Hm Hp Hs) as H.
    apply in_map_iff in H. destruct H as (m' & E & Hm'). now exists m'.
  - unfold ensureCompleteHierarchy at 1.
    replace (missingPaths (ensureCompleteHierarchy ms)) with (@nil string).
    + simpl. apply app_nil_r.
    + symmetry. unfold missingPaths. apply filter_nil. intros x Hx.
      destruct (includes "/" x) eqn:Hs; [| apply andb_false_r].
      rewrite andb_true_r. apply negb_false_iff. apply setHas_In.
      unfold collectPaths in Hx. apply collectFrom_In in Hx.
      destruct Hx as [(m & Hm & Hp) | []].
      apply pathPrefixes_spec in Hp.
      exact (completed_has_prefix ms m x Hm Hp Hs).
Qed.

(** ** The path parser *)

Lemma lastAttrMark_tail (c : ascii) (r : string) :
  lastAttrMark (String c r) = None -> lastAttrMark r = None.
Proof.
  cbn [lastAttrMark]. destruct (lastAttrMark r) as [[a b] |]; [discriminate | reflexivity].
Qed.

Lemma lastAttrMark_sound (s a b : string) :
  lastAttrMark s = Some (a, b) ->
  s = a ++ "/@" ++ b /\ b <> EmptyString /\ lastAttrMark b = None.
Proof.
  revert a b. induction s as [| c r IH]; intros a b H; [discriminate |].
  cbn [lastAttrMark] in H.
  destruct (lastAttrMark r) as [[a' b'] |] eqn:E.
  - injection H as <- <-. destruct (IH a' b' eq_refl) as (-> & Hb & Hn).
    repeat split; assumption.
  - destruct c as [[] [] [] [] [] [] [] []]; try discriminate.
    destruct r as [| c2 r2]; [discriminate |].
    destruct c2 as [[] [] [] [] [] [] [] []]; try discriminate.
    destruct r2 as [| d r']; [discriminate |].
    injection H as <- <-. repeat split; [discriminate |].
    exact (lastAttrMark_tail _ _ E).
Qed.

Lemma lastAttrMark_none (s : string) : includes "/@" s = false -> lastAttrMark s = None.
Proof.
  induction s as [| c r IH]; intros H; [reflexivity |].
  cbn [includes] in H. apply orb_false_iff in H. destruct H as [Hp Hr].
  cbn [lastAttrMark]. rewrite (IH Hr).
  destruct c as [[] [] [] [] [] [] [] []]; try reflexivity.
  destruct r as [| c2 r2]; [reflexivity |].
  destruct c2 as [[] [] [] [] [] [] [] []]; try reflexivity.
  destruct r2 as [| d r']; [reflexivity |].
  discriminate Hp.
Qed.

Lemma lastAttrMark_eq (c : ascii) (r : string) :
  lastAttrMark (String c r) =
  match lastAttrMark r with
  | Some (a, b) => Some (String c a, b)
  | None =>
      match String c r with
      | String "/" (String "@" (String d r')) => Some (EmptyString, String d r')
      | _ => None
      end
  end.
Proof. reflexivity. Qed.

Lemma lastAttrMark_mark (b : string) :
  b <> EmptyString -> lastAttrMark b = None ->
  lastAttrMark ("/@" ++ b) = Some (EmptyString, b).
Proof.
  intros Hb Hn. destruct b as [| d r']; [contradiction |].
  change ("/@" ++ String d r') with (String "/" (String "@" (String d r'))).
  assert (E : lastAttrMark (String "@" (String d r')) = None).
  { rewrite lastAttrMark_eq, Hn. reflexivity. }
  rewrite lastAttrMark_eq, E. reflexivity.
Qed.

Lemma lastAttrMark_some (a b : string) :
  b <> EmptyString -> lastAttrMark (a ++ "/@" ++ b) <> None.
Proof.
  intros Hb. induction a as [| c a IH].
  - destruct b as [| d r']; [contradiction |].
    change ("" ++ "/@" ++ String d r') with (String "/" (String "@" (String d r'))).
    rewrite lastAttrMark_eq.
    destruct (lastAttrMark (String "@" (String d r'))) as [[a0 b0] |]; cbv beta iota; discriminate.
  - change (String c a ++ "/@" ++ b) with (String c (a ++ "/@" ++ b)).
    rewrite lastAttrMark_eq.
    destruct (lastAttrMark (a ++ "/@" ++ b)) as [[a0 b0] |];
      [cbv beta iota; discriminate | now elim IH].
Qed.

Lemma lastAttrMark_app (a t a' b : string) :
  lastAttrMark t = Some (a', b) -> lastAttrMark (a ++ t) = Some (a ++ a', b).
Proof.
  intros H. induction a as [| c a IH]; [exact H |].
  simpl append. cbn [lastAttrMark]. now rewrite IH.
Qed.

Lemma linesOf_nonempty (s : string) : linesOf s <> [].
Proof.
  destruct s as [| c r]; simpl; [discriminate |].
  destruct (isLineTerminator c); [discriminate |].
  destruct (linesOf r); discriminate.
Qed.

Lemma linesOf_single (s : string) :
  existsChar isLineTerminator s = false -> linesOf s = [s].
Proof.
  induction s as [| c r IH]; intros H; [reflexivity |].
  simpl in H. apply orb_false_iff in H. destruct H as [Hc Hr].
  simpl. rewrite Hc, (IH Hr). reflexivity.
Qed.

Lemma matchAttr_sound (ls : list string) (a b : string) :
  matchAttr ls = Some (a, b) ->
  a <> EmptyString /\ exists l, In l ls /\ lastAttrMark l = Some (a, b).
Proof.
  induction ls as [| l rest IH]; intros H; [discriminate |].
  cbn [matchAttr] in H.
  destruct (lastAttrMark l) as [[[| c a0] b0] |] eqn:E.
  - destruct (IH H) as (Ha & l' & Hl & El). split; [exact Ha |]. exists l'. split; [now right | exact El].
  - injection H as <- <-. split; [discriminate |]. exists l. split; [now left | exact E].
  - destruct (IH H) as (Ha & l' & Hl & El). split; [exact Ha |]. exists l'. split; [now right | exact El].
Qed.

Lemma prefix_app (t post : string) : prefix t (t ++ post) = true.
Proof.
  induction t as [| c t IH]; simpl; [apply prefix_nil |].
  destruct (ascii_dec c c); [exact IH | contradiction].
Qed.

Lemma includes_app (pre t post : string) : includes t (pre ++ t ++ post) = true.
Proof.
  induction pre as [| c pre IH].
  - simpl append. destruct (t ++ post) eqn:E; cbn [includes]; rewrite <- E, prefix_app; reflexivity.
  - simpl append. cbn [includes]. rewrite IH. apply orb_true_r.
Qed.

(** What the parser returns for an attribute path can be put together
    again: the parent path, [/@] and the attribute name make up a line of
    the source path (the whole of it when it has a single line), neither of
    them is empty, and the name holds no further [/@] that is followed by
    a character. *)
Theorem parseSourcePath_attribute_parts (sp parent attr x : string) :
  parseSourcePath sp = PAttribute parent attr x ->
  x = sp /\ parent <> EmptyString /\ attr <> EmptyString /\
  (forall a b, b <> EmptyString -> attr <> a ++ "/@" ++ b) /\
  In (parent ++ "/@" ++ attr) (linesOf sp) /\
  (existsChar isLineTerminator sp = false -> sp = parent ++ "/@" ++ attr).
Proof.
  unfold parseSourcePath. intros H.
  destruct (includes "/@" sp); [| discriminate].
  destruct (matchAttr (linesOf sp)) as [[a b] |] eqn:E; [| discriminate].
  injection H as <- <- <-.
  destruct (matchAttr_sound _ _ _ E) as (Ha & l & Hl & El).
  destruct (lastAttrMark_sound _ _ _ El) as (-> & Hb & Hn).
  split; [reflexivity |]. split; [exact Ha |]. split; [exact Hb |]. split.
  { intros a0 b0 Hb0 ->. exact (lastAttrMark_some a0 b0 Hb0 Hn). }
  split; [exact Hl |].
  intros Hs. rewrite (linesOf_single _ Hs) in Hl.
  destruct Hl as [<- | []]. reflexivity.
Qed.

Lemma parseSourcePath_attribute_parts_example :
  "//Company/Employee/@id" = "//Company/Employee/@id" /\
  "//Company/Employee" <> EmptyString /\ "id" <> EmptyString /\
  (forall a b, b <> EmptyString -> "id" <> a ++ "/@" ++ b) /\
  In ("//Company/Employee" ++ "/@" ++ "id") (linesOf "//Company/Employee/@id") /\
  (existsChar isLineTerminator "//Company/Employee/@id" = false ->
   "//Company/Employee/@id" = "//Company/Employee" ++ "/@" ++ "id").
Proof.
  exact (parseSourcePath_attribute_parts "//Company/Employee/@id" "//Company/Employee" "id"
           "//Company/Employee/@id" eq_refl).
Defined.

(** The other way round: a parent path and an attribute name joined by
    [/@] are parsed back into the two, provided both are non-empty, the
    path has a single line and the name holds no [/@]. *)
Theorem parseSourcePath_attribute_roundtrip (parent attr : string) :
  parent <> EmptyString -> attr <> EmptyString ->
  existsChar isLineTerminator (parent ++ "/@" ++ attr) = false ->
  includes "/@" attr = false ->
  parseSourcePath (parent ++ "/@" ++ attr)
  = PAttribute parent attr (parent ++ "/@" ++ attr).
Proof.
  intros Hp Ha Hl Hn. unfold parseSourcePath.
  rewrite includes_app, (linesOf_single _ Hl). cbn [matchAttr].
  rewrite (lastAttrMark_app parent _ _ _ (lastAttrMark_mark attr Ha (lastAttrMark_none attr Hn))).
  rewrite append_nil_r.
  destruct parent as [| c p]; [contradiction | reflexivity].
Qed.

Lemma parseSourcePath_attribute_roundtrip_example :
  parseSourcePath ("//Invoice/Line[2]" ++ "/@" ++ "currency")
  = PAttribute "//Invoice/Line[2]" "currency" ("//Invoice/Line[2]" ++ "/@" ++ "currency").
Proof.
  apply (parseSourcePath_attribute_roundtrip "//Invoice/Line[2]" "currency");
    [discriminate | discriminate | reflexivity | reflexivity].
Defined.

Lemma removeLast_last (l : list string) (d : string) :
  l <> [] -> l = (removeLast l ++ [last l d])%list.
Proof.
  induction l as [| x r IH]; intros H; [contradiction |].
  destruct r as [| y r']; [reflexivity |].
  change (removeLast (x :: y :: r')) with (x :: removeLast (y :: r')).
  change (last (x :: y :: r') d) with (last (y :: r') d).
  rewrite <- app_comm_cons. f_equal. apply IH. discriminate.
Qed.

Lemma includes_slash (s : string) : includes "/" s = negb (allChars notSlash s).
Proof.
  induction s as [| c r IH]; [reflexivity |].
  cbn [includes allChars]. rewrite IH. unfold notSlash.
  change (prefix "/" (String c r)) with (startsWith "/" (String c r)).
  rewrite startsWith_char.
  rewrite (Ascii.eqb_sym c "/"%char). destruct (Ascii.eqb "/"%char c); reflexivity.
Qed.

(** What the parser returns for an element path can be put together
    again: the element name holds no slash, and the source path without its
    leading [//] or [/] is the element name alone when it holds no slash,
    and the parent path, a slash and the element name otherwise. *)
Theorem parseSourcePath_element_parts (sp parent name x : string) :
  parseSourcePath sp = PElement parent name x ->
  x = sp /\
  includes "/" name = false /\
  stripLeadingSlashes sp =
    (if includes "/" (stripLeadingSlashes sp) then parent ++ "/" ++ name else name).
Proof.
  intros H.
  assert (E : PElement (join "/" (removeLast (split "/"%char (stripLeadingSlashes sp))))
                       (last (split "/"%char (stripLeadingSlashes sp)) EmptyString) sp
              = PElement parent name x).
  { unfold parseSourcePath in H.
    destruct (includes "/@" sp); [| exact H].
    destruct (matchAttr (linesOf sp)) as [[a b] |]; [discriminate | exact H]. }
  clear H. injection E as <- <- <-.
  set (s := stripLeadingSlashes sp).
  pose proof (split_nonempty "/"%char s) as Hne.
  pose proof (split_segments_noslash s) as Hseg.
  pose proof (join_split s) as Hj.
  split; [reflexivity |]. split.
  - rewrite includes_slash. apply negb_false_iff.
    rewrite Forall_forall in Hseg. apply Hseg. now apply last_In.
  - rewrite includes_slash.
    destruct (allChars notSlash s) eqn:Hs; cbn [negb].
    + rewrite (split_noslash s Hs). reflexivity.
    + rewrite (removeLast_last _ EmptyString Hne) in Hj at 1.
      destruct (removeLast (split "/"%char s)) as [| y ys] eqn:Er.
      * exfalso. rewrite (removeLast_last _ EmptyString Hne), Er in Hseg.
        simpl in Hj. rewrite <- Hj in Hs.
        inversion Hseg as [| ? ? H1 _]. congruence.
      * rewrite join_app in Hj; [| discriminate | discriminate].
        symmetry. exact Hj.
Qed.

Lemma parseSourcePath_element_parts_example :
  "//Order/Total" = "//Order/Total" /\
  includes "/" "Total" = false /\
  stripLeadingSlashes "//Order/Total" =
    (if includes "/" (stripLeadingSlashes "//Order/Total") then "Order" ++ "/" ++ "Total" else "Total").
Proof.
  exact (parseSourcePath_element_parts "//Order/Total" "Order" "Total" "//Order/Total" eq_refl).
Defined.

(** ** Escaped names *)

Lemma isNameChar_escaped (c : ascii) :
  isNameChar (if isNameChar c then c else "_"%char) = true.
Proof. destruct (isNameChar c) eqn:E; [exact E | reflexivity]. Qed.

(** Escaping a name leaves only letters, digits, [_], [.] and [-] in it,
    escaping twice is escaping once, and the names escaping leaves alone
    are exactly those made of such characters. *)
Theorem escapeXMLName_idempotent (name : string) :
  allChars isNameChar (escapeXMLName name) = true /\
  escapeXMLName (escapeXMLName name) = escapeXMLName name /\
  (escapeXMLName name = name <-> allChars isNameChar name = true).
Proof.
  unfold escapeXMLName. induction name as [| c r (IH1 & IH2 & IH3)].
  - repeat split; reflexivity.
  - cbn [mapChars allChars]. rewrite IH1, IH2, isNameChar_escaped.
    split; [reflexivity |]. split.
    + reflexivity.
    + split.
      * intros H. injection H as Hc Hr. apply IH3 in Hr. rewrite Hr, andb_true_r.
        destruct (isNameChar c) eqn:E; [reflexivity |]. subst c. discriminate E.
      * intros H. apply andb_true_iff in H. destruct H as [Hc Hr].
        rewrite Hc. f_equal. now apply IH3.
Qed.

(** ** Normalizing a normalized path *)

Lemma trimEnd_cons (c : ascii) (r : string) :
  trimEnd r = r -> (r = EmptyString -> isWhiteSpace c = false) ->
  trimEnd (String c r) = String c r.
Proof.
  intros Hr Hc. cbn [trimEnd]. rewrite Hr.
  destruct r as [| d r']; [now rewrite Hc | reflexivity].
Qed.

Lemma trimEnd_tail (c : ascii) (r : string) :
  trimEnd (String c r) = String c r ->
  trimEnd r = r /\ (r = EmptyString -> isWhiteSpace c = false).
Proof.
  cbn [trimEnd]. intros H.
  destruct (trimEnd r) as [| d r'] eqn:E.
  - destruct (isWhiteSpace c) eqn:W; [discriminate |].
    injection H as <-. split; [reflexivity | reflexivity].
  - injection H as <-. split; [reflexivity | discriminate].
Qed.

Lemma trimEnd_trimEnd (s : string) : trimEnd (trimEnd s) = trimEnd s.
Proof.
  induction s as [| c r IH]; [reflexivity |].
  cbn [trimEnd]. destruct (trimEnd r) as [| d r'] eqn:E.
  - destruct (isWhiteSpace c) eqn:W; [reflexivity |].
    cbn [trimEnd]. now rewrite W.
  - apply trimEnd_cons; [exact IH | discriminate].
Qed.

Lemma trimEnd_head (c : ascii) (r : string) :
  isWhiteSpace c = false -> exists r', trimEnd (String c r) = String c r'.
Proof.
  intros W. cbn [trimEnd]. destruct (trimEnd r) as [| d r'].
  - rewrite W. now exists EmptyString.
  - now exists (String d r').
Qed.

Lemma trimStart_head (s : string) :
  trimStart s = EmptyString \/
  exists c r, trimStart s = String c r /\ isWhiteSpace c = false.
Proof.
  induction s as [| c r IH]; [now left |].
  cbn [trimStart]. destruct (isWhiteSpace c) eqn:W; [exact IH |].
  right. now exists c, r.
Qed.

Lemma trimEnd_dropChars (n : nat) (s : string) :
  trimEnd s = s -> trimEnd (dropChars n s) = dropChars n s.
Proof.
  revert s. induction n as [| n IH]; intros s H; [exact H |].
  destruct s as [| c r]; [reflexivity |].
  cbn [dropChars]. apply IH. now apply (trimEnd_tail c r).
Qed.

Lemma replaceDots_head (c : ascii) (r : string) :
  exists c', replaceDots (String c r) = String c' (replaceDots r) /\
             (c' = c \/ c = "."%char /\ c' = "/"%char).
Proof.
  cbn [replaceDots]. destruct (Ascii.eqb c "."%char) eqn:E.
  - apply Ascii.eqb_eq in E. destruct (closesPredicate r); cbn [andb negb].
    + exists c. split; [reflexivity | now left].
    + exists "/"%char. split; [reflexivity | now right].
  - exists c. split; [reflexivity | now left].
Qed.

Lemma replaceDots_empty (r : string) : replaceDots r = EmptyString -> r = EmptyString.
Proof.
  destruct r as [| c r]; [reflexivity |].
  destruct (replaceDots_head c r) as (c' & -> & _). discriminate.
Qed.

Lemma trimEnd_replaceDots (s : string) :
  trimEnd s = s -> trimEnd (replaceDots s) = replaceDots s.
Proof.
  induction s as [| c r IH]; intros H; [reflexivity |].
  destruct (trimEnd_tail c r H) as (Hr & Hc).
  destruct (replaceDots_head c r) as (c' & -> & Hc').
  apply trimEnd_cons; [exact (IH Hr) |].
  intros E. apply replaceDots_empty in E. specialize (Hc E).
  destruct Hc' as [-> | [_ ->]]; [exact Hc | reflexivity].
Qed.

Lemma closesPredicate_replaceDots (r : string) :
  closesPredicate (replaceDots r) = closesPredicate r.
Proof.
  induction r as [| c r IH]; [reflexivity |].
  destruct (replaceDots_head c r) as (c' & -> & Hc').
  destruct (Ascii.eqb c "["%char) eqn:E.
  - apply Ascii.eqb_eq in E. subst c.
    destruct Hc' as [-> | [Hd _]]; [| discriminate].
    now rewrite !closesPredicate_open.
  - assert (E' : Ascii.eqb c' "["%char = false)
      by (destruct Hc' as [-> | [_ ->]]; [exact E | reflexivity]).
    rewrite (closesPredicate_cons c' _ E'), (closesPredicate_cons c _ E), IH.
    f_equal. destruct Hc' as [-> | [-> ->]]; reflexivity.
Qed.

Lemma replaceDots_replaceDots (s : string) : replaceDots (replaceDots s) = replaceDots s.
Proof.
  induction s as [| c r IH]; [reflexivity |].
  cbn [replaceDots].
  destruct (Ascii.eqb c "."%char && negb (closesPredicate r)) eqn:E.
  - cbn [replaceDots]. cbn [Ascii.eqb Bool.eqb andb]. now rewrite IH.
  - cbn [replaceDots]. now rewrite closesPredicate_replaceDots, E, IH.
Qed.

Lemma stripFileName_slash (r : string) :
  stripFileName (String "/"%char r) = String "/"%char r.
Proof. destruct r as [| a [| b [| c [| d r]]]]; reflexivity. Qed.

Lemma normalizeXPath_clean (xpath : string) :
  xpath <> EmptyString ->
  trimEnd (normalizeXPath xpath) = normalizeXPath xpath /\
  replaceDots (normalizeXPath xpath) = normalizeXPath xpath.
Proof.
  intros Hne. unfold normalizeXPath. rewrite (normalizeXPath_nonempty xpath Hne).
  cbn [fst].
  set (z := replaceDots (stripFileName (trim xpath))).
  assert (Hz1 : trimEnd z = z).
  { subst z. apply trimEnd_replaceDots.
    assert (Ht : trimEnd (trim xpath) = trim xpath) by apply trimEnd_trimEnd.
    rewrite stripFileName_spec. unfold stripLeadingFile.
    generalize (join_split (trim xpath)).
    destruct (split "/"%char (trim xpath)) as [| file [| next more]]; try (intros; exact Ht).
    destruct (endsWithXml file); [| intros; exact Ht].
    intros Hj. rewrite join_cons in Hj by discriminate.
    rewrite <- Hj in Ht.
    replace (join "/" (next :: more))
      with (dropChars (String.length file + 1) (file ++ "/" ++ join "/" (next :: more)))
      by apply dropChars_past.
    now apply trimEnd_dropChars. }
  assert (Hz2 : replaceDots z = z) by apply replaceDots_replaceDots.
  unfold addDescendantPrefix.
  destruct (negb (startsWith "/" z) && negb (startsWith "*" z)); [| now split].
  change ("//" ++ z) with (String "/"%char (String "/"%char z)). split.
  - apply trimEnd_cons; [| discriminate].
    apply trimEnd_cons; [exact Hz1 | reflexivity].
  - cbn [replaceDots]. cbn [Ascii.eqb Bool.eqb andb]. now rewrite Hz2.
Qed.

Lemma normalizeXPath_fixed (y : string) :
  startsWith "/" y = true -> trimEnd y = y -> replaceDots y = y ->
  normalizeXPath y = y.
Proof.
  intros Hs Ht Hd. destruct y as [| c r]; [reflexivity |].
  rewrite startsWith_char in Hs. apply Ascii.eqb_eq in Hs. subst c.
  unfold normalizeXPath. rewrite normalizeXPath_nonempty by discriminate. cbn [fst].
  assert (Htrim : trim (String "/"%char r) = String "/"%char r).
  { unfold trim. cbn [trimStart]. change (isWhiteSpace "/"%char) with false. exact Ht. }
  rewrite Htrim, stripFileName_slash, Hd.
  unfold addDescendantPrefix. now rewrite startsWith_char.
Qed.

(** The normalizer leaves its own results alone, except those that start
    with [*]: the second pass finds nothing to trim, no file name to
    strip, no dot it would not have replaced already and the prefix in
    place. *)
Theorem normalizeXPath_idempotent (xpath : string) :
  startsWith "*" (normalizeXPath xpath) = false ->
  normalizeXPath (normalizeXPath xpath) = normalizeXPath xpath.
Proof.
  intros Hstar.
  destruct (string_dec xpath EmptyString) as [-> | Hne]; [reflexivity |].
  destruct (normalizeXPath_clean xpath Hne) as (Ht & Hd).
  apply normalizeXPath_fixed; try assumption.
  unfold normalizeXPath in *. rewrite (normalizeXPath_nonempty xpath Hne) in *.
  cbn [fst] in *.
  destruct (addDescendantPrefix_head (replaceDots (stripFileName (trim xpath))))
    as (c & r & E & Hc).
  rewrite E in *. destruct Hc as [-> | ->]; [now rewrite startsWith_char |].
  rewrite startsWith_char in Hstar. discriminate Hstar.
Qed.

Lemma normalizeXPath_idempotent_example :
  normalizeXPath (normalizeXPath "  orders.xml/Order.Item[@id='a.b']/@price ")
  = normalizeXPath "  orders.xml/Order.Item[@id='a.b']/@price ".
Proof.
  apply (normalizeXPath_idempotent "  orders.xml/Order.Item[@id='a.b']/@price "). reflexivity.
Defined.

(** A result that starts with [*] can lose a first segment in a second
    pass. *)
Example normalizeXPath_star_twice :
  normalizeXPath "data.xml/*[a.xml/b]" = "*[a.xml/b]" /\
  normalizeXPath (normalizeXPath "data.xml/*[a.xml/b]") = "//b]".
Proof. split; reflexivity. Qed.

(** ** The path the JSON emitter selects *)

Lemma prefix_cons (a c : ascii) (p r : string) :
  prefix (String a p) (String c r) = Ascii.eqb a c && prefix p r.
Proof.
  cbn [prefix]. destruct (ascii_dec a c) as [-> | Hn].
  - now rewrite Ascii.eqb_refl.
  - apply Ascii.eqb_neq in Hn. now rewrite Hn.
Qed.

Lemma includes_at (s : string) :
  includes "@" s = existsChar (fun c => Ascii.eqb c "@"%char) s.
Proof.
  induction s as [| c r IH]; [reflexivity |].
  cbn [includes existsChar]. rewrite IH, prefix_cons, prefix_nil, andb_true_r.
  now rewrite (Ascii.eqb_sym c "@"%char).
Qed.

Lemma includes_mark_at (s : string) :
  includes "/@" s = true -> existsChar (fun c => Ascii.eqb c "@"%char) s = true.
Proof.
  induction s as [| c r IH]; [discriminate |].
  cbn [includes existsChar]. rewrite prefix_cons. intros H.
  apply orb_true_iff in H. destruct H as [H | H].
  - apply andb_true_iff in H. destruct H as [_ H].
    destruct r as [| d r']; [discriminate |].
    rewrite prefix_cons in H. apply andb_true_iff in H. destruct H as [H _].
    cbn [existsChar]. rewrite (Ascii.eqb_sym d "@"%char), H.
    now rewrite orb_true_r.
  - rewrite (IH H). apply orb_true_r.
Qed.

Lemma whiteSpace_not_mark (c : ascii) :
  isWhiteSpace c = true -> Ascii.eqb "/"%char c = false /\ Ascii.eqb "@"%char c = false.
Proof.
  intros H. split.
  - destruct (Ascii.eqb "/"%char c) eqn:E; [| reflexivity].
    apply Ascii.eqb_eq in E. subst c. discriminate H.
  - destruct (Ascii.eqb "@"%char c) eqn:E; [| reflexivity].
    apply Ascii.eqb_eq in E. subst c. discriminate H.
Qed.

Lemma includes_mark_trimStart (s : string) :
  includes "/@" (trimStart s) = includes "/@" s.
Proof.
  induction s as [| c r IH]; [reflexivity |].
  cbn [trimStart]. destruct (isWhiteSpace c) eqn:W; [| reflexivity].
  rewrite IH. cbn [includes]. rewrite prefix_cons.
  now rewrite (proj1 (whiteSpace_not_mark c W)).
Qed.

Lemma trimEnd_empty (r : string) :
  trimEnd r = EmptyString -> allChars isWhiteSpace r = true.
Proof.
  induction r as [| c r IH]; [reflexivity |].
  cbn [trimEnd allChars]. destruct (trimEnd r) as [| d r'] ; [| discriminate].
  destruct (isWhiteSpace c); [intros _; now rewrite (IH eq_refl) | discriminate].
Qed.

Lemma includes_mark_whiteSpace (r : string) :
  allChars isWhiteSpace r = true -> includes "/@" r = false.
Proof.
  induction r as [| c r IH]; [reflexivity |].
  cbn [allChars includes]. intros H. apply andb_true_iff in H. destruct H as [W H].
  rewrite (IH H), prefix_cons. now rewrite (proj1 (whiteSpace_not_mark c W)).
Qed.

Lemma trimEnd_same_head (r : string) (d : ascii) (r' : string) :
  trimEnd r = String d r' -> exists r0, r = String d r0.
Proof.
  destruct r as [| x r0]; [discriminate |].
  cbn [trimEnd]. destruct (trimEnd r0).
  - destruct (isWhiteSpace x); [discriminate |]. intros H. injection H as <- _. now exists r0.
  - intros H. injection H as <- _. now exists r0.
Qed.

Lemma includes_mark_trimEnd (s : string) :
  includes "/@" (trimEnd s) = includes "/@" s.
Proof.
  induction s as [| c r IH]; [reflexivity |].
  cbn [trimEnd]. destruct (trimEnd r) as [| d r'] eqn:E.
  - pose proof (trimEnd_empty r E) as Hw.
    cbn [includes]. rewrite (includes_mark_whiteSpace r Hw), prefix_cons, orb_false_r.
    assert (Hp : prefix "@" r = false).
    { destruct r as [| x r0]; [reflexivity |].
      cbn [allChars] in Hw. apply andb_true_iff in Hw. destruct Hw as [W _].
      rewrite prefix_cons. now rewrite (proj2 (whiteSpace_not_mark x W)). }
    rewrite Hp, andb_false_r. destruct (isWhiteSpace c); [reflexivity |].
    cbn [includes]. rewrite prefix_cons. now rewrite andb_false_r.
  - destruct (trimEnd_same_head r d r' E) as (r0 & ->).
    cbn [includes] in *. rewrite IH. f_equal.
    rewrite !prefix_cons, !prefix_nil. reflexivity.
Qed.

Lemma mark_after_segment (f rest : string) :
  allChars notSlash f = true ->
  includes "/@" (f ++ "/" ++ rest) = true ->
  existsChar (fun c => Ascii.eqb c "@"%char) rest = true.
Proof.
  induction f as [| c f IH]; intros Hf H.
  - change ("" ++ "/" ++ rest) with (String "/"%char rest) in H.
    cbn [includes] in H. apply orb_true_iff in H. destruct H as [H | H].
    + rewrite prefix_cons in H. apply andb_true_iff in H. destruct H as [_ H].
      destruct rest as [| d r']; [discriminate |].
      rewrite prefix_cons in H. apply andb_true_iff in H. destruct H as [H _].
      cbn [existsChar]. now rewrite (Ascii.eqb_sym d "@"%char), H.
    + now apply includes_mark_at.
  - cbn [allChars] in Hf. apply andb_true_iff in Hf. destruct Hf as [Hc Hf].
    change (String c f ++ "/" ++ rest) with (String c (f ++ "/" ++ rest)) in H.
    cbn [includes] in H. rewrite prefix_cons in H.
    unfold notSlash in Hc. apply negb_true_iff in Hc.
    rewrite (Ascii.eqb_sym "/"%char c), Hc in H. cbn [andb orb] in H.
    exact (IH Hf H).
Qed.

Lemma at_after_strip (s : string) :
  includes "/@" s = true ->
  existsChar (fun c => Ascii.eqb c "@"%char) (stripFileName s) = true.
Proof.
  intros H. rewrite stripFileName_spec. unfold stripLeadingFile.
  pose proof (join_split s) as Hj. pose proof (split_segments_noslash s) as Hseg.
  destruct (split "/"%char s) as [| file [| next more]];
    try (now apply includes_mark_at).
  destruct (endsWithXml file); [| now apply includes_mark_at].
  rewrite join_cons in Hj by discriminate.
  apply Forall_inv in Hseg.
  rewrite <- Hj in H. exact (mark_after_segment file _ Hseg H).
Qed.

Lemma at_replaceDots (s : string) :
  existsChar (fun c => Ascii.eqb c "@"%char) (replaceDots s)
  = existsChar (fun c => Ascii.eqb c "@"%char) s.
Proof.
  induction s as [| c r IH]; [reflexivity |].
  destruct (replaceDots_head c r) as (c' & -> & Hc').
  cbn [existsChar]. rewrite IH. f_equal.
  destruct Hc' as [-> | [-> ->]]; reflexivity.
Qed.

Lemma at_addDescendantPrefix (s : string) :
  existsChar (fun c => Ascii.eqb c "@"%char) (addDescendantPrefix s)
  = existsChar (fun c => Ascii.eqb c "@"%char) s.
Proof.
  unfold addDescendantPrefix.
  destruct (negb (startsWith "/" s) && negb (startsWith "*" s)); reflexivity.
Qed.

Lemma at_survives (sp : string) :
  includes "/@" sp = true -> includes "@" (normalizeXPath sp) = true.
Proof.
  intros H.
  assert (Hne : sp <> EmptyString) by (intros ->; discriminate H).
  unfold normalizeXPath. rewrite (normalizeXPath_nonempty sp Hne). cbn [fst].
  rewrite includes_at, at_addDescendantPrefix, at_replaceDots.
  apply at_after_strip. unfold trim.
  now rewrite includes_mark_trimEnd, includes_mark_trimStart.
Qed.

Lemma parsed_xpath_parse (sp : string) : parsed_xpath (parseSourcePath sp) = sp.
Proof.
  unfold parseSourcePath. destruct (includes "/@" sp); [| reflexivity].
  now destruct (matchAttr (linesOf sp)) as [[a b] |].
Qed.

(** Called with a source path and the parse of that path, as the JSON
    emitter calls it, [validateAndFixXPath] never rebuilds the path from
    the parent path and the attribute name: an attribute path keeps its
    [@] through normalization.  What it returns is the empty path for an
    empty one, the path as it stands when it holds a [:] and does not start
    with [//], and the normalized path otherwise. *)
Theorem validateAndFixXPath_own_parse (sp : string) :
  validateAndFixXPath sp (parseSourcePath sp) =
  if sp =? EmptyString then EmptyString
  else if includes ":" sp && negb (startsWith "//" sp) then sp
  else normalizeXPath sp.
Proof.
  unfold validateAndFixXPath, truthy.
  destruct (sp =? EmptyString) eqn:E; [reflexivity |]. cbn [negb].
  destruct (includes ":" sp && negb (startsWith "//" sp)); [reflexivity |].
  rewrite parsed_xpath_parse.
  assert (Ho : orElse sp sp = sp) by (unfold orElse; now destruct (truthy sp)).
  rewrite Ho.
  destruct (parseSourcePath sp) as [parent attr x |] eqn:P; [| reflexivity].
  assert (Hm : includes "/@" sp = true).
  { unfold parseSourcePath in P. destruct (includes "/@" sp); [reflexivity | discriminate]. }
  now rewrite (at_survives sp Hm), andb_false_r.
Qed.

Lemma normalizeXPath_head (xpath : string) :
  xpath <> EmptyString ->
  exists c r, normalizeXPath xpath = String c r /\ (c = "/"%char \/ c = "*"%char).
Proof.
  intros Hne. unfold normalizeXPath. rewrite (normalizeXPath_nonempty xpath Hne). cbn [fst].
  apply addDescendantPrefix_head.
Qed.

(** A leaf of the JSON output for a field that does not repeat.  After
    normalization the emitter selects exactly the normalized source path,
    for an attribute as for an element (paths that normalize to one
    starting with [*] apart), and announces the field as optional only
    when [required] was given as [false]. *)
Theorem json_leaf_selects_normalized_path (m : Mapping) (leaf indent : string) :
  incomplete m = false ->
  isPlaceholder m = false ->
  (occurs m <= 1)%Z ->
  startsWith "*" (normalizeXPath (sourcePath m)) = false ->
  generateJSONField (leafField (normalizeMapping m) leaf) indent =
  (match required m with
   | Some false => indent ++ "<!-- " ++ escapeXMLName leaf ++ " - Optional field -->" ++ nl
   | _ => EmptyString
   end)
  ++ mapEntryOpen indent (escapeXMLName leaf)
  ++ indent ++ "  <xsl:value-of select=" ++ q (normalizeXPath (sourcePath m)) ++ "/>" ++ nl
  ++ indent ++ "</xsl:map-entry>" ++ nl.
Proof.
  intros Hc Hp Ho Hstar.
  assert (Hne : sourcePath m <> EmptyString).
  { unfold incomplete, truthy in Hc. apply orb_false_iff in Hc. destruct Hc as [Hc _].
    intros E. rewrite E in Hc. discriminate Hc. }
  unfold generateJSONField, leafField, normalizeMapping. rewrite Hc.
  cbn [f_mapping parsed leafName isPlaceholder sourcePath occurs]. rewrite Hp.
  set (y := normalizeXPath (sourcePath m)) in *.
  assert (Hy : validateAndFixXPath y (parseSourcePath y) = y).
  { destruct (normalizeXPath_head (sourcePath m) Hne) as (c & r & E & Hcr).
    fold y in E.
    assert (Hs : startsWith "/" y = true).
    { rewrite E in *. destruct Hcr as [-> | ->]; [now rewrite startsWith_char |].
      rewrite startsWith_char in Hstar. discriminate Hstar. }
    destruct (normalizeXPath_clean (sourcePath m) Hne) as (Ht & Hd). fold y in Ht, Hd.
    pose proof (normalizeXPath_fixed y Hs Ht Hd) as Hfix.
    unfold validateAndFixXPath, truthy. rewrite parsed_xpath_parse.
    replace (y =? EmptyString) with false by (rewrite E; reflexivity). cbn [negb].
    destruct (includes ":" y && negb (startsWith "//" y)); [reflexivity |].
    assert (Hoe : orElse y y = y) by (unfold orElse; now destruct (truthy y)).
    rewrite Hoe, Hfix.
    destruct (parseSourcePath y) as [parent attr x |] eqn:P; [| reflexivity].
    assert (Hm : includes "/@" y = true).
    { unfold parseSourcePath in P. destruct (includes "/@" y); [reflexivity | discriminate]. }
    now rewrite Hm. }
  rewrite Hy.
  replace (1 <? (if (occurs m =? 0)%Z then 1 else occurs m))%Z with false
    by (symmetry; apply Z.ltb_ge; destruct (occurs m =? 0)%Z; lia).
  assert (Hv : (if parsed_isAttribute (parseSourcePath y)
                then indent ++ "  <xsl:value-of select=" ++ q y ++ "/>" ++ nl
                else generateJSONValueSelectEnhanced
                       {| sourcePath := y; sourceType := sourceType m;
                          targetName := targetName m; targetPath := targetPath m;
                          fieldType := orElse (fieldType m) "string";
                          occurs := if (occurs m =? 0)%Z then 1%Z else occurs m;
                          required := Some (match required m with Some false => false | _ => true end);
                          attributes := attributes m; valueType := valueType m;
                          hardcodedValue := hardcodedValue m; forEachPath := forEachPath m;
                          isAttribute := (sourceType m =? "attribute") || includes "/@" (sourcePath m);
                          isPlaceholder := false |}
                       (parseSourcePath y) y (indent ++ "  "))
               = indent ++ "  <xsl:value-of select=" ++ q y ++ "/>" ++ nl).
  { destruct (parsed_isAttribute (parseSourcePath y)); [reflexivity |].
    unfold generateJSONValueSelectEnhanced. now rewrite append_assoc. }
  rewrite Hv. unfold notRequired. cbn [required].
  destruct (required m) as [[|] |]; rewrite !append_assoc; reflexivity.
Qed.

Lemma json_leaf_selects_normalized_path_example :
  generateJSONField
    (leafField (normalizeMapping (uiMapping "orders.xml/Order/@id" "order/id" "string" 1)) "id")
    "  "
  = EmptyString
    ++ mapEntryOpen "  " (escapeXMLName "id")
    ++ "  " ++ "  <xsl:value-of select=" ++ q (normalizeXPath "orders.xml/Order/@id") ++ "/>" ++ nl
    ++ "  " ++ "</xsl:map-entry>" ++ nl.
Proof.
  apply (json_leaf_selects_normalized_path
           (uiMapping "orders.xml/Order/@id" "order/id" "string" 1) "id" "  ");
    [reflexivity | reflexivity | discriminate | reflexivity].
Defined.

(** ** Separators of the Flat record row *)

Lemma fieldBlocks_nonempty (m : Mapping) : fieldBlocks m <> [].
Proof.
  unfold fieldBlocks, occurrences. destruct (1 <? occurs m)%Z eqn:E; [| discriminate].
  apply Z.ltb_lt in E.
  destruct (Z.to_nat (occurs m)) as [| n] eqn:En; [lia | discriminate].
Qed.

Lemma fieldExtractions_inner (delimiter : string) (m : Mapping) :
  fieldExtractions delimiter m false
  = map (withSeparator delimiter) (fieldBlocks m).
Proof.
  unfold fieldExtractions, fieldBlocks, generateFlatFileValueExtraction, withSeparator, separatorText.
  destruct (1 <? occurs m)%Z; [| reflexivity].
  rewrite map_map. apply map_ext. intros i. now rewrite andb_false_r.
Qed.

Lemma fieldExtractions_last (delimiter : string) (m : Mapping) :
  fieldExtractions delimiter m true
  = (map (withSeparator delimiter) (removelast (fieldBlocks m))
     ++ [withSeparator "&#10;" (last (fieldBlocks m) EmptyString)])%list.
Proof.
  unfold fieldExtractions, fieldBlocks, generateFlatFileValueExtraction, withSeparator, separatorText,
    occurrences.
  destruct (1 <? occurs m)%Z eqn:E; [| reflexivity].
  apply Z.ltb_lt in E.
  destruct (Z.to_nat (occurs m)) as [| n] eqn:En; [lia |].
  rewrite seq_S, !map_app. cbn [map].
  rewrite removelast_last, last_last, map_map.
  f_equal.
  - apply map_ext_in. intros i Hi. apply in_seq in Hi.
    replace (Z.of_nat i =? occurs m)%Z with false; [reflexivity |].
    symmetry. apply Z.eqb_neq. lia.
  - replace (Z.of_nat (1 + n) =? occurs m)%Z with true; [reflexivity |].
    symmetry. apply Z.eqb_eq. lia.
Qed.

Lemma last_app_nonempty {A : Type} (l l' : list A) (d : A) :
  l' <> [] -> last (l ++ l') d = last l' d.
Proof.
  intros H. induction l as [| x l IH]; [reflexivity |].
  rewrite <- app_comm_cons. cbn [last]. destruct (l ++ l')%list eqn:E; [| exact IH].
  apply app_eq_nil in E. now destruct E.
Qed.

Lemma flat_map_inner (delimiter : string) (l : list Mapping) :
  flat_map (fun x => fieldExtractions delimiter x false) l
  = map (withSeparator delimiter) (flat_map fieldBlocks l).
Proof.
  induction l as [| m l IH]; [reflexivity |].
  cbn [flat_map]. now rewrite map_app, IH, fieldExtractions_inner.
Qed.

(** The record row of the Flat output ends exactly once: the value blocks
    are the same whatever the delimiter is, every block but the last is
    followed by the delimiter, and the last one by a line feed.  Without
    fields there is no block at all. *)
Theorem flat_row_separators (delimiter : string) (actualFields : list Mapping) :
  let blocks := flat_map fieldBlocks actualFields in
  (actualFields = [] -> valueExtractions delimiter actualFields = []) /\
  (actualFields <> [] ->
   blocks <> [] /\
   valueExtractions delimiter actualFields =
   (map (withSeparator delimiter) (removelast blocks)
    ++ [withSeparator "&#10;" (last blocks EmptyString)])%list).
Proof.
  intros blocks. split; [now intros -> |].
  intros Hne. destruct (exists_last Hne) as (l & m & E). subst blocks. rewrite E.
  rewrite flat_map_app. cbn [flat_map]. rewrite app_nil_r.
  pose proof (fieldBlocks_nonempty m) as Hm.
  split.
  - intros H. apply app_eq_nil in H. now destruct H.
  - rewrite (valueExtractions_app delimiter l [] m). cbn [valueExtractions].
    rewrite app_nil_r, flat_map_inner, fieldExtractions_last.
    rewrite (removelast_app _ Hm), map_app, <- app_assoc.
    rewrite (last_app_nonempty _ _ _ Hm). reflexivity.
Qed.

(** ** What normalization establishes *)

(** [normalizeAllMappings] works mapping by mapping, in place: an
    incomplete mapping comes back as it was, and a complete one comes back
    complete, with its target untouched, a source path that starts with
    [/] or [*], a type, a count other than zero and a [required] flag. *)
Theorem normalizeAllMappings_invariants (fs : list Mapping) :
  Forall2
    (fun m m' =>
       incomplete m' = incomplete m /\
       targetName m' = targetName m /\ targetPath m' = targetPath m /\
       (incomplete m = true -> m' = m) /\
       (incomplete m = false ->
          (startsWith "/" (sourcePath m') || startsWith "*" (sourcePath m')) = true /\
          fieldType m' <> EmptyString /\
          occurs m' <> 0%Z /\
          (occurs m <> 0%Z -> occurs m' = occurs m) /\
          required m' = Some (match required m with Some false => false | _ => true end)))
    fs (normalizeAllMappings fs).
Proof.
  induction fs as [| m fs IH]; [constructor |].
  cbn [normalizeAllMappings map]. constructor; [| exact IH].
  unfold normalizeMapping. destruct (incomplete m) eqn:E.
  - repeat split; try reflexivity; try exact E; discriminate.
  - assert (Hs : sourcePath m <> EmptyString).
    { unfold incomplete, truthy in E. apply orb_false_iff in E. destruct E as [E _].
      intros H. rewrite H in E. discriminate E. }
    destruct (normalizeXPath_head (sourcePath m) Hs) as (c & r & Hn & Hc).
    cbn [targetName targetPath sourcePath fieldType occurs required].
    split.
    { unfold incomplete in *. cbn [sourcePath targetName]. rewrite Hn.
      apply orb_false_iff in E. destruct E as [_ E]. now rewrite E. }
    split; [reflexivity |]. split; [reflexivity |]. split; [discriminate |].
    intros _. rewrite Hn. split.
    { rewrite !startsWith_char.
      destruct Hc as [-> | ->]; reflexivity. }
    split.
    { unfold orElse, truthy. destruct (fieldType m =? EmptyString) eqn:F; cbn [negb].
      - discriminate.
      - intros H. rewrite H in F. discriminate F. }
    split.
    { destruct (occurs m =? 0)%Z eqn:O; [discriminate | now apply Z.eqb_neq]. }
    split; [| reflexivity].
    intros H. apply Z.eqb_neq in H. now rewrite H.
Qed.

(** ** The fields a hierarchy holds *)

Lemma leavesOf_child (key : string) (node : list Entry) :
  leavesOf (EChild key node) = hierarchyLeaves node.
Proof.
  cbn [leavesOf]. induction node as [| e rest IH]; [reflexivity |].
  cbn [hierarchyLeaves flat_map]. now rewrite IH.
Qed.

Lemma leaves_insertIndexed (n : N) (e : Entry) (es : list Entry) :
  Permutation (hierarchyLeaves (insertIndexed n e es)) (leavesOf e ++ hierarchyLeaves es).
Proof.
  induction es as [| e' rest IH]; [reflexivity |].
  cbn [insertIndexed]. destruct (entryIndex e') as [n' |]; [| reflexivity].
  destruct (n <? n')%N; [reflexivity |].
  cbn [hierarchyLeaves flat_map]. fold (hierarchyLeaves (insertIndexed n e rest)).
  fold (hierarchyLeaves rest). rewrite IH.
  rewrite !app_assoc. apply Permutation_app_tail. apply Permutation_app_comm.
Qed.

Lemma leaves_addEntry (e : Entry) (es : list Entry) :
  Permutation (hierarchyLeaves (addEntry e es)) (leavesOf e ++ hierarchyLeaves es).
Proof.
  unfold addEntry. destruct (entryIndex e) as [n |]; [apply leaves_insertIndexed |].
  unfold hierarchyLeaves. rewrite flat_map_app. cbn [flat_map]. rewrite app_nil_r.
  apply Permutation_app_comm.
Qed.

Lemma leaves_pushField (fld : Field) (es : list Entry) :
  hasFields es = true ->
  Permutation (hierarchyLeaves (pushField fld es)) (fld :: hierarchyLeaves es).
Proof.
  induction es as [| e rest IH]; intros H; [discriminate |].
  destruct e as [fs | level name | key node].
  - cbn [pushField hierarchyLeaves flat_map leavesOf].
    rewrite <- app_assoc. cbn [app].
    symmetry. apply Permutation_middle.
  - cbn [pushField hierarchyLeaves flat_map leavesOf app].
    apply IH. exact H.
  - cbn [pushField]. cbn [hierarchyLeaves flat_map].
    fold (hierarchyLeaves (pushField fld rest)). fold (hierarchyLeaves rest).
    rewrite (IH H). symmetry. apply Permutation_middle.
Qed.

Lemma leaves_setChild (fld : Field) (key : string) (node node' es : list Entry) :
  findChild key es = Some node ->
  Permutation (hierarchyLeaves node') (fld :: hierarchyLeaves node) ->
  Permutation (hierarchyLeaves (setChild key node' es)) (fld :: hierarchyLeaves es).
Proof.
  intros Hf Hp. induction es as [| e rest IH]; [discriminate |].
  destruct e as [fs | level name | k old].
  - cbn [findChild] in Hf. cbn [setChild hierarchyLeaves flat_map].
    fold (hierarchyLeaves (setChild key node' rest)). fold (hierarchyLeaves rest).
    rewrite (IH Hf). symmetry. apply Permutation_middle.
  - cbn [findChild] in Hf. cbn [setChild hierarchyLeaves flat_map].
    fold (hierarchyLeaves (setChild key node' rest)). fold (hierarchyLeaves rest).
    rewrite (IH Hf). symmetry. apply Permutation_middle.
  - cbn [findChild] in Hf. cbn [setChild].
    destruct (k =? key).
    + injection Hf as ->.
      cbn [hierarchyLeaves flat_map]. fold (hierarchyLeaves rest).
      rewrite !leavesOf_child, Hp. reflexivity.
    + cbn [hierarchyLeaves flat_map].
      fold (hierarchyLeaves (setChild key node' rest)). fold (hierarchyLeaves rest).
      rewrite (IH Hf). symmetry. apply Permutation_middle.
Qed.

Lemma placeField_leaves (fld : Field) (parts : list string) :
  forall (index : nat) (es : list Entry),
    parts <> [] ->
    forallb plainSegment (removeLast parts) = true ->
    exists es', placeField fld index parts es pristine = (Returned es', pristine) /\
                Permutation (hierarchyLeaves es') (fld :: hierarchyLeaves es).
Proof.
  induction parts as [| part rest IH]; intros index es Hne H; [contradiction |].
  destruct rest as [| part' rest'].
  - cbn [placeField]. destruct (hasFields es) eqn:Hf.
    + eexists. split; [reflexivity | now apply leaves_pushField].
    + cbn [proto_fields pristine]. eexists. split; [reflexivity |].
      apply (leaves_addEntry (EFields [fld]) es).
  - change (removeLast (part :: part' :: rest'))
      with (part :: removeLast (part' :: rest')) in H.
    cbn [forallb] in H. apply andb_true_iff in H. destruct H as [Hp Hrest].
    unfold plainSegment in Hp. apply andb_true_iff in Hp. destruct Hp as [Hres Hproto].
    apply negb_true_iff in Hres, Hproto.
    change (placeField fld index (part :: part' :: rest') es pristine) with
      (if isReserved part then (Unmodelled, pristine)
       else if part =? "__proto__" then
         match part' :: rest' with
         | [_] => (Returned es, {| proto_fields := true |})
         | _ => (Unmodelled, pristine)
         end
       else
         match findChild part es with
         | Some node =>
             match placeField fld (S index) (part' :: rest') node pristine with
             | (Returned node', r') => (Returned (setChild part node' es), r')
             | other => other
             end
         | None =>
             match placeField fld (S index) (part' :: rest') [EMeta index part] pristine with
             | (Returned node', r') => (Returned (addEntry (EChild part node') es), r')
             | other => other
             end
         end).
    rewrite Hres, Hproto.
    destruct (findChild part es) as [node |] eqn:Hf.
    + destruct (IH (S index) node ltac:(discriminate) Hrest) as (node' & -> & Hperm).
      eexists. split; [reflexivity |]. exact (leaves_setChild fld part node node' es Hf Hperm).
    + destruct (IH (S index) [EMeta index part] ltac:(discriminate) Hrest)
        as (node' & -> & Hperm).
      eexists. split; [reflexivity |].
      rewrite leaves_addEntry, leavesOf_child, Hperm. reflexivity.
Qed.

Lemma buildFrom_leaves (mk : Mapping -> string -> Field) (ms : list Mapping) :
  forall h : Hierarchy,
    plainTargets ms = true ->
    exists h', buildFrom mk ms h pristine = (Returned h', pristine) /\
               Permutation (hierarchyLeaves h')
                 (hierarchyLeaves h
                  ++ map (fun m => mk m (last (split "/"%char (effectivePath m)) EmptyString))
                         (filter complete ms)).
Proof.
  induction ms as [| m ms IH]; intros h H.
  - exists h. split; [reflexivity |]. cbn [filter map]. now rewrite app_nil_r.
  - cbn [plainTargets forallb] in H. apply andb_true_iff in H. destruct H as [Hm Hms].
    cbn [buildFrom filter]. unfold complete at 1. destruct (incomplete m); cbn [negb].
    + now apply IH.
    + destruct (placeField_leaves
                  (mk m (last (split "/"%char (effectivePath m)) EmptyString))
                  (split "/"%char (effectivePath m)) 0 h (split_nonempty _ _) Hm)
        as (h1 & -> & Hp1).
      destruct (IH h1 Hms) as (h' & E & Hp). exists h'. split; [exact E |].
      rewrite Hp, Hp1. cbn [map]. apply Permutation_middle.
Qed.

(** On a fresh realm and plain target paths the hierarchy loses nothing
    and invents nothing: the fields it holds are the complete mappings of
    the list, each stored once under the last segment of its target path
    and with the parse of its source path. *)
Theorem hierarchy_holds_the_complete_mappings (ms : list Mapping) :
  plainTargets ms = true ->
  exists h,
    buildHierarchyForInlineGeneration ms pristine = (Returned h, pristine) /\
    buildJSONHierarchyEnhanced ms pristine = (Returned h, pristine) /\
    Permutation (hierarchyLeaves h)
      (map (fun m => {| f_mapping := m;
                        leafName := last (split "/"%char (effectivePath m)) EmptyString;
                        parsed := parseSourcePath (sourcePath m) |})
           (filter complete ms)).
Proof.
  intros H. destruct (buildFrom_leaves leafField ms [] H) as (h & E & Hp).
  exists h. split; [exact E |]. split; [exact E |]. exact Hp.
Qed.

Lemma hierarchy_holds_the_complete_mappings_example :
  exists h,
    buildHierarchyForInlineGeneration (fields scenarioB) pristine = (Returned h, pristine) /\
    buildJSONHierarchyEnhanced (fields scenarioB) pristine = (Returned h, pristine) /\
    Permutation (hierarchyLeaves h)
      (map (fun m => {| f_mapping := m;
                        leafName := last (split "/"%char (effectivePath m)) EmptyString;
                        parsed := parseSourcePath (sourcePath m) |})
           (filter complete (fields scenarioB))).
Proof. exact (hierarchy_holds_the_complete_mappings (fields scenarioB) eq_refl). Defined.

(** ** The paths read from a document *)

Lemma addPath_spec (p : string) (info : PathInfo) (st : PathState) :
  pi_path info = p ->
  fst st = map pi_path (snd st) ->
  fst (addPath p info st) = map pi_path (snd (addPath p info st)) /\
  fst (addPath p info st) = setAdd p (fst st).
Proof.
  intros Hp Hst. unfold addPath, setAdd, setHas.
  destruct (existsb (String.eqb p) (fst st)); [now split |].
  cbn [fst snd]. rewrite map_app, Hst. cbn [map]. now rewrite Hp.
Qed.

Lemma addAttributes_spec (newPath : string) (attrs : list (string * string)) :
  forall st : PathState,
    fst st = map pi_path (snd st) ->
    let st' :=
      fold_left
        (fun st attr =>
           addPath (ai_path attr)
             (AttributePath (ai_path attr) (ai_name attr) newPath
                (substring 0 50 (ai_value attr))) st)
        (attributeInfosOf newPath attrs) st in
    fst st' = map pi_path (snd st') /\
    fst st' = fold_left (fun acc p => setAdd p acc)
                (map (fun attr => attributePath newPath (fst attr)) attrs) (fst st).
Proof.
  induction attrs as [| a attrs IH]; intros st Hst; [now split |].
  cbn [attributeInfosOf map fold_left ai_path ai_name ai_value].
  destruct (addPath_spec (attributePath newPath (fst a))
              (AttributePath (attributePath newPath (fst a)) (fst a) newPath
                 (substring 0 50 (snd a))) st eq_refl Hst) as (H1 & H2).
  destruct (IH _ H1) as (H3 & H4). split; [exact H3 |].
  cbv zeta in H4. unfold attributeInfosOf in H4. rewrite H4, H2. reflexivity.
Qed.

Lemma traverse_spec (node : DomNode) :
  forall (currentPath : string) (st : PathState),
    fst st = map pi_path (snd st) ->
    fst (traverse node currentPath st) = map pi_path (snd (traverse node currentPath st)) /\
    fst (traverse node currentPath st)
    = fold_left (fun acc p => setAdd p acc) (documentPaths node currentPath) (fst st).
Proof.
  induction node as [nodeName attrs childNodes IH | data |] using DomNode_induction;
    intros currentPath st Hst; [| now split | now split].
  cbn [traverse documentPaths].
  set (newPath := childPath currentPath nodeName).
  set (info := ElementPath newPath nodeName _ _ _ _).
  destruct (addPath_spec newPath info st eq_refl Hst) as (H1 & H2).
  destruct (addAttributes_spec newPath attrs _ H1) as (H3 & H4). cbv zeta in H3, H4.
  set (st2 := fold_left _ (attributeInfosOf newPath attrs) (addPath newPath info st)) in *.
  cbn [fold_left]. rewrite fold_left_app, <- H2, <- H4.
  clearbody st2. clear H1 H2 H4 info Hst st.
  revert st2 H3. induction IH as [| c rest Hc _ IHrest]; intros st2 H3; [now split |].
  destruct c as [n a cs | d |].
  - destruct (Hc newPath st2 H3) as (H5 & H6).
    destruct (IHrest _ H5) as (H7 & H8). split; [exact H7 |].
    rewrite H8, H6, fold_left_app. reflexivity.
  - exact (IHrest st2 H3).
  - exact (IHrest st2 H3).
Qed.

(** Every path of the document is listed once, at its first place in
    document order: the paths of the returned entries are the paths of the
    elements and attributes of the document with the repetitions
    removed. *)
Theorem extractPaths_each_path_once (xmlDoc : Document) :
  let listed := map pi_path (extractPaths xmlDoc) in
  let all := documentPaths (documentElement xmlDoc) EmptyString in
  listed = fold_left (fun acc p => setAdd p acc) all [] /\
  NoDup listed /\
  (forall p, In p listed <-> In p all).
Proof.
  intros listed all.
  destruct (traverse_spec (documentElement xmlDoc) EmptyString ([], []) eq_refl) as (H1 & H2).
  assert (E : listed = fold_left (fun acc p => setAdd p acc) all []).
  { subst listed all. unfold extractPaths. now rewrite <- H1, H2. }
  split; [exact E |]. rewrite E. split.
  - apply addAll_NoDup. constructor.
  - intros p. rewrite addAll_In. split; [intros [H | []]; exact H | now left].
Qed.

(** ** From the extracted paths to the parsed source paths *)

Lemma allChars_app (p : ascii -> bool) (a b : string) :
  allChars p (a ++ b) = allChars p a && allChars p b.
Proof.
  induction a as [| c a IH]; [reflexivity |].
  cbn [append allChars]. now rewrite IH, andb_assoc.
Qed.

Lemma allChars_impl (p p' : ascii -> bool) (s : string) :
  (forall c, p c = true -> p' c = true) -> allChars p s = true -> allChars p' s = true.
Proof.
  intros Hpp. induction s as [| c s IH]; [reflexivity |].
  cbn [allChars]. intros H. apply andb_true_iff in H. destruct H as [Hc Hs].
  now rewrite (Hpp c Hc), (IH Hs).
Qed.

Lemma allChars_join (p : ascii -> bool) (l : list string) :
  p "/"%char = true -> Forall (fun s => allChars p s = true) l ->
  allChars p (join "/" l) = true.
Proof.
  intros Hs Hl. induction Hl as [| x l Hx Hl IH]; [reflexivity |].
  destruct l as [| y l']; [exact Hx |].
  rewrite join_cons by discriminate.
  rewrite !allChars_app, Hx, IH. cbn [allChars]. now rewrite Hs.
Qed.

Lemma existsChar_none (p : ascii -> bool) (s : string) :
  allChars (fun c => negb (p c)) s = true -> existsChar p s = false.
Proof.
  induction s as [| c s IH]; [reflexivity |].
  cbn [allChars existsChar]. intros H. apply andb_true_iff in H. destruct H as [Hc Hs].
  apply negb_true_iff in Hc. now rewrite Hc, (IH Hs).
Qed.

Lemma trimEnd_noWhiteSpace (s : string) :
  allChars (fun c => negb (isWhiteSpace c)) s = true -> trimEnd s = s.
Proof.
  induction s as [| c s IH]; [reflexivity |].
  cbn [allChars]. intros H. apply andb_true_iff in H. destruct H as [Hc Hs].
  apply negb_true_iff in Hc. apply trimEnd_cons; [exact (IH Hs) | now intros _].
Qed.

Lemma replaceDots_noDots (s : string) :
  allChars (fun c => negb (Ascii.eqb c "."%char)) s = true -> replaceDots s = s.
Proof.
  induction s as [| c s IH]; [reflexivity |].
  cbn [allChars]. intros H. apply andb_true_iff in H. destruct H as [Hc Hs].
  apply negb_true_iff in Hc. cbn [replaceDots]. now rewrite Hc, (IH Hs).
Qed.

Lemma matchesXmlSlash_dot (s : string) :
  matchesXmlSlash s = true -> exists r, s = String "."%char r.
Proof.
  destruct s as [| d [| x [| m [| l [| sl r]]]]]; try discriminate.
  cbn [matchesXmlSlash]. intros H.
  destruct (Ascii.eqb d "."%char) eqn:E; [| discriminate].
  apply Ascii.eqb_eq in E. subst d. eauto.
Qed.

Lemma stripFileName_noDots (s : string) :
  allChars (fun c => negb (Ascii.eqb c "."%char)) s = true -> stripFileName s = s.
Proof.
  intros H. unfold stripFileName.
  rewrite (stripAt_none s); [reflexivity |].
  intros j _. destruct (matchesXmlSlash (dropChars j s)) eqn:E; [| reflexivity].
  destruct (matchesXmlSlash_dot _ E) as (r & Hr).
  pose proof (dropChars_allChars _ j s H) as Hd. rewrite Hr in Hd. discriminate Hd.
Qed.

Lemma normalizeXPath_plain (c : ascii) (r : string) :
  allChars (fun c => negb (isWhiteSpace c)) (String c r) = true ->
  allChars (fun c => negb (Ascii.eqb c "."%char)) (String c r) = true ->
  Ascii.eqb c "/"%char = false -> Ascii.eqb c "*"%char = false ->
  normalizeXPath (String c r) = "//" ++ String c r.
Proof.
  intros Hw Hd Hs Hstar.
  unfold normalizeXPath. rewrite normalizeXPath_nonempty by discriminate. cbn [fst].
  assert (Ht : trim (String c r) = String c r).
  { unfold trim. cbn [trimStart].
    pose proof Hw as Hw'. cbn [allChars] in Hw'. apply andb_true_iff in Hw'.
    destruct Hw' as [Hc _]. apply negb_true_iff in Hc. rewrite Hc.
    now apply trimEnd_noWhiteSpace. }
  rewrite Ht, (stripFileName_noDots _ Hd), (replaceDots_noDots _ Hd).
  unfold addDescendantPrefix. rewrite !startsWith_char.
  rewrite (Ascii.eqb_sym "/"%char c), (Ascii.eqb_sym "*"%char c), Hs, Hstar. reflexivity.
Qed.

Lemma plainNameChar_spec (c : ascii) :
  plainNameChar c = true ->
  isWhiteSpace c = false /\ Ascii.eqb c "/"%char = false /\ Ascii.eqb c "@"%char = false /\
  Ascii.eqb c "."%char = false /\ Ascii.eqb c "*"%char = false.
Proof.
  unfold plainNameChar. intros H.
  repeat (apply andb_true_iff in H; destruct H as [H ?]).
  repeat split; now apply negb_true_iff.
Qed.

Lemma plainName_spec (name : string) :
  plainName name = true ->
  exists c r, name = String c r /\ plainNameChar c = true /\ allChars plainNameChar name = true.
Proof.
  unfold plainName. intros H. apply andb_true_iff in H. destruct H as [Ht Ha].
  destruct name as [| c r]; [discriminate |].
  exists c, r. split; [reflexivity |]. split; [| exact Ha].
  cbn [allChars] in Ha. apply andb_true_iff in Ha. now destruct Ha.
Qed.

Lemma childPath_join (segs : list string) (name : string) :
  Forall (fun s => plainName s = true) segs ->
  childPath (join "/" segs) name = join "/" (segs ++ [name]).
Proof.
  intros Hs. unfold childPath. destruct segs as [| x l]; [reflexivity |].
  assert (Hne : truthy (join "/" (x :: l)) = true).
  { apply Forall_inv in Hs. destruct (plainName_spec x Hs) as (c & r & -> & _).
    destruct l; [reflexivity |]. rewrite join_cons by discriminate. reflexivity. }
  rewrite Hne. rewrite join_app by discriminate. reflexivity.
Qed.

Lemma plain_join_chars (segs : list string) (p : ascii -> bool) :
  (forall c, plainNameChar c = true -> p c = true) -> p "/"%char = true ->
  Forall (fun s => plainName s = true) segs ->
  allChars p (join "/" segs) = true.
Proof.
  intros Hp Hs Hl. apply allChars_join; [exact Hs |].
  apply Forall_impl with (2 := Hl). intros s H.
  destruct (plainName_spec s H) as (_ & _ & _ & _ & Ha).
  exact (allChars_impl _ _ _ Hp Ha).
Qed.

Lemma plain_join_head (x : string) (l : list string) :
  plainName x = true ->
  exists c r, join "/" (x :: l) = String c r /\ plainNameChar c = true.
Proof.
  intros H. destruct (plainName_spec x H) as (c & r & -> & Hc & _).
  destruct l as [| y l'].
  - now exists c, r.
  - rewrite join_cons by discriminate. now exists c, (r ++ "/" ++ join "/" (y :: l')).
Qed.

(** What the invariant of the traversal says about one entry. *)
Lemma element_path_parses (segs : list string) (name : string) :
  Forall (fun s => plainName s = true) segs -> plainName name = true ->
  let path := join "/" (segs ++ [name]) in
  normalizeXPath path = "//" ++ path /\
  parseSourcePath ("//" ++ path) = PElement (join "/" segs) name ("//" ++ path).
Proof.
  intros Hs Hn path.
  assert (Hall : Forall (fun s => plainName s = true) (segs ++ [name])).
  { apply Forall_app. split; [exact Hs | now constructor]. }
  assert (Hhead : exists c r, path = String c r /\ plainNameChar c = true).
  { subst path. destruct segs as [| x l].
    - apply (plain_join_head name []). exact Hn.
    - apply (plain_join_head x (l ++ [name])). now apply Forall_inv in Hs. }
  destruct Hhead as (c & r & E & Hc).
  destruct (plainNameChar_spec c Hc) as (Hw & Hsl & Hat & Hdot & Hstar).
  split.
  - rewrite E. apply normalizeXPath_plain; try assumption; rewrite <- E.
    + apply plain_join_chars; [| reflexivity | exact Hall].
      intros c0 H0. destruct (plainNameChar_spec c0 H0) as (-> & _). reflexivity.
    + apply plain_join_chars; [| reflexivity | exact Hall].
      intros c0 H0. destruct (plainNameChar_spec c0 H0) as (_ & _ & _ & -> & _). reflexivity.
  - unfold parseSourcePath.
    assert (Hno : includes "/@" ("//" ++ path) = false).
    { destruct (includes "/@" ("//" ++ path)) eqn:I; [| reflexivity].
      apply includes_mark_at in I.
      rewrite existsChar_none in I; [discriminate I |].
      change ("//" ++ path) with (String "/"%char (String "/"%char path)).
      cbn [allChars]. cbn [Ascii.eqb Bool.eqb negb andb].
      apply plain_join_chars; [| reflexivity | exact Hall].
      intros c0 H0. destruct (plainNameChar_spec c0 H0) as (_ & _ & -> & _). reflexivity. }
    rewrite Hno.
    assert (Hstrip : stripLeadingSlashes ("//" ++ path) = path).
    { unfold stripLeadingSlashes.
      replace (startsWith "//" ("//" ++ path)) with true
        by (symmetry; apply (prefix_app "//" path)).
      change (dropChars 2 ("//" ++ path)) with path.
      rewrite E, startsWith_char, (Ascii.eqb_sym "/"%char c), Hsl. reflexivity. }
    rewrite Hstrip. subst path.
    rewrite split_join.
    + rewrite removeLast_firstn, length_app. cbn [List.length].
      replace (List.length segs + 1 - 1)%nat with (List.length segs + 0)%nat by lia.
      rewrite firstn_app_2. cbn [firstn]. rewrite app_nil_r, last_last. reflexivity.
    + destruct segs; discriminate.
    + apply Forall_impl with (2 := Hall). intros s H.
      destruct (plainName_spec s H) as (_ & _ & _ & _ & Ha).
      apply (allChars_impl plainNameChar); [| exact Ha].
      intros c0 H0. unfold notSlash.
      destruct (plainNameChar_spec c0 H0) as (_ & -> & _). reflexivity.
Qed.

Lemma attribute_path_parses (segs : list string) (name : string) :
  segs <> [] ->
  Forall (fun s => plainName s = true) segs -> plainName name = true ->
  let parent := join "/" segs in
  let path := attributePath parent name in
  normalizeXPath path = "//" ++ path /\
  parseSourcePath ("//" ++ path) = PAttribute ("//" ++ parent) name ("//" ++ path).
Proof.
  intros Hne Hs Hn parent path.
  destruct segs as [| x l]; [contradiction |].
  destruct (plain_join_head x l (Forall_inv Hs)) as (c & r & E & Hc).
  fold parent in E.
  destruct (plainNameChar_spec c Hc) as (Hw & Hsl & Hat & Hdot & Hstar).
  destruct (plainName_spec name Hn) as (c' & r' & En & _ & Han).
  assert (Hchars : forall p : ascii -> bool,
             (forall c, plainNameChar c = true -> p c = true) ->
             p "/"%char = true -> p "@"%char = true -> allChars p path = true).
  { intros p Hp H1 H2. unfold path, parent, attributePath.
    rewrite !allChars_app. cbn [allChars]. rewrite H1, H2.
    rewrite (plain_join_chars (x :: l) p Hp H1 Hs).
    now rewrite (allChars_impl _ _ _ Hp Han). }
  assert (Epath : path = String c (r ++ "/@" ++ name)).
  { unfold path, attributePath. now rewrite E. }
  split.
  - rewrite Epath. apply normalizeXPath_plain; try assumption; rewrite <- Epath.
    + apply Hchars; [| reflexivity | reflexivity].
      intros c0 H0. destruct (plainNameChar_spec c0 H0) as (-> & _). reflexivity.
    + apply Hchars; [| reflexivity | reflexivity].
      intros c0 H0. destruct (plainNameChar_spec c0 H0) as (_ & _ & _ & -> & _). reflexivity.
  - assert (Eq : "//" ++ path = ("//" ++ parent) ++ "/@" ++ name).
    { unfold path, attributePath. now rewrite append_assoc. }
    rewrite Eq. unfold parseSourcePath.
    rewrite includes_app, linesOf_single.
    + cbn [matchAttr].
      assert (Hname : includes "/@" name = false).
      { destruct (includes "/@" name) eqn:I; [| reflexivity].
        apply includes_mark_at in I. rewrite existsChar_none in I; [discriminate I |].
        apply (allChars_impl plainNameChar); [| exact Han].
        intros c0 H0. destruct (plainNameChar_spec c0 H0) as (_ & _ & -> & _). reflexivity. }
      assert (Hname' : name <> EmptyString) by (rewrite En; discriminate).
      rewrite (lastAttrMark_app ("//" ++ parent) _ _ _
                 (lastAttrMark_mark name Hname' (lastAttrMark_none name Hname))).
      rewrite append_nil_r. reflexivity.
    + rewrite <- Eq. apply existsChar_none.
      change ("//" ++ path) with (String "/"%char (String "/"%char path)).
      cbn [allChars]. change (negb (isLineTerminator "/"%char)) with true. cbn [andb].
      apply Hchars; [| reflexivity | reflexivity].
      intros c0 H0. destruct (plainNameChar_spec c0 H0) as (Hws & _).
      unfold isWhiteSpace in Hws. unfold isLineTerminator.
      apply orb_false_iff in Hws. destruct Hws as [Hws _].
      apply orb_false_iff in Hws. destruct Hws as [Hws _].
      unfold charIn in Hws. apply negb_true_iff. apply orb_false_iff.
      destruct (Nat.eqb_spec (nat_of_ascii c0) 10) as [E10 | N10];
        [rewrite E10 in Hws; discriminate Hws |].
      destruct (Nat.eqb_spec (nat_of_ascii c0) 13) as [E13 | N13];
        [rewrite E13 in Hws; discriminate Hws |].
      now split.
Qed.

Lemma addPath_wellFormed (p : string) (info : PathInfo) (st : PathState) :
  wellFormedInfo info -> Forall wellFormedInfo (snd st) ->
  Forall wellFormedInfo (snd (addPath p info st)).
Proof.
  intros Hi Hst. unfold addPath. destruct (setHas p (fst st)); [exact Hst |].
  cbn [snd]. apply Forall_app. split; [exact Hst | now constructor].
Qed.

Lemma addAttributes_wellFormed (segs : list string) (attrs : list (string * string)) :
  segs <> [] -> Forall (fun s => plainName s = true) segs ->
  forallb (fun attr => plainName (fst attr)) attrs = true ->
  forall st : PathState,
    Forall wellFormedInfo (snd st) ->
    Forall wellFormedInfo
      (snd (fold_left
              (fun st attr =>
                 addPath (ai_path attr)
                   (AttributePath (ai_path attr) (ai_name attr) (join "/" segs)
                      (substring 0 50 (ai_value attr))) st)
              (attributeInfosOf (join "/" segs) attrs) st)).
Proof.
  intros Hne Hs. induction attrs as [| a attrs IH]; intros Ha st Hst; [exact Hst |].
  cbn [forallb] in Ha. apply andb_true_iff in Ha. destruct Ha as [Ha Hrest].
  cbn [attributeInfosOf map fold_left ai_path ai_name ai_value].
  apply (IH Hrest). apply addPath_wellFormed; [| exact Hst].
  exists segs. repeat split; assumption.
Qed.

Lemma traverse_wellFormed (node : DomNode) :
  forall (segs : list string) (st : PathState),
    plainNames node = true ->
    Forall (fun s => plainName s = true) segs ->
    Forall wellFormedInfo (snd st) ->
    Forall wellFormedInfo (snd (traverse node (join "/" segs) st)).
Proof.
  induction node as [nodeName attrs childNodes IH | data |] using DomNode_induction;
    intros segs st Hp Hs Hst; [| exact Hst | exact Hst].
  cbn [plainNames] in Hp. apply andb_true_iff in Hp. destruct Hp as [Hp Hchildren].
  apply andb_true_iff in Hp. destruct Hp as [Hname Hattrs].
  cbn [traverse]. rewrite (childPath_join segs nodeName Hs).
  assert (Hs' : Forall (fun s => plainName s = true) (segs ++ [nodeName])).
  { apply Forall_app. split; [exact Hs | now constructor]. }
  assert (Hne : (segs ++ [nodeName])%list <> []) by (destruct segs; discriminate).
  set (info := ElementPath _ nodeName _ _ _ _).
  assert (H1 : Forall wellFormedInfo (snd (addPath (join "/" (segs ++ [nodeName])) info st))).
  { apply addPath_wellFormed; [| exact Hst]. exists segs. repeat split; assumption. }
  pose proof (addAttributes_wellFormed (segs ++ [nodeName]) attrs Hne Hs' Hattrs _ H1) as H2.
  set (st2 := fold_left _ (attributeInfosOf _ attrs) _) in *.
  clearbody st2. clear H1 info Hst st.
  revert st2 H2 Hchildren.
  induction IH as [| c rest Hc _ IHrest]; intros st2 H2 Hchildren; [exact H2 |].
  apply andb_true_iff in Hchildren. destruct Hchildren as [Hpc Hprest].
  destruct c as [n a cs | d |].
  - apply IHrest; [| exact Hprest]. exact (Hc _ st2 Hpc Hs' H2).
  - now apply IHrest.
  - now apply IHrest.
Qed.

Lemma extractPaths_wellFormed (xmlDoc : Document) :
  plainDocument xmlDoc = true -> Forall wellFormedInfo (extractPaths xmlDoc).
Proof.
  intros H. unfold extractPaths.
  exact (traverse_wellFormed (documentElement xmlDoc) [] ([], []) H
           (Forall_nil _) (Forall_nil _)).
Qed.

(** The paths the reader extracts are paths the generator understands.
    In a document whose names hold no white space, [/], [@], [.] or [*],
    the normalizer only puts [//] before an extracted path, and the path
    parser takes the result apart the way the reader put it together: an
    attribute path into the path of its element and the attribute name, an
    element path into the path of the parent and the element name. *)
Theorem extracted_paths_parse_back (xmlDoc : Document) :
  plainDocument xmlDoc = true ->
  Forall
    (fun info =>
       normalizeXPath (pi_path info) = "//" ++ pi_path info /\
       match info with
       | AttributePath path name parentPath _ =>
           parseSourcePath ("//" ++ path) = PAttribute ("//" ++ parentPath) name ("//" ++ path)
       | ElementPath path name _ _ _ _ =>
           exists parent,
             path = childPath parent name /\
             parseSourcePath ("//" ++ path) = PElement parent name ("//" ++ path)
       end)
    (extractPaths xmlDoc).
Proof.
  intros H. apply Forall_impl with (2 := extractPaths_wellFormed xmlDoc H).
  intros [path name hasText hasChildren infos sample | path name parentPath sample].
  - intros (segs & Hs & Hn & ->).
    destruct (element_path_parses segs name Hs Hn) as (E1 & E2).
    split; [exact E1 |]. exists (join "/" segs). split; [| exact E2].
    symmetry. exact (childPath_join segs name Hs).
  - intros (segs & Hne & Hs & Hn & -> & ->).
    exact (attribute_path_parses segs name Hne Hs Hn).
Qed.

Lemma extracted_paths_parse_back_example :
  Forall
    (fun info =>
       normalizeXPath (pi_path info) = "//" ++ pi_path info /\
       match info with
       | AttributePath path name parentPath _ =>
           parseSourcePath ("//" ++ path) = PAttribute ("//" ++ parentPath) name ("//" ++ path)
       | ElementPath path name _ _ _ _ =>
           exists parent,
             path = childPath parent name /\
             parseSourcePath ("//" ++ path) = PElement parent name ("//" ++ path)
       end)
    (extractPaths sampleDocument).
Proof. exact (extracted_paths_parse_back sampleDocument eq_refl). Defined.

(** A name with a dot in it, which XML allows, does not survive: the
    normalizer takes the dot for a path separator. *)
Example dotted_name_is_split :
  extractPaths (mkDocument "app.config" [] []) =
    [ElementPath "app.config" "app.config" false false [] EmptyString] /\
  normalizeXPath "app.config" = "//app/config".
Proof. split; reflexivity. Qed.

(** ** Auto-mapped paths *)

Lemma replaceChar_absent (c d : ascii) (s : string) :
  allChars (fun x => negb (Ascii.eqb x c)) s = true -> replaceChar c d s = s.
Proof.
  unfold replaceChar. induction s as [| x s IH]; [reflexivity |].
  cbn [allChars mapChars]. intros H. apply andb_true_iff in H. destruct H as [Hx Hs].
  apply negb_true_iff in Hx. now rewrite Hx, (IH Hs).
Qed.

Lemma plainName_noSlash (name : string) :
  plainName name = true -> allChars notSlash name = true.
Proof.
  intros H. destruct (plainName_spec name H) as (_ & _ & _ & _ & Ha).
  apply (allChars_impl plainNameChar); [| exact Ha].
  intros c Hc. unfold notSlash. destruct (plainNameChar_spec c Hc) as (_ & -> & _). reflexivity.
Qed.

Lemma wellFormedInfo_names (info : PathInfo) :
  wellFormedInfo info ->
  plainName (pi_name info) = true /\ pi_path info <> EmptyString.
Proof.
  destruct info as [path name hasText hasChildren infos sample | path name parentPath sample];
    cbn [wellFormedInfo pi_name pi_path].
  - intros (segs & Hs & Hn & ->). split; [exact Hn |].
    destruct segs as [| x l].
    + destruct (plainName_spec name Hn) as (c & r & -> & _). discriminate.
    + destruct (plain_join_head x (l ++ [name]) (Forall_inv Hs)) as (c & r & E & _).
      rewrite <- app_comm_cons, E. discriminate.
  - intros (segs & Hne & Hs & Hn & -> & ->). split; [exact Hn |].
    destruct segs as [| x l]; [contradiction |].
    destruct (plain_join_head x l (Forall_inv Hs)) as (c & r & E & _).
    unfold attributePath. rewrite E. discriminate.
Qed.

Lemma autoMap_shape (paths : list PathInfo) :
  Forall wellFormedInfo paths ->
  Forall (fun m => incomplete m = false /\ plainTarget m = true /\
                   isPlaceholder (normalizeMapping m) = false /\
                   headerColumns (normalizeMapping m) = [targetName m])
         (autoMap paths).
Proof.
  intros H. unfold autoMap. apply Forall_map.
  apply Forall_firstn. apply Forall_impl with (2 := H).
  intros info Hi. destruct (wellFormedInfo_names info Hi) as (Hn & Hp).
  pose proof (plainName_noSlash _ Hn) as Hslash.
  destruct (plainName_spec _ Hn) as (c & r & En & _).
  assert (Hinc : incomplete
                   {| sourcePath := pi_path info; sourceType := pi_type info;
                      targetName := pi_name info; targetPath := pi_name info;
                      fieldType := "string"; occurs := 1; required := Some true;
                      attributes := []; valueType := EmptyString;
                      hardcodedValue := EmptyString; forEachPath := EmptyString;
                      isAttribute := false; isPlaceholder := false |} = false).
  { unfold incomplete, truthy. cbn [sourcePath targetName]. rewrite En.
    destruct (pi_path info) as [| c0 r0]; [contradiction | reflexivity]. }
  assert (Heff : orElse (pi_name info) (pi_name info) = pi_name info)
    by (unfold orElse; now destruct (truthy (pi_name info))).
  split; [exact Hinc |]. split.
  - unfold plainTarget, effectivePath. cbn [targetPath targetName].
    now rewrite Heff, (split_noslash _ Hslash).
  - unfold normalizeMapping. rewrite Hinc. cbn [isPlaceholder]. split; [reflexivity |].
    unfold headerColumns, effectivePath. cbn [occurs targetPath targetName].
    rewrite Heff. change (1 <? 1)%Z with false. cbv iota.
    rewrite replaceChar_absent; [reflexivity | exact Hslash].
Qed.

(** The quick action of the mapping editor never produces a mapping set
    the generator would stumble over.  For a document with plain names,
    the mappings made from the first five extracted paths are complete,
    the XML and the JSON emitter return a stylesheet and leave the realm
    alone, whatever the root path and the record path are, and the header
    row of the Flat output lists the names of those paths, one column
    each. *)
Theorem autoMap_is_accepted (xmlDoc : Document) (mappings : MappingSet) (ns : Namespaces) :
  plainDocument xmlDoc = true ->
  fields mappings = autoMap (extractPaths xmlDoc) ->
  Forall (fun m => incomplete m = false) (fields mappings) /\
  (exists xml, generateXMLTransform mappings ns pristine = (Returned xml, pristine)) /\
  (exists json, generateJSONTransform mappings ns pristine = (Returned json, pristine)) /\
  headerParts (flatFields mappings) = map pi_name (firstn 5 (extractPaths xmlDoc)).
Proof.
  intros H Hfields.
  pose proof (autoMap_shape _ (extractPaths_wellFormed xmlDoc H)) as Hshape.
  rewrite <- Hfields in Hshape.
  assert (Hplain : plainTargets (fields mappings) = true).
  { unfold plainTargets. apply forallb_forall.
    rewrite Forall_forall in Hshape. intros m Hm. now destruct (Hshape m Hm) as (_ & ? & _). }
  split; [| split; [| split]].
  - apply Forall_impl with (2 := Hshape). now intros m (? & _).
  - destruct (generateXMLTransform_plain mappings ns pristine Hplain) as (body & E).
    eauto.
  - destruct (generateJSONTransform_plain mappings ns pristine Hplain) as (entries & E).
    eauto.
  - rewrite flatFields_eq. unfold normalizeAllMappings, headerParts.
    assert (Hnames : map targetName (fields mappings)
                     = map pi_name (firstn 5 (extractPaths xmlDoc))).
    { rewrite Hfields. unfold autoMap. rewrite map_map. reflexivity. }
    rewrite <- Hnames. clear Hnames Hplain Hfields.
    induction Hshape as [| m l (_ & _ & Hp & Hh) _ IH]; [reflexivity |].
    cbn [map filter]. unfold notPlaceholder at 1. rewrite Hp. cbn [negb flat_map].
    rewrite Hh, IH. reflexivity.
Qed.

Lemma autoMap_is_accepted_example :
  Forall (fun m => incomplete m = false)
         (fields (mappingSetOf (autoMap (extractPaths sampleDocument)))) /\
  (exists xml, generateXMLTransform (mappingSetOf (autoMap (extractPaths sampleDocument)))
                 [] pristine = (Returned xml, pristine)) /\
  (exists json, generateJSONTransform (mappingSetOf (autoMap (extractPaths sampleDocument)))
                  [] pristine = (Returned json, pristine)) /\
  headerParts (flatFields (mappingSetOf (autoMap (extractPaths sampleDocument))))
  = map pi_name (firstn 5 (extractPaths sampleDocument)).
Proof.
  exact (autoMap_is_accepted sampleDocument
           (mappingSetOf (autoMap (extractPaths sampleDocument))) [] eq_refl eq_refl).
Defined.

(** ** Namespaces, from the document to the stylesheet *)


















(** A prefix that is itself called [default] takes the place of the
    default namespace: the two declarations cannot be told apart. *)
Example prefix_named_default :
  extractNamespaces (mkDocument "a" [("xmlns:default", "urn:x")] [])
  = extractNamespaces (mkDocument "a" [("xmlns", "urn:x")] []) /\
  nsDeclarations " " (extractNamespaces (mkDocument "a" [("xmlns:default", "urn:x")] []))
  = EmptyString /\
  defaultNS (extractNamespaces (mkDocument "a" [("xmlns:default", "urn:x")] []))
  = "xmlns=" ++ q "urn:x".
Proof. repeat split; reflexivity. Qed.

(** ** Building on a polluted realm *)













(** ** The indentation level of a row *)

Lemma split_length (c : ascii) (s : string) :
  List.length (split c s) = S (countChar c s).
Proof.
  induction s as [| x r IH]; [reflexivity |].
  cbn [split countChar]. destruct (Ascii.eqb x c).
  - cbn [List.length]. now rewrite IH.
  - cbn [Nat.add]. destruct (split c r) as [| h t] eqn:E; [discriminate IH | exact IH].
Qed.

(** The level at which the editor indents a row is the number of slashes
    of its target path, that is, the number of components the hierarchy
    builders put around the field; the test for an empty path changes
    nothing. *)
Theorem getHierarchyLevel_counts_slashes (targetPath : string) :
  getHierarchyLevel targetPath = countChar "/"%char targetPath /\
  getHierarchyLevel targetPath = List.length (removeLast (split "/"%char targetPath)) /\
  getHierarchyLevel targetPath = (List.length (split "/"%char targetPath) - 1)%nat.
Proof.
  assert (E : (List.length (split "/"%char targetPath) - 1)%nat = countChar "/"%char targetPath)
    by (rewrite split_length; lia).
  assert (G : getHierarchyLevel targetPath = countChar "/"%char targetPath).
  { unfold getHierarchyLevel. destruct targetPath as [| c r]; [reflexivity |]. exact E. }
  split; [exact G |]. split; [| now rewrite G, E].
  rewrite G, <- E, removeLast_firstn, length_firstn. lia.
Qed.

(** ** Pairs of date and time fields *)

(** What [detectDateTimeFields] pairs and what it leaves alone.  Every
    pair joins a mapping of the list whose target name holds [date] (in
    any case) and not [time] with one whose name holds [time] and not
    [date]; the two names are equal once the first [date], respectively
    [time], is taken out, and that common rest followed by [DateTime] is
    the combined name.  A date field is paired whenever the list has such
    a partner for it. *)
Theorem detectDateTimeFields_pairs (mappings : list Mapping) :
  (forall pair, In pair (detectDateTimeFields mappings) ->
     In (dateField pair) mappings /\ In (timeField pair) mappings /\
     isDateField (dateField pair) = true /\ isTimeField (timeField pair) = true /\
     removeFirstNoCase "time" (targetName (timeField pair))
     = removeFirstNoCase "date" (targetName (dateField pair)) /\
     combinedName pair = removeFirstNoCase "date" (targetName (dateField pair)) ++ "DateTime") /\
  (forall d t, In d mappings -> In t mappings ->
     isDateField d = true -> isTimeField t = true ->
     removeFirstNoCase "time" (targetName t) = removeFirstNoCase "date" (targetName d) ->
     exists pair, In pair (detectDateTimeFields mappings) /\ dateField pair = d).
Proof.
  unfold detectDateTimeFields. split.
  - intros pair H. apply in_flat_map in H. destruct H as (d & Hd & Hp).
    apply filter_In in Hd. destruct Hd as [Hd Hdate].
    destruct (find _ (filter isTimeField mappings)) as [t |] eqn:F; [| contradiction].
    destruct Hp as [<- | []]. cbn [dateField timeField combinedName].
    apply find_some in F. destruct F as [Ht Heq].
    apply filter_In in Ht. destruct Ht as [Ht Htime].
    apply String.eqb_eq in Heq. repeat split; assumption.
  - intros d t Hd Ht Hdate Htime Heq.
    destruct (find (fun tf => removeFirstNoCase "time" (targetName tf)
                              =? removeFirstNoCase "date" (targetName d))
                   (filter isTimeField mappings)) as [t' |] eqn:F.
    + exists {| dateField := d; timeField := t';
                combinedName := removeFirstNoCase "date" (targetName d) ++ "DateTime" |}.
      split; [| reflexivity].
      apply in_flat_map. exists d. split; [apply filter_In; now split |].
      rewrite F. now left.
    + exfalso. pose proof (find_none _ _ F t) as Hn.
      cbv beta in Hn. rewrite Heq, String.eqb_refl in Hn.
      discriminate Hn. apply filter_In. now split.
Qed.

Example detectDateTimeFields_sample :
  map (fun pair => (targetName (dateField pair), targetName (timeField pair), combinedName pair))
      (detectDateTimeFields
         [ uiMapping "//o/d" "startDate" "date" 1; uiMapping "//o/t" "startTime" "time" 1;
           uiMapping "//o/u" "updateTime" "time" 1 ])
  = [("startDate", "startTime", "startDateTime")] /\
  generateDateTimeCombination "o/d" "o/t" = "concat(o/d, 'T', o/t, 'Z')".
Proof. split; reflexivity. Qed.

(** ** Groups of the legacy generator *)

Lemma findGroup_cons (key k : string) (members : list Mapping) (rest : Groups) :
  findGroup key ((k, members) :: rest) = if k =? key then Some members else findGroup key rest.
Proof. unfold findGroup. cbn [find fst]. now destruct (k =? key). Qed.

Lemma findGroup_own (key : string) (groups : Groups) :
  existsb (fun g => fst g =? key) groups = true <-> findGroup key groups <> None.
Proof.
  induction groups as [| [k members] rest IH]; [cbn; intuition congruence |].
  rewrite findGroup_cons. cbn [existsb fst]. destruct (k =? key); cbn [orb].
  - split; [discriminate | reflexivity].
  - exact IH.
Qed.

Lemma eqb_trans_neq (k key key' : string) :
  (k =? key) = true -> (key' =? key) = false -> (k =? key') = false.
Proof.
  intros H1 H2. apply String.eqb_eq in H1. subst k.
  now rewrite String.eqb_sym.
Qed.

Lemma findGroup_push (key key' : string) (m : Mapping) (groups : Groups) :
  findGroup key' (pushToGroup key m groups) =
  if key' =? key then option_map (fun old => (old ++ [m])%list) (findGroup key groups)
  else findGroup key' groups.
Proof.
  induction groups as [| [k members] rest IH].
  - cbn. now destruct (key' =? key).
  - cbn [pushToGroup]. destruct (k =? key) eqn:E.
    + rewrite !findGroup_cons, E. destruct (key' =? key) eqn:E'.
      * apply String.eqb_eq in E, E'. subst. now rewrite String.eqb_refl.
      * now rewrite (eqb_trans_neq k key key' E E').
    + rewrite !findGroup_cons, E, IH. destruct (key' =? key) eqn:E'.
      * apply String.eqb_eq in E'. subst key'. now rewrite E.
      * reflexivity.
Qed.

Lemma findGroup_insertIndexed (n : N) (key key' : string) (m : Mapping) (groups : Groups) :
  findGroup key groups = None ->
  findGroup key' (insertIndexedGroup n key m groups) =
  if key' =? key then Some [m] else findGroup key' groups.
Proof.
  induction groups as [| [k members] rest IH]; intros Hnone.
  - cbn [insertIndexedGroup]. rewrite findGroup_cons, (String.eqb_sym key key').
    now destruct (key' =? key).
  - rewrite findGroup_cons in Hnone. destruct (k =? key) eqn:E; [discriminate |].
    assert (Hfront : findGroup key' ((key, [m]) :: (k, members) :: rest) =
                     if key' =? key then Some [m] else findGroup key' ((k, members) :: rest)).
    { rewrite findGroup_cons, (String.eqb_sym key key'). reflexivity. }
    cbn [insertIndexedGroup]. destruct (arrayIndex k) as [n' |]; [| exact Hfront].
    destruct (n <? n')%N; [exact Hfront |].
    rewrite !findGroup_cons, (IH Hnone). destruct (key' =? key) eqn:E'; [| reflexivity].
    apply String.eqb_eq in E'. subst key'. now rewrite E.
Qed.

Lemma findGroup_app (key key' : string) (m : Mapping) (groups : Groups) :
  findGroup key groups = None ->
  findGroup key' (groups ++ [(key, [m])])%list =
  if key' =? key then Some [m] else findGroup key' groups.
Proof.
  induction groups as [| [k members] rest IH]; intros Hnone.
  - rewrite app_nil_l, findGroup_cons, (String.eqb_sym key key').
    now destruct (key' =? key).
  - rewrite findGroup_cons in Hnone. destruct (k =? key) eqn:E; [discriminate |].
    rewrite <- app_comm_cons, !findGroup_cons, (IH Hnone).
    destruct (key' =? key) eqn:E'; [| reflexivity].
    apply String.eqb_eq in E'. subst key'. now rewrite E.
Qed.

Lemma filedUnder_app (key : string) (done : list Mapping) (m : Mapping) :
  filedUnder key (done ++ [m]) =
  (filedUnder key done ++ if groupKey m =? key then [m] else [])%list.
Proof. unfold filedUnder. rewrite filter_app. cbn [filter]. reflexivity. Qed.

Lemma addToGroup_spec (m : Mapping) (done : list Mapping) (groups : Groups) :
  isInherited (groupKey m) = false ->
  (forall key, findGroup key groups =
               match filedUnder key done with [] => None | members => Some members end) ->
  exists groups',
    addToGroup (groupKey m) m groups pristine = Returned groups' /\
    forall key, findGroup key groups' =
                match filedUnder key (done ++ [m]) with [] => None | members => Some members end.
Proof.
  intros Hinh Hinv. unfold addToGroup.
  assert (Hother : forall key, (key =? groupKey m) = false ->
            filedUnder key (done ++ [m]) = filedUnder key done).
  { intros key E. rewrite filedUnder_app, (String.eqb_sym (groupKey m) key), E.
    apply app_nil_r. }
  assert (Hsame : filedUnder (groupKey m) (done ++ [m]) = (filedUnder (groupKey m) done ++ [m])%list).
  { now rewrite filedUnder_app, String.eqb_refl. }
  destruct (existsb (fun g => fst g =? groupKey m) groups) eqn:Hown.
  - eexists. split; [reflexivity |]. intros key. rewrite findGroup_push.
    destruct (key =? groupKey m) eqn:E.
    + apply String.eqb_eq in E. subst key. rewrite Hsame, Hinv.
      apply findGroup_own in Hown. rewrite Hinv in Hown.
      destruct (filedUnder (groupKey m) done) as [| x l]; [contradiction | reflexivity].
    + now rewrite (Hother key E).
  - assert (Hnone : findGroup (groupKey m) groups = None).
    { destruct (findGroup (groupKey m) groups) eqn:F; [| reflexivity].
      assert (Hn : findGroup (groupKey m) groups <> None) by (rewrite F; discriminate).
      apply findGroup_own in Hn. rewrite Hn in Hown. discriminate Hown. }
    assert (Hempty : filedUnder (groupKey m) done = []).
    { rewrite Hinv in Hnone. now destruct (filedUnder (groupKey m) done). }
    rewrite Hinh. cbn [proto_fields pristine]. rewrite andb_false_r.
    assert (Hnew : forall groups',
               (forall key, findGroup key groups' =
                            if key =? groupKey m then Some [m] else findGroup key groups) ->
               forall key, findGroup key groups' =
                 match filedUnder key (done ++ [m]) with [] => None | members => Some members end).
    { intros groups' H key. rewrite H. destruct (key =? groupKey m) eqn:E.
      - apply String.eqb_eq in E. subst key. now rewrite Hsame, Hempty.
      - now rewrite (Hother key E). }
    destruct (arrayIndex (groupKey m)) as [n |]; eexists; (split; [reflexivity |]);
      apply Hnew; intros key.
    + now apply findGroup_insertIndexed.
    + now apply findGroup_app.
Qed.

Lemma groupInto_spec (ms : list Mapping) :
  forall (done : list Mapping) (groups : Groups),
    (forall m, In m ms -> isInherited (groupKey m) = false) ->
    (forall key, findGroup key groups =
                 match filedUnder key done with [] => None | members => Some members end) ->
    exists groups',
      groupInto ms groups pristine = Returned groups' /\
      forall key, findGroup key groups' =
                  match filedUnder key (done ++ ms) with [] => None | members => Some members end.
Proof.
  induction ms as [| m ms IH]; intros done groups Hinh Hinv.
  - exists groups. split; [reflexivity |]. now rewrite app_nil_r.
  - destruct (addToGroup_spec m done groups (Hinh m (or_introl eq_refl)) Hinv)
      as (groups1 & E1 & H1).
    destruct (IH (done ++ [m])%list groups1 (fun x Hx => Hinh x (or_intror Hx)) H1)
      as (groups' & E & H).
    exists groups'. cbn [groupInto]. rewrite E1. split; [exact E |].
    intros key. rewrite H, <- app_assoc. reflexivity.
Qed.

(** The legacy grouping loses no mapping and keeps the order.  On a
    fresh realm, when no mapping is filed under the name of an inherited
    member, the groups are returned, and the group found under a key is
    the list of all mappings filed under it ([__root__] for a path of one
    segment, the parent path otherwise), in the order of the input; no
    group is empty. *)
Theorem groupByParentHierarchy_groups (mappings : list Mapping) :
  (forall m, In m mappings -> isInherited (groupKey m) = false) ->
  exists groups,
    groupByParentHierarchy mappings pristine = Returned groups /\
    forall key, findGroup key groups =
                match filedUnder key mappings with
                | [] => None
                | members => Some members
                end.
Proof.
  intros H. exact (groupInto_spec mappings [] [] H (fun key => eq_refl)).
Qed.

Lemma groupByParentHierarchy_groups_example :
  exists groups,
    groupByParentHierarchy scenarioE pristine = Returned groups /\
    forall key, findGroup key groups =
                match filedUnder key scenarioE with
                | [] => None
                | members => Some members
                end.
Proof.
  apply (groupByParentHierarchy_groups scenarioE).
  intros m [<- | [<- | []]]; reflexivity.
Defined.

(** ** No complete mapping is dropped *)

Lemma incomplete_normalizeMapping (m : Mapping) :
  incomplete (normalizeMapping m) = incomplete m.
Proof.
  unfold normalizeMapping. destruct (incomplete m) eqn:E; [exact E |].
  unfold incomplete in *. cbn [sourcePath targetName].
  apply orb_false_iff in E. destruct E as [Es Et]. rewrite Et.
  assert (Hs : sourcePath m <> EmptyString).
  { intros H. rewrite H in Es. discriminate Es. }
  destruct (normalizeXPath_head (sourcePath m) Hs) as (c & r & -> & _). reflexivity.
Qed.

Lemma xml_component_inner (key : string) (ms : list Mapping) (indent : string)
    (inner : string -> string) :
  exists indent', Contains (generateXMLComponent key ms indent inner) (inner indent').
Proof.
  unfold generateXMLComponent.
  destruct (findComponentMapping key ms) as [cm |].
  - destruct (truthy (forEachPath cm) || (1 <? occurs cm)%Z).
    + exists (indent ++ "    ").
      pose proof (Contains_refl (inner (indent ++ "    "))) as Hi. in_chain Hi.
    + exists (indent ++ "  ").
      pose proof (Contains_refl (inner (indent ++ "  "))) as Hi. in_chain Hi.
  - exists (indent ++ "  ").
    pose proof (Contains_refl (inner (indent ++ "  "))) as Hi. in_chain Hi.
Qed.

Lemma xml_entry_emits (ms : list Mapping) (f : Field) (e : Entry) :
  In f (leavesOf e) ->
  forall indent, exists indent',
    Contains (generateXMLEntry ms e indent) (generateXMLFieldInline f indent').
Proof.
  induction e as [fs | level name | key node IH] using Entry_induction; intros Hf indent.
  - exists indent. cbn [generateXMLEntry leavesOf] in *.
    exact (concatMap_In (fun f => generateXMLFieldInline f indent) fs f Hf).
  - contradiction.
  - rewrite leavesOf_child in Hf. unfold hierarchyLeaves in Hf.
    apply in_flat_map in Hf. destruct Hf as (e' & He' & Hf).
    cbn [generateXMLEntry].
    destruct (xml_component_inner key ms indent
                (fun indent' =>
                   (fix walk (es : list Entry) : string :=
                      match es with
                      | [] => EmptyString
                      | e' :: rest => generateXMLEntry ms e' indent' ++ walk rest
                      end) node)) as (i & Hi).
    cbv beta in Hi. rewrite xml_walk_eq in Hi.
    rewrite Forall_forall in IH. destruct (IH e' He' Hf i) as (indent' & Hc).
    exists indent'. eapply Contains_trans; [exact Hi |].
    eapply Contains_trans; [| exact Hc].
    exact (concatMap_In (fun e => generateXMLEntry ms e i) node e' He').
Qed.

Lemma json_component_inner (key : string) (ms : list Mapping) (indent : string)
    (inner : string -> string) :
  exists indent', Contains (generateJSONComponent key ms indent inner) (inner indent').
Proof.
  unfold generateJSONComponent.
  destruct (findRepeatedComponent key ms) as [cm |].
  - exists (indent ++ "        ").
    pose proof (Contains_refl (inner (indent ++ "        "))) as Hi. in_chain Hi.
  - exists (indent ++ "    ").
    pose proof (Contains_refl (inner (indent ++ "    "))) as Hi. in_chain Hi.
Qed.

Lemma json_entry_emits (ms : list Mapping) (f : Field) (e : Entry) :
  In f (leavesOf e) ->
  forall indent, exists indent',
    Contains (generateJSONEntry ms e indent) (generateJSONField f indent').
Proof.
  induction e as [fs | level name | key node IH] using Entry_induction; intros Hf indent.
  - exists indent. cbn [generateJSONEntry leavesOf] in *.
    exact (concatMap_In (fun f => generateJSONField f indent) fs f Hf).
  - contradiction.
  - rewrite leavesOf_child in Hf. unfold hierarchyLeaves in Hf.
    apply in_flat_map in Hf. destruct Hf as (e' & He' & Hf).
    cbn [generateJSONEntry].
    destruct (json_component_inner key ms indent
                (fun indent' =>
                   (fix walk (es : list Entry) : string :=
                      match es with
                      | [] => EmptyString
                      | e' :: rest => generateJSONEntry ms e' indent' ++ walk rest
                      end) node)) as (i & Hi).
    cbv beta in Hi. rewrite json_walk_eq in Hi.
    rewrite Forall_forall in IH. destruct (IH e' He' Hf i) as (indent' & Hc).
    exists indent'. eapply Contains_trans; [exact Hi |].
    eapply Contains_trans; [| exact Hc].
    exact (concatMap_In (fun e => generateJSONEntry ms e i) node e' He').
Qed.

(** On a fresh realm no complete mapping is dropped.  For every mapping
    set on plain target paths, the XML and the JSON emitter return a
    stylesheet that holds, for each complete mapping that is not marked as
    a placeholder, the text the field emitter produces for the normalized
    mapping under the last segment of its target path. *)
Theorem every_complete_mapping_is_emitted (mappings : MappingSet) (ns : Namespaces) :
  plainTargets (fields mappings) = true ->
  exists xml json,
    generateXMLTransform mappings ns pristine = (Returned xml, pristine) /\
    generateJSONTransform mappings ns pristine = (Returned json, pristine) /\
    forall m, In m (fields mappings) -> incomplete m = false -> isPlaceholder m = false ->
      let f := leafField (normalizeMapping m)
                 (last (split "/"%char (effectivePath m)) EmptyString) in
      (exists indent, Contains xml (generateXMLFieldInline f indent)) /\
      (exists indent, Contains json (generateJSONField f indent)).
Proof.
  intros H.
  set (fs := fields mappings) in *.
  set (actual := filter notPlaceholder (normalizeAllMappings fs)).
  set (completed := ensureCompleteHierarchy (normalizeAllMappings fs)).
  destruct (buildFrom_leaves leafField actual [] (plainTargets_actual fs H)) as (hx & Ex & Px).
  destruct (buildFrom_leaves leafField completed [] (plainTargets_json fs H)) as (hj & Ej & Pj).
  exists (xmlStylesheet mappings ns (generateInlineXMLStructure hx actual "      ")).
  exists (jsonStylesheet mappings ns
            (generateJSONMapEntriesEnhanced hj completed
               (orElse (rootPath mappings) "/*[1]") EmptyString)).
  split; [| split].
  - unfold generateXMLTransform, buildHierarchyForInlineGeneration.
    fold fs. rewrite (xml_actualFields fs). fold actual. now rewrite Ex.
  - unfold generateJSONTransform, buildJSONHierarchyEnhanced.
    fold fs. fold completed. now rewrite Ej.
  - intros m Hm Hc Hp f.
    assert (Hn : In (normalizeMapping m) (normalizeAllMappings fs))
      by (now apply in_map).
    assert (Hcomplete : complete (normalizeMapping m) = true)
      by (unfold complete; now rewrite incomplete_normalizeMapping, Hc).
    assert (Hf : forall l, In (normalizeMapping m) l ->
               In f (map (fun m => leafField m (last (split "/"%char (effectivePath m)) EmptyString))
                         (filter complete l))).
    { intros l Hl. apply in_map_iff. exists (normalizeMapping m). split.
      - unfold f. now rewrite normalizeMapping_effectivePath.
      - apply filter_In. now split. }
    split.
    + assert (Hin : In f (hierarchyLeaves hx)).
      { apply (Permutation_in f (Permutation_sym Px)). apply Hf.
        apply filter_In. split; [exact Hn |].
        unfold notPlaceholder. now rewrite normalizeMapping_isPlaceholder, Hp. }
      unfold hierarchyLeaves in Hin. apply in_flat_map in Hin. destruct Hin as (e & He & Hfe).
      destruct (xml_entry_emits actual f e Hfe "      ") as (indent & Hc').
      exists indent.
      assert (Hbody : Contains (generateInlineXMLStructure hx actual "      ")
                               (generateXMLFieldInline f indent)).
      { eapply Contains_trans; [| exact Hc'].
        exact (concatMap_In (fun e => generateXMLEntry actual e "      ") hx e He). }
      unfold xmlStylesheet. in_chain Hbody.
    + assert (Hin : In f (hierarchyLeaves hj)).
      { apply (Permutation_in f (Permutation_sym Pj)). apply Hf.
        unfold completed, ensureCompleteHierarchy. apply in_or_app. now left. }
      unfold hierarchyLeaves in Hin. apply in_flat_map in Hin. destruct Hin as (e & He & Hfe).
      destruct (json_entry_emits completed f e Hfe EmptyString) as (indent & Hc').
      exists indent.
      assert (Hbody : Contains (generateJSONMapEntriesEnhanced hj completed
                                  (orElse (rootPath mappings) "/*[1]") EmptyString)
                               (generateJSONField f indent)).
      { eapply Contains_trans; [| exact Hc'].
        exact (concatMap_In (fun e => generateJSONEntry completed e EmptyString) hj e He). }
      unfold jsonStylesheet. in_chain Hbody.
Qed.

Lemma every_complete_mapping_is_emitted_example :
  exists xml json,
    generateXMLTransform scenarioC [] pristine = (Returned xml, pristine) /\
    generateJSONTransform scenarioC [] pristine = (Returned json, pristine) /\
    forall m, In m (fields scenarioC) -> incomplete m = false -> isPlaceholder m = false ->
      let f := leafField (normalizeMapping m)
                 (last (split "/"%char (effectivePath m)) EmptyString) in
      (exists indent, Contains xml (generateXMLFieldInline f indent)) /\
      (exists indent, Contains json (generateJSONField f indent)).
Proof. exact (every_complete_mapping_is_emitted scenarioC [] eq_refl). Defined.

(** ** Behind the guard of the application *)

(** The application never hands an incomplete mapping to the generator.
    When [handleGenerateXSLT] gets as far as calling [generateXSLT], the
    field list is not empty and every mapping in it is complete, so that
    normalization touches every mapping and none of the fields the Flat
    emitter works on is incomplete; otherwise one of the two messages is
    shown. *)
Theorem handleGenerateXSLT_guard (outputFormat : string) (mappings : MappingSet)
    (namespaces : Namespaces) (r : Realm) :
  match handleGenerateXSLT outputFormat mappings namespaces r with
  | Requested out =>
      fields mappings <> [] /\
      (forall m, In m (fields mappings) -> incomplete m = false) /\
      (forall m, In m (flatFields mappings) -> incomplete m = false) /\
      out = generateXSLT outputFormat mappings
              {| opt_namespaces := Some namespaces; opt_delimiter := "," |} r
  | ErrorShown message =>
      (fields mappings = [] /\ message = "Please add at least one field mapping") \/
      ((exists m, In m (fields mappings) /\ incomplete m = true) /\
       message = "Please complete all field mappings (source path and target name required)")
  end.
Proof.
  unfold handleGenerateXSLT.
  destruct (fields mappings) as [| m0 fs] eqn:E; [left; now split |].
  cbn [List.length Nat.eqb]. rewrite <- E.
  destruct (filter incomplete (fields mappings)) as [| x l] eqn:F.
  - cbn [List.length Nat.ltb Nat.leb].
    assert (Hall : forall m, In m (fields mappings) -> incomplete m = false).
    { intros m Hm. destruct (incomplete m) eqn:I; [| reflexivity].
      assert (Hin : In m (filter incomplete (fields mappings))) by (apply filter_In; now split).
      rewrite F in Hin. contradiction. }
    split; [rewrite E; discriminate |]. split; [exact Hall |]. split; [| reflexivity].
    intros m Hm. rewrite flatFields_eq in Hm. apply filter_In in Hm. destruct Hm as [Hm _].
    apply in_map_iff in Hm. destruct Hm as (m' & <- & Hm').
    rewrite incomplete_normalizeMapping. now apply Hall.
  - right. split; [| reflexivity]. exists x.
    assert (Hin : In x (filter incomplete (fields mappings))) by (rewrite F; now left).
    apply filter_In in Hin. exact Hin.
Qed.

(** ** The display tree and the list of paths *)

Lemma buildNode_element (nodeName : string) (attrs : list (string * string))
    (childNodes : list DomNode) :
  buildNode (DomElement nodeName attrs childNodes) =
  Some (mkTreeNode nodeName attrs
          (flat_map (fun child => match buildNode child with
                                  | Some node => [node]
                                  | None => []
                                  end) childNodes)
          (directText childNodes)).
Proof.
  cbn [buildNode]. do 2 f_equal.
  induction childNodes as [| c rest IH]; [reflexivity |].
  cbn [flat_map]. rewrite <- IH.
  destruct c as [n a cs | d |]; [| reflexivity | reflexivity].
  destruct (buildNode (DomElement n a cs)); reflexivity.
Qed.

Lemma treePaths_node (name : string) (attributeList : list (string * string))
    (children : list TreeNode) (text currentPath : string) :
  treePaths (mkTreeNode name attributeList children text) currentPath =
  (childPath currentPath name
   :: map (fun attr => attributePath (childPath currentPath name) (fst attr)) attributeList
   ++ flat_map (fun child => treePaths child (childPath currentPath name)) children)%list.
Proof. reflexivity. Qed.

Lemma documentPaths_element (nodeName : string) (attrs : list (string * string))
    (childNodes : list DomNode) (currentPath : string) :
  documentPaths (DomElement nodeName attrs childNodes) currentPath =
  (childPath currentPath nodeName
   :: map (fun attr => attributePath (childPath currentPath nodeName) (fst attr)) attrs
   ++ flat_map (fun child => documentPaths child (childPath currentPath nodeName)) childNodes)%list.
Proof. reflexivity. Qed.

Lemma buildNode_paths (node : DomNode) :
  forall currentPath : string,
    match buildNode node with
    | Some tree => treePaths tree currentPath
    | None => []
    end = documentPaths node currentPath.
Proof.
  induction node as [nodeName attrs childNodes IH | data |] using DomNode_induction;
    intros currentPath; [| reflexivity | reflexivity].
  rewrite buildNode_element, treePaths_node, documentPaths_element. do 2 f_equal.
  set (newPath := childPath currentPath nodeName). clearbody newPath.
  induction IH as [| c rest Hc _ IHrest]; [reflexivity |].
  cbn [flat_map]. rewrite flat_map_app, IHrest, <- (Hc newPath). f_equal.
  destruct (buildNode c); [cbn [flat_map]; apply app_nil_r | reflexivity].
Qed.

(** The two views of a document agree.  [xmlToTree] returns a tree for
    every document, and the paths [extractPaths] lists are exactly the
    paths of the nodes of that tree and of their attributes, each of them
    once. *)
Theorem tree_and_path_list_agree (xmlDoc : Document) :
  exists tree,
    xmlToTree xmlDoc = Some tree /\
    NoDup (map pi_path (extractPaths xmlDoc)) /\
    forall p, In p (map pi_path (extractPaths xmlDoc)) <-> In p (treePaths tree EmptyString).
Proof.
  pose proof (buildNode_paths (documentElement xmlDoc) EmptyString) as Hp.
  unfold xmlToTree. unfold documentElement in Hp at 1. unfold documentElement at 1.
  rewrite buildNode_element in *.
  eexists. split; [reflexivity |].
  destruct (traverse_spec (documentElement xmlDoc) EmptyString ([], []) eq_refl) as (H1 & H2).
  assert (El : map pi_path (extractPaths xmlDoc)
               = fold_left (fun acc p => setAdd p acc)
                   (documentPaths (documentElement xmlDoc) EmptyString) []).
  { unfold extractPaths. now rewrite <- H1, H2. }
  rewrite El, Hp. split.
  - apply addAll_NoDup. constructor.
  - intros p. rewrite addAll_In. split; [intros [H | []]; exact H | now left].
Qed.
